(** * LLM response recovery: span extraction and JSON repair

    A shallow embedding of the text-recovery core of
    [apps/desktop/electron/services/llm.ts]: [extractJsonFromResponse], the
    inline extraction of [generateInstrumentationPlan], and
    [extractSpansFromText] with its helpers.

    JavaScript strings are sequences of UTF-16 code units; a code unit is a
    number [N] and a string a [list N].  Exceptions are values of [result].
    Regular expressions are terms of [regex], run by a backtracking matcher
    that follows the ECMAScript priority order. *)

From Stdlib Require Import String Ascii List NArith ZArith Bool Lia.
Import ListNotations.

Set Implicit Arguments.
Set Warnings "-register-all".

(** ** Code units and strings *)

Definition jsstring := list N.

(** A literal.  The apostrophe stands for the double quote (code unit 34),
    which a literal of the proof language cannot hold directly. *)
Definition lit (s : string) : jsstring :=
  map (fun a => let n := N_of_ascii a in if N.eqb n 39 then 34%N else n)
      (list_ascii_of_string s).

Definition LF : N := 10.
Definition CR : N := 13.
Definition DQUOTE : N := 34.
Definition BACKSLASH : N := 92.
Definition BACKTICK : N := 96.
Definition LBRACE : N := 123.
Definition RBRACE : N := 125.
Definition LBRACKET : N := 91.
Definition RBRACKET : N := 93.
Definition COLON : N := 58.
Definition SPACE : N := 32.
Definition DOT : N := 46.

Definition inRange (lo hi c : N) : bool := (N.leb lo c && N.leb c hi)%bool.

(** WhiteSpace and LineTerminator of ECMAScript: what [trim] strips and what
    [\s] matches. *)
Definition isWhiteSpace (c : N) : bool :=
  (inRange 9 13 c || N.eqb c 32 || N.eqb c 160 || N.eqb c 5760
   || inRange 8192 8202 c || N.eqb c 8232 || N.eqb c 8233 || N.eqb c 8239
   || N.eqb c 8287 || N.eqb c 12288 || N.eqb c 65279)%bool.

Definition isLineTerminator (c : N) : bool :=
  (N.eqb c 10 || N.eqb c 13 || N.eqb c 8232 || N.eqb c 8233)%bool.

Fixpoint dropWhile (p : N -> bool) (s : jsstring) : jsstring :=
  match s with
  | [] => []
  | c :: t => if p c then dropWhile p t else s
  end.

Definition trimStart (s : jsstring) : jsstring := dropWhile isWhiteSpace s.
Definition trimEnd (s : jsstring) : jsstring :=
  rev (dropWhile isWhiteSpace (rev s)).
Definition trim (s : jsstring) : jsstring := trimEnd (trimStart s).

Fixpoint startsWith (s p : jsstring) {struct p} : bool :=
  match p, s with
  | [], _ => true
  | _ :: _, [] => false
  | x :: p', c :: s' => (N.eqb c x && startsWith s' p')%bool
  end.

Definition endsWith (s p : jsstring) : bool := startsWith (rev s) (rev p).

Definition len (s : jsstring) : Z := Z.of_nat (length s).

Definition clampIndex (s : jsstring) (i : Z) : Z := Z.max 0 (Z.min i (len s)).

(** [s.substring(a, b)]: both ends clamped to [0, length], swapped when out
    of order. *)
Definition substring (s : jsstring) (a b : Z) : jsstring :=
  let a' := clampIndex s a in
  let b' := clampIndex s b in
  let lo := Z.min a' b' in
  let hi := Z.max a' b' in
  firstn (Z.to_nat (hi - lo)) (skipn (Z.to_nat lo) s).

(** [s.substring(a)] *)
Definition substringFrom (s : jsstring) (a : Z) : jsstring :=
  substring s a (len s).

(** [s.slice(a, b)]: negative indices count from the end. *)
Definition slice (s : jsstring) (a b : Z) : jsstring :=
  let rel i := if (i <? 0)%Z then Z.max (len s + i) 0 else Z.min i (len s) in
  let lo := rel a in
  let hi := rel b in
  firstn (Z.to_nat (hi - lo)) (skipn (Z.to_nat lo) s).

Fixpoint indexOfFrom (s p : jsstring) (i : Z) : Z :=
  if startsWith s p then i
  else match s with
       | [] => (-1)%Z
       | _ :: t => indexOfFrom t p (i + 1)
       end.

(** [s.indexOf(p)], [-1] when absent. *)
Definition indexOf (s p : jsstring) : Z := indexOfFrom s p 0.

Definition includes (s p : jsstring) : bool := (0 <=? indexOf s p)%Z.

Fixpoint eqs (a b : jsstring) : bool :=
  match a, b with
  | [], [] => true
  | x :: a', y :: b' => (N.eqb x y && eqs a' b')%bool
  | _, _ => false
  end.

(** [s[i]] for an index inside the string. *)
Definition charAt (s : jsstring) (i : Z) : option N :=
  if (i <? 0)%Z then None else nth_error s (Z.to_nat i).

(** ** Exceptions *)

Inductive jsError : Type :=
| Error (message : string)
| TypeError.

Inductive result (A : Type) : Type :=
| Ok (a : A)
| Throw (e : jsError).

Arguments Ok {A} a.
Arguments Throw {A} e.

Definition bind {A B} (m : result A) (f : A -> result B) : result B :=
  match m with
  | Ok a => f a
  | Throw e => Throw e
  end.

Notation "x <- m ;; k" := (bind m (fun x => k))
  (at level 61, m at next level, right associativity).

(** A property access on a value that may be [undefined]. *)
Definition defined {A} (o : option A) : result A :=
  match o with
  | Some a => Ok a
  | None => Throw TypeError
  end.

(** ** Regular expressions *)

Inductive regex : Type :=
| Eps
| Chr (p : N -> bool)
| Seq (a b : regex)
| Alt (a b : regex)
| Star (greedy : bool) (a : regex)
| Group (i : nat) (a : regex)
| Bol
| Eol.

(** Captures: the most recent binding of a group comes first. *)
Definition captures := list (nat * jsstring).

Fixpoint getCap (i : nat) (c : captures) : option jsstring :=
  match c with
  | [] => None
  | (j, v) :: t => if Nat.eqb i j then Some v else getCap i t
  end.

(** The iterations of a star.  [body] matches the starred expression once;
    an iteration that consumes nothing is refused, as in ECMAScript, so the
    length of the input bounds the number of iterations.  A greedy star tries
    one more iteration before the continuation [k], a lazy one after it. *)
Fixpoint starLoop {R}
    (body : jsstring -> nat -> captures ->
            (jsstring -> nat -> captures -> option R) -> option R)
    (greedy : bool) (k : jsstring -> nat -> captures -> option R)
    (n : nat) (s : jsstring) (pos : nat) (caps : captures) : option R :=
  let more (_ : unit) :=
    match n with
    | O => None
    | S n' =>
        body s pos caps
          (fun s1 p1 c1 =>
             if Nat.eqb p1 pos then None
             else starLoop body greedy k n' s1 p1 c1)
    end in
  if greedy then
    match more tt with
    | Some x => Some x
    | None => k s pos caps
    end
  else
    match k s pos caps with
    | Some x => Some x
    | None => more tt
    end.

(** The matcher, in continuation-passing style: [k] is what remains to be
    matched after [r]; alternatives are tried in ECMAScript's order and the
    first success is the answer. *)
Fixpoint rmatch {R} (r : regex) (s : jsstring) (pos : nat) (caps : captures)
    (k : jsstring -> nat -> captures -> option R) {struct r} : option R :=
  match r with
  | Eps => k s pos caps
  | Chr p =>
      match s with
      | c :: s' => if p c then k s' (S pos) caps else None
      | [] => None
      end
  | Seq a b => rmatch a s pos caps (fun s1 p1 c1 => rmatch b s1 p1 c1 k)
  | Alt a b =>
      match rmatch a s pos caps k with
      | Some x => Some x
      | None => rmatch b s pos caps k
      end
  | Star greedy a =>
      starLoop (fun s0 p0 c0 k0 => rmatch a s0 p0 c0 k0) greedy k
        (length s) s pos caps
  | Group i a =>
      rmatch a s pos caps
        (fun s1 p1 c1 => k s1 p1 ((i, firstn (p1 - pos) s) :: c1))
  | Bol => if Nat.eqb pos 0 then k s pos caps else None
  | Eol => match s with [] => k s pos caps | _ :: _ => None end
  end.

(** A match: where it starts, the matched text and the captures. *)
Record rxmatch : Type := mkMatch {
  mIndex : nat;
  mText : jsstring;
  mCaps : captures
}.

(** [match[i]] *)
Definition group (m : rxmatch) (i : nat) : option jsstring :=
  match i with
  | O => Some (mText m)
  | _ => getCap i (mCaps m)
  end.

(** One attempt at [pos], then the next position: the search of
    [RegExp.prototype.exec].  Returns the text skipped before the match, the
    match, and the text after it. *)
Fixpoint execFrom (r : regex) (s : jsstring) (pos : nat)
  : option (jsstring * rxmatch * jsstring) :=
  match rmatch r s pos [] (fun s1 p1 c1 => Some (s1, p1, c1)) with
  | Some (s1, p1, c1) => Some ([], mkMatch pos (firstn (p1 - pos) s) c1, s1)
  | None =>
      match s with
      | [] => None
      | c :: t =>
          match execFrom r t (S pos) with
          | Some (gap, m, rest) => Some (c :: gap, m, rest)
          | None => None
          end
      end
  end.

(** [s.match(r)] for a regex without the global flag. *)
Definition matchFirst (r : regex) (s : jsstring) : option rxmatch :=
  match execFrom r s 0 with
  | Some (_, m, _) => Some m
  | None => None
  end.

(** The successive matches of a global regex, each with the unmatched text
    before it, and the unmatched tail.  After an empty match the search
    resumes one code unit further. *)
Fixpoint segments (fuel : nat) (r : regex) (s : jsstring) (pos : nat)
  : list (jsstring * rxmatch) * jsstring :=
  match fuel with
  | O => ([], s)
  | S fuel' =>
      match execFrom r s pos with
      | None => ([], s)
      | Some (gap, m, rest) =>
          match mText m with
          | _ :: _ =>
              let (ms, tl) :=
                segments fuel' r rest (mIndex m + length (mText m)) in
              ((gap, m) :: ms, tl)
          | [] =>
              match rest with
              | [] => ([(gap, m)], [])
              | c :: rest' =>
                  let (ms, tl) := segments fuel' r rest' (S (mIndex m)) in
                  match ms with
                  | [] => ([(gap, m)], c :: tl)
                  | (g, m') :: ms' => ((gap, m) :: (c :: g, m') :: ms', tl)
                  end
              end
          end
      end
  end.

(** [s.matchAll(r)].  The flag says whether [r] was written with [/g]; without
    it [matchAll] throws a TypeError. *)
Definition matchAll (globalFlag : bool) (r : regex) (s : jsstring)
  : result (list rxmatch) :=
  if globalFlag then Ok (map snd (fst (segments (S (length s)) r s 0)))
  else Throw TypeError.

(** The result of a global replace, from the segments: each match gives way
    to what the replacer function returns for it. *)
Fixpoint assemble (f : rxmatch -> result jsstring)
    (l : list (jsstring * rxmatch)) (tl : jsstring) : result jsstring :=
  match l with
  | [] => Ok tl
  | (gap, m) :: l' =>
      x <- f m ;;
      y <- assemble f l' tl ;;
      Ok (gap ++ x ++ y)
  end.

(** [s.replace(r, f)] for a global [r] and a replacer function [f]. *)
Definition replaceAll (r : regex) (f : rxmatch -> result jsstring)
    (s : jsstring) : result jsstring :=
  let (ms, tl) := segments (S (length s)) r s 0 in
  assemble f ms tl.

(** [s.replace(r, f)] for [r] without the global flag: the first match only. *)
Definition replaceFirst (r : regex) (f : rxmatch -> result jsstring)
    (s : jsstring) : result jsstring :=
  match execFrom r s 0 with
  | None => Ok s
  | Some (gap, m, rest) => x <- f m ;; Ok (gap ++ x ++ rest)
  end.

(** Regex building blocks. *)
Definition chr (c : N) : regex := Chr (N.eqb c).
Definition anyChar : regex := Chr (fun _ => true).
Definition dot : regex := Chr (fun c => negb (isLineTerminator c)).
Definition ws : regex := Chr isWhiteSpace.
Definition plus (greedy : bool) (a : regex) : regex := Seq a (Star greedy a).
Definition opt (a : regex) : regex := Alt a Eps.
Fixpoint word (s : jsstring) : regex :=
  match s with
  | [] => Eps
  | c :: t => Seq (chr c) (word t)
  end.

(** ** Response repair and extraction: [extractJsonFromResponse] *)

(** [/:\s*`([\s\S]*?)`/g] *)
Definition backtickValuePattern : regex :=
  Seq (chr COLON) (Seq (Star true ws)
    (Seq (chr BACKTICK) (Seq (Group 1 (Star false anyChar)) (chr BACKTICK)))).

(** The class of the inner replace: the control characters U+0000-U+001F and
    U+007F-U+009F, the double quote and the backslash. *)
Definition needsEscape (c : N) : bool :=
  (inRange 0 31 c || inRange 127 159 c || N.eqb c DQUOTE
   || N.eqb c BACKSLASH)%bool.
Definition escapablePattern : regex := Chr needsEscape.

Definition hexDigit (d : N) : N :=
  if N.ltb d 10 then (48 + d)%N else (87 + d)%N.

(** [n.toString(16)] *)
Fixpoint toHexFuel (fuel : nat) (n : N) : jsstring :=
  match fuel with
  | O => []
  | S f =>
      if N.ltb n 16 then [hexDigit n]
      else toHexFuel f (N.div n 16) ++ [hexDigit (N.modulo n 16)]
  end.
Definition toHex (n : N) : jsstring := toHexFuel (S (N.to_nat (N.log2 n))) n.

(** The switch of the inner replacer, on the one matched code unit. *)
Definition escapeChar (c : N) : jsstring :=
  if N.eqb c DQUOTE then [BACKSLASH; DQUOTE]
  else if N.eqb c BACKSLASH then [BACKSLASH; BACKSLASH]
  else if N.eqb c 8 then [BACKSLASH; 98%N]
  else if N.eqb c 12 then [BACKSLASH; 102%N]
  else if N.eqb c 10 then [BACKSLASH; 110%N]
  else if N.eqb c 13 then [BACKSLASH; 114%N]
  else if N.eqb c 9 then [BACKSLASH; 116%N]
  else [BACKSLASH; 117%N] ++ slice (lit "0000" ++ toHex c) (-4) (len (lit "0000" ++ toHex c)).

(** The inner replacer: [char] is [match[0]], one code unit of the class. *)
Definition escapeReplacer (m : rxmatch) : result jsstring :=
  match mText m with
  | c :: _ => Ok (escapeChar c)
  | [] => Throw TypeError
  end.

(** The outer replacer: [content] is the first capture. *)
Definition backtickReplacer (m : rxmatch) : result jsstring :=
  content <- defined (group m 1) ;;
  escaped <- replaceAll escapablePattern escapeReplacer content ;;
  Ok (lit ": '" ++ escaped ++ lit "'").

Definition stripFences (responseText : jsstring) : jsstring :=
  let cleaned := trim responseText in
  let cleaned :=
    if startsWith cleaned (lit "```json") then substringFrom cleaned 7
    else if startsWith cleaned (lit "```") then substringFrom cleaned 3
    else cleaned in
  let cleaned :=
    if endsWith cleaned (lit "```") then slice cleaned 0 (-3) else cleaned in
  trim cleaned.

Definition repairBackticks (cleaned : jsstring) : result jsstring :=
  replaceAll backtickValuePattern backtickReplacer cleaned.

(** The index at which the JSON starts, [-1] when there is none. *)
Definition jsonStart (cleaned : jsstring) : Z :=
  let firstBrace := indexOf cleaned [LBRACE] in
  let firstBracket := indexOf cleaned [LBRACKET] in
  if (negb (firstBrace =? -1)
      && ((firstBracket =? -1) || (firstBrace <? firstBracket)))%bool%Z
  then firstBrace
  else if negb (firstBracket =? -1)%Z then firstBracket
  else (-1)%Z.

(** The mutable variables of the scanning loop. *)
Record scanState : Type := mkScan {
  openBraces : Z;
  openBrackets : Z;
  inString : bool;
  escapeNext : bool
}.

Definition scanInit : scanState := mkScan 0 0 false false.

(** One iteration of the loop body on the code unit [c].  The right component
    says whether the iteration ends with [break] (the end index is then the
    current index). *)
Definition scanStep (st : scanState) (c : N) : scanState * bool :=
  if escapeNext st then
    (mkScan (openBraces st) (openBrackets st) (inString st) false, false)
  else if N.eqb c BACKSLASH then
    (mkScan (openBraces st) (openBrackets st) (inString st) true, false)
  else if (N.eqb c DQUOTE && negb (escapeNext st))%bool then
    (mkScan (openBraces st) (openBrackets st) (negb (inString st))
       (escapeNext st), false)
  else if negb (inString st) then
    let st' :=
      if N.eqb c LBRACE then
        mkScan (openBraces st + 1) (openBrackets st) (inString st) (escapeNext st)
      else if N.eqb c RBRACE then
        mkScan (openBraces st - 1) (openBrackets st) (inString st) (escapeNext st)
      else if N.eqb c LBRACKET then
        mkScan (openBraces st) (openBrackets st + 1) (inString st) (escapeNext st)
      else if N.eqb c RBRACKET then
        mkScan (openBraces st) (openBrackets st - 1) (inString st) (escapeNext st)
      else st in
    (st', ((openBraces st' =? 0)%Z && (openBrackets st' =? 0)%Z
           && (N.eqb c RBRACE || N.eqb c RBRACKET))%bool)
  else (st, false).

(** The loop from index [i] over the rest [s] of the text: the value of
    [jsonEndIndex] when the loop is left, [-1] if it was never set. *)
Fixpoint scanLoop (st : scanState) (i : Z) (s : jsstring) : Z :=
  match s with
  | [] => (-1)%Z
  | c :: t =>
      let (st', stop) := scanStep st c in
      if stop then i else scanLoop st' (i + 1)%Z t
  end.

Definition noJsonFound : jsError :=
  Error "No JSON object or array found in LLM response.".
Definition incompleteJson : jsError :=
  Error "Incomplete JSON object or array in LLM response.".

(** The part of [extractJsonFromResponse] after the repair. *)
Definition locateJson (cleaned : jsstring) : result jsstring :=
  let jsonStartIndex := jsonStart cleaned in
  if (jsonStartIndex =? -1)%Z then Throw noJsonFound
  else
    let jsonEndIndex :=
      scanLoop scanInit jsonStartIndex (substringFrom cleaned jsonStartIndex) in
    if (jsonEndIndex =? -1)%Z then Throw incompleteJson
    else Ok (substring cleaned jsonStartIndex (jsonEndIndex + 1)).

Definition extractJsonFromResponse (responseText : jsstring) : result jsstring :=
  cleaned <- repairBackticks (stripFences responseText) ;;
  locateJson cleaned.

(** ** The inline extraction of [generateInstrumentationPlan] *)

Definition FENCE : jsstring := lit "```".

(** The fence pattern of Method 1: three backticks, an optional [json],
    white space, an optional newline, a lazy capture, an optional newline and
    three backticks. *)
Definition fencedBlockPattern : regex :=
  Seq (word FENCE) (Seq (opt (word (lit "json"))) (Seq (Star true ws)
    (Seq (opt (chr LF)) (Seq (Group 1 (Star false anyChar))
      (Seq (opt (chr LF)) (word FENCE)))))).

(** The two patterns of the fallback: an opening fence at the start of the
    text, and a closing fence with everything after it. *)
Definition openingFencePattern : regex :=
  Seq Bol (Seq (word FENCE) (Seq (opt (word (lit "json"))) (opt (chr LF)))).
Definition closingFencePattern : regex :=
  Seq (opt (chr LF)) (Seq (word FENCE) (Seq (Star true anyChar) Eol)).

Definition planUnfence (response : jsstring) : result jsstring :=
  let jsonText := trim response in
  if startsWith jsonText FENCE then
    match matchFirst fencedBlockPattern jsonText with
    | Some m => inner <- defined (group m 1) ;; Ok (trim inner)
    | None =>
        a <- replaceFirst openingFencePattern (fun _ => Ok []) jsonText ;;
        b <- replaceFirst closingFencePattern (fun _ => Ok []) a ;;
        Ok (trim b)
    end
  else Ok jsonText.

(** Method 2.  [None] stands for [Infinity]. *)
Definition planJsonStart (jsonText : jsstring) : option Z :=
  let orInfinity i := if (0 <=? i)%Z then Some i else None in
  match orInfinity (indexOf jsonText [LBRACE]),
        orInfinity (indexOf jsonText [LBRACKET]) with
  | Some a, Some b => Some (Z.min a b)
  | Some a, None => Some a
  | None, Some b => Some b
  | None, None => None
  end.

Definition planSkipProse (jsonText : jsstring) : jsstring :=
  if (negb (startsWith jsonText [LBRACE])
      && negb (startsWith jsonText [LBRACKET]))%bool then
    match planJsonStart jsonText with
    | Some jsonStart =>
        if (0 <=? jsonStart)%Z then substringFrom jsonText jsonStart
        else jsonText
    | None => jsonText
    end
  else jsonText.

(** Method 3: the variables of its loop, with one counter for both kinds of
    bracket. *)
Record planScanState : Type := mkPlanScan {
  braceCount : Z;
  pInString : bool;
  pEscapeNext : bool
}.

Definition planScanInit : planScanState := mkPlanScan 0 false false.

Definition planScanStep (st : planScanState) (c : N) : planScanState * bool :=
  if pEscapeNext st then (mkPlanScan (braceCount st) (pInString st) false, false)
  else if N.eqb c BACKSLASH then
    (mkPlanScan (braceCount st) (pInString st) true, false)
  else if (N.eqb c DQUOTE && negb (pEscapeNext st))%bool then
    (mkPlanScan (braceCount st) (negb (pInString st)) (pEscapeNext st), false)
  else if negb (pInString st) then
    if (N.eqb c LBRACE || N.eqb c LBRACKET)%bool then
      (mkPlanScan (braceCount st + 1) (pInString st) (pEscapeNext st), false)
    else if (N.eqb c RBRACE || N.eqb c RBRACKET)%bool then
      let st' := mkPlanScan (braceCount st - 1) (pInString st) (pEscapeNext st) in
      (st', (braceCount st' =? 0)%Z)
    else (st, false)
  else (st, false).

(** The value of [lastBrace] when the loop is left. *)
Fixpoint planScanLoop (st : planScanState) (i : Z) (s : jsstring) : Z :=
  match s with
  | [] => (-1)%Z
  | c :: t =>
      let (st', stop) := planScanStep st c in
      if stop then i else planScanLoop st' (i + 1)%Z t
  end.

Definition planCutTail (jsonText : jsstring) : jsstring :=
  let lastBrace := planScanLoop planScanInit 0 jsonText in
  if (0 <? lastBrace)%Z then substring jsonText 0 (lastBrace + 1)
  else jsonText.

(** The text that [generateInstrumentationPlan] hands to [JSON.parse]. *)
Definition planJsonText (response : jsstring) : result jsstring :=
  jsonText <- planUnfence response ;;
  Ok (planCutTail (planSkipProse jsonText)).

(** ** Span extraction: [extractSpansFromText] and its helpers *)

(** Canonicalisation of a code unit under the [i] flag (without [u]): its
    upper case, here for ASCII and Latin-1.  The literals of the patterns
    below are ASCII, U+00A2, U+00C4 and U+201A, and no code unit outside
    Latin-1 canonicalises to one of those, so matching agrees with the full
    table. *)
Definition canonicalize (c : N) : N :=
  if inRange 97 122 c then (c - 32)%N
  else if (inRange 224 254 c && negb (N.eqb c 247))%bool then (c - 32)%N
  else if N.eqb c 255 then 376%N
  else if N.eqb c 181 then 924%N
  else c.

Definition chrCI (x : N) : regex :=
  Chr (fun c => N.eqb (canonicalize c) (canonicalize x)).
Fixpoint wordCI (s : jsstring) : regex :=
  match s with
  | [] => Eps
  | c :: t => Seq (chrCI c) (wordCI t)
  end.
Definition oneOfCI (l : list N) : regex :=
  Chr (fun c => existsb (fun x => N.eqb (canonicalize c) (canonicalize x)) l).
Definition oneOf (l : list N) : regex := Chr (fun c => existsb (N.eqb c) l).
Definition noneOf (l : list N) : regex :=
  Chr (fun c => negb (existsb (N.eqb c) l)).

Definition isLower (c : N) : bool := inRange 97 122 c.
Definition isUpper (c : N) : bool := inRange 65 90 c.
Definition isAlpha (c : N) : bool := (isLower c || isUpper c)%bool.
Definition UNDERSCORE : N := 95.
Definition STAR : N := 42.

(** The name of a span: lower-case letters, then one or more groups of a dot
    and letters.  Under the [i] flag the first class takes upper case too. *)
Definition spanNameBody (ignoreCase : bool) : regex :=
  Seq (plus true (Chr (if ignoreCase then isAlpha else isLower)))
      (plus true (Seq (chr DOT) (plus true (Chr isAlpha)))).

(** Pattern 1, flag [g]: a span name between backticks. *)
Definition codeBlockPattern : regex :=
  Seq (chr BACKTICK) (Seq (Group 1 (spanNameBody false)) (chr BACKTICK)).

(** Pattern 2, flags [gi]: the word span, lazily anything on the line, a colon
    or a backtick, white space, a span name. *)
Definition explicitPattern : regex :=
  Seq (wordCI (lit "span")) (Seq (Star false dot)
    (Seq (oneOfCI [COLON; BACKTICK]) (Seq (Star true ws)
      (Group 1 (spanNameBody true))))).

(** The patterns of [extractDescription]. *)
Definition colonDescriptionPattern : regex :=
  Seq (chr BACKTICK) (Seq (plus true (noneOf [BACKTICK])) (Seq (chr BACKTICK)
    (Seq (Star true ws) (Seq (chr COLON) (Seq (Star true ws)
      (Seq (Group 1 (plus true (noneOf [DOT; LF; STAR])))
           (Alt (chr DOT) (Alt Eol (chr LF))))))))).
Definition parenDescriptionPattern : regex :=
  Seq (chr 40) (Seq (Group 1 (plus true (noneOf [41%N]))) (chr 41)).
(** The class of the third pattern as the source file has it: a colon, the
    code units U+201A, U+00C4, U+00EC and a hyphen. *)
Definition dashDescriptionPattern : regex :=
  Seq (oneOf [COLON; 8218%N; 196%N; 236%N; 45%N]) (Seq (Star true ws)
    (Group 1 (plus true (noneOf [DOT; LF; STAR])))).

(** The patterns of [extractAttributes]. *)
Definition attributesLabel : regex :=
  Seq (wordCI (lit "Attribute")) (Seq (opt (chrCI 115)) (chr COLON)).
Definition attributesLinePattern : regex :=
  Seq attributesLabel (Seq (Star true ws) (Group 1 (plus true (noneOf [LF])))).
Definition isAttrChar (c : N) : bool := (isLower c || N.eqb c UNDERSCORE)%bool.
Definition backtickAttrPattern : regex :=
  Seq (chr BACKTICK) (Seq (Group 1 (plus true (Chr isAttrChar))) (chr BACKTICK)).
Definition boldAttrPattern : regex :=
  Seq (word [STAR; STAR]) (Seq (Group 1 (plus true (Chr isAttrChar)))
    (word [STAR; STAR])).
(** The bullet class as the source file has it: an asterisk, U+201A, U+00C4,
    U+00A2 and a hyphen; flags [gi]. *)
Definition bulletPattern : regex :=
  Seq (oneOfCI [STAR; 8218%N; 196%N; 162%N; 45%N]) (Seq (Star true ws)
    (Seq attributesLabel (Seq (Star true ws) (Seq (chr BACKTICK)
      (Seq (Group 1 (plus true (noneOf [BACKTICK]))) (chr BACKTICK)))))).
Definition listSeparatorPattern : regex :=
  plus true (Chr (fun c => (N.eqb c 44 || isWhiteSpace c)%bool)).

(** [s.split(sep)] for a one-unit separator: the first piece and the others. *)
Fixpoint splitChar (sep : N) (s : jsstring) : jsstring * list jsstring :=
  match s with
  | [] => ([], [])
  | c :: t =>
      let (h, r) := splitChar sep t in
      if N.eqb c sep then ([], h :: r) else (c :: h, r)
  end.

(** [s.split(r)] for a pattern without capture groups.  [cur] is the piece
    being read, reversed; a match that would end where the piece starts is
    skipped. *)
Fixpoint splitLoop (fuel : nat) (r : regex) (cur : jsstring) (s : jsstring)
    (pos : nat) : list jsstring :=
  match fuel with
  | O => [rev cur ++ s]
  | S fuel' =>
      match s with
      | [] => [rev cur]
      | c :: t =>
          match rmatch r s pos [] (fun s1 p1 _ => Some (s1, p1)) with
          | Some (s1, p1) =>
              if Nat.eqb p1 (pos - length cur)
              then splitLoop fuel' r (c :: cur) t (S pos)
              else rev cur :: splitLoop fuel' r [] s1 p1
          | None => splitLoop fuel' r (c :: cur) t (S pos)
          end
      end
  end.

Definition splitRegex (r : regex) (s : jsstring) : list jsstring :=
  match s with
  | [] =>
      match rmatch r s 0 [] (fun _ _ _ => Some tt) with
      | Some _ => []
      | None => [[]]
      end
  | _ :: _ => splitLoop (S (length s)) r [] s 0
  end.

(** *** The attributes object, a [Record<string, string>] starting as [{}] *)

(** Own properties in insertion order. *)
Definition jsobject := list (jsstring * jsstring).

Fixpoint ownProp (o : jsobject) (k : jsstring) : option jsstring :=
  match o with
  | [] => None
  | (k', v) :: t => if eqs k k' then Some v else ownProp t k
  end.

(** The properties every object inherits from [Object.prototype]. *)
Definition inheritedNames : list jsstring :=
  map lit ["constructor"; "__proto__"; "hasOwnProperty"; "isPrototypeOf";
           "propertyIsEnumerable"; "toLocaleString"; "toString"; "valueOf";
           "__defineGetter__"; "__defineSetter__"; "__lookupGetter__";
           "__lookupSetter__"]%string.

(** The truth value of [o[k]]: an own property is a string, truthy unless
    empty; an inherited one is a function or an object. *)
Definition truthyProp (o : jsobject) (k : jsstring) : bool :=
  match ownProp o k with
  | Some v => match v with [] => false | _ :: _ => true end
  | None => existsb (eqs k) inheritedNames
  end.

Fixpoint updateProp (o : jsobject) (k v : jsstring) : jsobject :=
  match o with
  | [] => [(k, v)]
  | (k', v') :: t =>
      if eqs k k' then (k', v) :: t else (k', v') :: updateProp t k v
  end.

(** [o[k] = v] for a string [v]: the inherited setter of [__proto__] ignores
    a string; any other key is updated in place or appended. *)
Definition setProp (o : jsobject) (k v : jsstring) : jsobject :=
  if eqs k (lit "__proto__") then o else updateProp o k v.

Definition isDigit (c : N) : bool := inRange 48 57 c.

Fixpoint decimalValue (acc : N) (s : jsstring) : N :=
  match s with
  | [] => acc
  | c :: t => decimalValue (10 * acc + (c - 48))%N t
  end.

(** An array index: the canonical decimal form of an integer below
    [2^32 - 1]. *)
Definition arrayIndex (k : jsstring) : option N :=
  match k with
  | [] => None
  | c :: t =>
      if (forallb isDigit k && (negb (N.eqb c 48) || match t with [] => true | _ => false end)
          && Nat.leb (length k) 10)%bool
      then let v := decimalValue 0 k in
           if N.ltb v 4294967295 then Some v else None
      else None
  end.

Fixpoint insertIndex (x : N * jsstring) (l : list (N * jsstring))
  : list (N * jsstring) :=
  match l with
  | [] => [x]
  | y :: t => if N.leb (fst x) (fst y) then x :: l else y :: insertIndex x t
  end.

Fixpoint indexKeys (o : jsobject) : list (N * jsstring) :=
  match o with
  | [] => []
  | (k, _) :: t =>
      match arrayIndex k with
      | Some n => insertIndex (n, k) (indexKeys t)
      | None => indexKeys t
      end
  end.

Fixpoint nameKeys (o : jsobject) : list jsstring :=
  match o with
  | [] => []
  | (k, _) :: t =>
      match arrayIndex k with
      | Some _ => nameKeys t
      | None => k :: nameKeys t
      end
  end.

(** [Object.keys(o)]: array indices in ascending order, then the other keys
    in insertion order. *)
Definition objectKeys (o : jsobject) : list jsstring :=
  map snd (indexKeys o) ++ nameKeys o.

(** *** Span definitions *)

Inductive layerKind : Type := frontend | backend.

Record SpanDefinition : Type := mkSpan {
  name : jsstring;
  op : jsstring;
  layer : layerKind;
  description : jsstring;
  attributes : jsobject;
  pii : list jsstring
}.

(** A [for ... of] loop whose body may throw, over the state [st]. *)
Fixpoint forEach {A S} (l : list A) (st : S) (body : S -> A -> result S)
  : result S :=
  match l with
  | [] => Ok st
  | x :: t => st' <- body st x ;; forEach t st' body
  end.

Definition lowerAscii (c : N) : N := if isUpper c then (c + 32)%N else c.
Definition isAsciiString (s : jsstring) : bool :=
  forallb (fun c => N.ltb c 128) s.

Definition underscoresToSpaces (s : jsstring) : result jsstring :=
  replaceAll (chr UNDERSCORE) (fun _ => Ok [SPACE]) s.

(** The template [Tracks ${attrName.replace(/_/g, ' ')}]. *)
Definition tracks (attrName : jsstring) : result jsstring :=
  spaced <- underscoresToSpaces attrName ;;
  Ok (lit "Tracks " ++ spaced).

Definition frontendWords : list jsstring :=
  map lit ["frontend"; "client"; "browser"; "user action"; "click"; "submit"]%string.
Definition backendWords : list jsstring :=
  map lit ["backend"; "server"; "api"; "database"; "payment"; "process"]%string.
Definition backendNameWords : list jsstring :=
  map lit ["validate"; "process"; "fetch"]%string.
Definition backendOps : list jsstring :=
  map lit ["db"; "http"; "payment"; "auth"; "email"]%string.
Definition attributeWords : list jsstring :=
  map lit ["id"; "name"; "price"; "quantity"; "value"; "amount"; "count";
           "method"; "status"; "type"; "user"; "error"; "address"; "street";
           "city"; "state"; "zip"; "rate"; "shipping"; "order"; "cart";
           "product"]%string.
Definition piiKeywords : list jsstring :=
  map lit ["email"; "phone"; "address"; "ssn"; "card"; "password"; "token";
           "ip"; "street"; "city"; "zip"; "postal"; "credit"; "cvv";
           "billing"; "shipping_address"; "billing_address"; "name";
           "firstname"; "lastname"]%string.

Section SpanExtractor.

(** [String.prototype.toLowerCase], whose case table is not part of the
    repository.  For the results that depend on it, it is only assumed to
    lower ASCII strings unit by unit (see [lowersAscii]). *)
Variable toLowerCase : jsstring -> jsstring.

Definition guessLayer (spanName context : jsstring) : layerKind :=
  let lowerContext := toLowerCase context in
  let lowerSpanName := toLowerCase spanName in
  let spanIndex := indexOf lowerContext lowerSpanName in
  let contextWindow :=
    substring lowerContext (Z.max 0 (spanIndex - 100))
      (Z.min (len lowerContext) (spanIndex + 100)) in
  if existsb (includes contextWindow) frontendWords then frontend
  else if (existsb (includes contextWindow) backendWords
           || existsb (includes spanName) backendNameWords)%bool then backend
  else
    let op := fst (splitChar DOT spanName) in
    if existsb (eqs op) backendOps then backend
    else backend.

(** [None] stands for [undefined], which the caller treats like the empty
    string. *)
Definition extractDescription (spanName text : jsstring)
  : result (option jsstring) :=
  let spanIndex := indexOf text spanName in
  if (spanIndex =? -1)%Z then Ok (Some [])
  else
    let afterSpan := substring text spanIndex (spanIndex + 300) in
    match matchFirst colonDescriptionPattern afterSpan with
    | Some colonMatch =>
        d <- defined (group colonMatch 1) ;; Ok (Some (trim d))
    | None =>
        match matchFirst parenDescriptionPattern afterSpan with
        | Some parenMatch => Ok (group parenMatch 1)
        | None =>
            match matchFirst dashDescriptionPattern afterSpan with
            | Some descMatch =>
                d <- defined (group descMatch 1) ;; Ok (Some (trim d))
            | None => Ok (Some [])
            end
        end
    end.

(** [description || `Tracks ${spanName} operation`] *)
Definition descriptionOrDefault (d : option jsstring) (spanName : jsstring)
  : jsstring :=
  match d with
  | Some (c :: t) => c :: t
  | _ => lit "Tracks " ++ spanName ++ lit " operation"
  end.

Definition addLabelledAttribute (attrs : jsobject) (m : rxmatch)
  : result jsobject :=
  attrName <- defined (group m 1) ;;
  if negb (includes attrName [DOT]) then
    v <- tracks attrName ;; Ok (setProp attrs attrName v)
  else Ok attrs.

Definition addListedAttribute (attrs : jsobject) (attr : jsstring)
  : result jsobject :=
  let cleaned := trim attr in
  match cleaned with
  | [] => Ok attrs
  | _ :: _ =>
      if negb (includes cleaned [DOT]) then
        v <- tracks cleaned ;; Ok (setProp attrs cleaned v)
      else Ok attrs
  end.

Definition addBulletAttributes (attrs : jsobject) (m : rxmatch)
  : result jsobject :=
  attrList <- defined (group m 1) ;;
  forEach (splitRegex listSeparatorPattern attrList) attrs addListedAttribute.

Definition addCommonAttribute (spanName : jsstring) (attrs : jsobject)
    (m : rxmatch) : result jsobject :=
  attrName <- defined (group m 1) ;;
  if (includes attrName [DOT] || eqs attrName spanName
      || truthyProp attrs attrName)%bool then Ok attrs
  else if existsb (includes attrName) attributeWords then
    v <- tracks attrName ;; Ok (setProp attrs attrName v)
  else Ok attrs.

Definition extractAttributes (spanName text : jsstring) : result jsobject :=
  let attributes : jsobject := [] in
  let spanIndex := indexOf text spanName in
  if (spanIndex =? -1)%Z then Ok attributes
  else
    let context := substring text spanIndex (spanIndex + 400) in
    attributes <-
      match matchFirst attributesLinePattern context with
      | Some attributesMatch =>
          attributesText <- defined (group attributesMatch 1) ;;
          attrMatches <- matchAll true backtickAttrPattern attributesText ;;
          forEach attrMatches attributes addLabelledAttribute
      | None => Ok attributes
      end ;;
    bulletMatches <- matchAll true bulletPattern context ;;
    attributes <- forEach bulletMatches attributes addBulletAttributes ;;
    forEach [backtickAttrPattern; boldAttrPattern] attributes
      (fun attributes pattern =>
         matches <- matchAll true pattern context ;;
         forEach matches attributes (addCommonAttribute spanName)).

Definition isPIIKey (key : jsstring) : bool :=
  let lowerKey := toLowerCase key in
  existsb (includes lowerKey) piiKeywords.

Definition detectPIIKeys (attributes : jsobject) : list jsstring :=
  filter isPIIKey (objectKeys attributes).

(** The body of the first loop. *)
Definition codeBlockSpan (text : jsstring) (spans : list SpanDefinition)
    (m : rxmatch) : result (list SpanDefinition) :=
  spanName <- defined (group m 1) ;;
  if negb (includes spanName [DOT]) then Ok spans
  else
    let op := fst (splitChar DOT spanName) in
    let layer := guessLayer spanName text in
    description <- extractDescription spanName text ;;
    attributes <- extractAttributes spanName text ;;
    Ok (spans ++ [mkSpan spanName op layer
                    (descriptionOrDefault description spanName)
                    attributes (detectPIIKeys attributes)]).

(** The body of the second loop. *)
Definition explicitSpan (text : jsstring) (spans : list SpanDefinition)
    (m : rxmatch) : result (list SpanDefinition) :=
  captured <- defined (group m 1) ;;
  let spanName := toLowerCase captured in
  if negb (includes spanName [DOT]) then Ok spans
  else if existsb (fun s => eqs (name s) spanName) spans then Ok spans
  else
    let op := fst (splitChar DOT spanName) in
    let layer := guessLayer spanName text in
    description <- extractDescription spanName text ;;
    attributes <- extractAttributes spanName text ;;
    Ok (spans ++ [mkSpan spanName op layer
                    (descriptionOrDefault description spanName)
                    attributes []]).

Definition extractSpansFromText (text : jsstring)
  : result (list SpanDefinition) :=
  let spans : list SpanDefinition := [] in
  matches <- matchAll true codeBlockPattern text ;;
  spans <- forEach matches spans (codeBlockSpan text) ;;
  explicitMatches <- matchAll true explicitPattern text ;;
  forEach explicitMatches spans (explicitSpan text).

End SpanExtractor.

(** What is assumed of [toLowerCase] where a result depends on it. *)
Definition lowersAscii (toLowerCase : jsstring -> jsstring) : Prop :=
  forall s, isAsciiString s = true -> toLowerCase s = map lowerAscii s.

(** ** JSON texts

    The grammar of RFC 8259 as concrete syntax trees: a tree keeps the white
    space and the spelling of numbers and strings, [render] writes it back,
    and a text is valid JSON when it is the rendering of a well-formed tree
    between white space.  This stands for what [JSON.parse] accepts. *)

Definition isJsonWs (c : N) : bool :=
  (N.eqb c 32 || N.eqb c 9 || N.eqb c 10 || N.eqb c 13)%bool.

Definition isHex (c : N) : bool :=
  (isDigit c || inRange 97 102 c || inRange 65 70 c)%bool.

(** One character of a string literal. *)
Inductive strItem : Type :=
| Plain (c : N)
| Escaped (c : N)
| Unicode (h1 h2 h3 h4 : N).

Record jnumber : Type := mkNumber {
  negative : bool;
  intDigits : jsstring;
  fracDigits : option jsstring;
  expPart : option (N * jsstring * jsstring)
}.

Record memberHead : Type := mkHead {
  beforeKey : jsstring;
  key : list strItem;
  afterKey : jsstring;
  afterColon : jsstring
}.

Inductive jvalue : Type :=
| JNull
| JTrue
| JFalse
| JNumber (n : jnumber)
| JString (s : list strItem)
| JArray (w : jsstring) (es : list (jsstring * jvalue * jsstring))
| JObject (w : jsstring) (ms : list (memberHead * jvalue * jsstring)).

Fixpoint joinWith (sep : jsstring) (l : list jsstring) : jsstring :=
  match l with
  | [] => []
  | [x] => x
  | x :: t => x ++ sep ++ joinWith sep t
  end.

Definition renderItem (i : strItem) : jsstring :=
  match i with
  | Plain c => [c]
  | Escaped c => [BACKSLASH; c]
  | Unicode h1 h2 h3 h4 => [BACKSLASH; 117%N; h1; h2; h3; h4]
  end.

Definition renderString (s : list strItem) : jsstring :=
  [DQUOTE] ++ flat_map renderItem s ++ [DQUOTE].

Definition renderNumber (n : jnumber) : jsstring :=
  (if negative n then [45%N] else []) ++ intDigits n
  ++ match fracDigits n with Some d => DOT :: d | None => [] end
  ++ match expPart n with Some (e, sg, d) => e :: sg ++ d | None => [] end.

Definition renderHead (h : memberHead) : jsstring :=
  beforeKey h ++ renderString (key h) ++ afterKey h ++ [COLON] ++ afterColon h.

Fixpoint render (v : jvalue) : jsstring :=
  match v with
  | JNull => lit "null"
  | JTrue => lit "true"
  | JFalse => lit "false"
  | JNumber n => renderNumber n
  | JString s => renderString s
  | JArray w es =>
      [LBRACKET] ++ w
      ++ joinWith [44%N]
           (map (fun e => match e with
                          | (w1, x, w2) => w1 ++ render x ++ w2
                          end) es)
      ++ [RBRACKET]
  | JObject w ms =>
      [LBRACE] ++ w
      ++ joinWith [44%N]
           (map (fun m => match m with
                          | (h, x, w2) => renderHead h ++ render x ++ w2
                          end) ms)
      ++ [RBRACE]
  end.

Definition renderElement (e : jsstring * jvalue * jsstring) : jsstring :=
  match e with
  | (w1, x, w2) => w1 ++ render x ++ w2
  end.

Definition renderMember (m : memberHead * jvalue * jsstring) : jsstring :=
  match m with
  | (h, x, w2) => renderHead h ++ render x ++ w2
  end.

Definition allWs (w : jsstring) : bool := forallb isJsonWs w.

Definition wfItem (i : strItem) : bool :=
  match i with
  | Plain c => (N.leb 32 c && negb (N.eqb c DQUOTE) && negb (N.eqb c BACKSLASH))%bool
  | Escaped c => existsb (N.eqb c) [DQUOTE; BACKSLASH; 47; 98; 102; 110; 114; 116]%N
  | Unicode h1 h2 h3 h4 => (isHex h1 && isHex h2 && isHex h3 && isHex h4)%bool
  end.

Definition nonEmptyDigits (d : jsstring) : bool :=
  (forallb isDigit d && negb (Nat.eqb (length d) 0))%bool.

Definition wfNumber (n : jnumber) : bool :=
  (nonEmptyDigits (intDigits n)
   && match intDigits n with
      | c :: _ :: _ => negb (N.eqb c 48)
      | _ => true
      end
   && match fracDigits n with Some d => nonEmptyDigits d | None => true end
   && match expPart n with
      | Some (e, sg, d) =>
          (N.eqb e 101 || N.eqb e 69)
          && (eqs sg [] || eqs sg [43%N] || eqs sg [45%N])
          && nonEmptyDigits d
      | None => true
      end)%bool.

Definition wfHead (h : memberHead) : bool :=
  (allWs (beforeKey h) && forallb wfItem (key h) && allWs (afterKey h)
   && allWs (afterColon h))%bool.

Fixpoint wfValue (v : jvalue) : bool :=
  match v with
  | JNull | JTrue | JFalse => true
  | JNumber n => wfNumber n
  | JString s => forallb wfItem s
  | JArray w es =>
      (allWs w
       && forallb (fun e => match e with
                            | (w1, x, w2) => allWs w1 && wfValue x && allWs w2
                            end) es)%bool
  | JObject w ms =>
      (allWs w
       && forallb (fun m => match m with
                            | (h, x, w2) => wfHead h && wfValue x && allWs w2
                            end) ms)%bool
  end.

Definition isContainer (v : jvalue) : bool :=
  match v with
  | JArray _ _ | JObject _ _ => true
  | _ => false
  end.

(** What a string literal denotes. *)
Definition hexValue (c : N) : N :=
  if isDigit c then (c - 48)%N
  else if inRange 97 102 c then (c - 87)%N
  else (c - 55)%N.

Definition decodeItem (i : strItem) : N :=
  match i with
  | Plain c => c
  | Escaped c =>
      if N.eqb c 98 then 8%N
      else if N.eqb c 102 then 12%N
      else if N.eqb c 110 then 10%N
      else if N.eqb c 114 then 13%N
      else if N.eqb c 116 then 9%N
      else c
  | Unicode h1 h2 h3 h4 =>
      (4096 * hexValue h1 + 256 * hexValue h2 + 16 * hexValue h3 + hexValue h4)%N
  end.

Definition decodeString (s : list strItem) : jsstring := map decodeItem s.

(** The value a tree denotes; a number is kept as its spelling. *)
Inductive jsval : Type :=
| VNull
| VBool (b : bool)
| VNumber (spelling : jsstring)
| VString (s : jsstring)
| VArray (l : list jsval)
| VObject (fields : list (jsstring * jsval)).

Fixpoint denote (v : jvalue) : jsval :=
  match v with
  | JNull => VNull
  | JTrue => VBool true
  | JFalse => VBool false
  | JNumber n => VNumber (renderNumber n)
  | JString s => VString (decodeString s)
  | JArray _ es =>
      VArray (map (fun e => match e with (_, x, _) => denote x end) es)
  | JObject _ ms =>
      VObject (map (fun m => match m with
                             | (h, x, _) => (decodeString (key h), denote x)
                             end) ms)
  end.

(** The property [k] of a parsed object; of two members with one key the
    later wins. *)
Fixpoint lastField (k : jsstring) (fields : list (jsstring * jsval))
  : option jsval :=
  match fields with
  | [] => None
  | (k', x) :: t =>
      match lastField k t with
      | Some y => Some y
      | None => if eqs k k' then Some x else None
      end
  end.

Definition field (k : jsstring) (v : jsval) : option jsval :=
  match v with
  | VObject fields => lastField k fields
  | _ => None
  end.

(** [JSON.parse(text)] succeeds with the value [v]. *)
Definition JSONparse (text : jsstring) (v : jsval) : Prop :=
  exists w1 t w2,
    allWs w1 = true /\ wfValue t = true /\ allWs w2 = true /\
    text = w1 ++ render t ++ w2 /\ denote t = v.

Definition validJson (text : jsstring) : Prop := exists v, JSONparse text v.

(** The string item that the escaping of the repair amounts to. *)
Definition encodeChar (c : N) : strItem :=
  if N.eqb c DQUOTE then Escaped DQUOTE
  else if N.eqb c BACKSLASH then Escaped BACKSLASH
  else if N.eqb c 8 then Escaped 98
  else if N.eqb c 12 then Escaped 102
  else if N.eqb c 10 then Escaped 110
  else if N.eqb c 13 then Escaped 114
  else if N.eqb c 9 then Escaped 116
  else if needsEscape c then
    Unicode 48 48 (hexDigit (N.div c 16)) (hexDigit (N.modulo c 16))
  else Plain c.

(** ** Declarative reading of the balanced scan *)

(** The lexical state [(inString, escapeNext)] and its step, as the loop has
    them: a backslash sets [escapeNext] inside a string literal and outside
    one alike. *)
Definition lexStep (q : bool * bool) (c : N) : bool * bool :=
  match q with
  | (ins, true) => (ins, false)
  | (ins, false) =>
      if N.eqb c BACKSLASH then (ins, true)
      else if N.eqb c DQUOTE then (negb ins, false)
      else (ins, false)
  end.

Definition lexRun (q : bool * bool) (s : jsstring) : bool * bool :=
  fold_left lexStep s q.

(** [c], read in the lexical state [q], is outside every string literal and is
    neither escaped nor a quote or a backslash. *)
Definition structural (q : bool * bool) (c : N) : bool :=
  match q with
  | (false, false) => (negb (N.eqb c BACKSLASH) && negb (N.eqb c DQUOTE))%bool
  | _ => false
  end.

(** Structural occurrences of [opening] minus those of [closing] in [s], read
    from the lexical state [q]. *)
Fixpoint netDepth (opening closing : N) (q : bool * bool) (s : jsstring) : Z :=
  match s with
  | [] => 0%Z
  | c :: t =>
      ((if structural q c then
          if N.eqb c opening then 1
          else if N.eqb c closing then -1 else 0
        else 0)
       + netDepth opening closing (lexStep q c) t)%Z
  end.

Definition isCloser (c : N) : bool := (N.eqb c RBRACE || N.eqb c RBRACKET)%bool.

(** The nesting balances at the code unit [c] that follows [before] in the
    text read from the JSON start: [c] is a structural closing brace or
    bracket, and up to and including [c] there are as many structural
    closing braces as opening ones, and likewise for brackets. *)
Definition balancedAt (before : jsstring) (c : N) : bool :=
  (structural (lexRun (false, false) before) c
   && isCloser c
   && (netDepth LBRACE RBRACE (false, false) (before ++ [c]) =? 0)%Z
   && (netDepth LBRACKET RBRACKET (false, false) (before ++ [c]) =? 0)%Z)%bool.

(** The scan reaches the end of [text] before the nesting balances. *)
Definition neverBalances (text : jsstring) : Prop :=
  forall before c after,
    text = before ++ c :: after -> balancedAt before c = false.

(** The text has no JSON start token. *)
Definition noStartToken (cleaned : jsstring) : Prop :=
  ~ In LBRACE cleaned /\ ~ In LBRACKET cleaned.

(** The text from its first brace or bracket on. *)
Fixpoint fromStartToken (s : jsstring) : jsstring :=
  match s with
  | [] => []
  | c :: t =>
      if (N.eqb c LBRACE || N.eqb c LBRACKET)%bool then s
      else fromStartToken t
  end.

(** A colon, optional white space and a backtick start [s]: where the repair
    pattern can begin to match. *)
Definition siteStart (s : jsstring) : bool :=
  match s with
  | c :: t => (N.eqb c COLON && startsWith (dropWhile isWhiteSpace t) [BACKTICK])%bool
  | [] => false
  end.

(** Somewhere in [s] the repair pattern can begin to match. *)
Fixpoint hasSiteStart (s : jsstring) : bool :=
  match s with
  | [] => false
  | _ :: t => (siteStart s || hasSiteStart t)%bool
  end.

(** A colon, optional white space and a backtick start [s], and a later
    backtick closes the text so opened: a backtick-delimited value after a
    colon, where the repair pattern does match. *)
Definition siteAt (s : jsstring) : bool :=
  match s with
  | c :: t =>
      (N.eqb c COLON
       && match dropWhile isWhiteSpace t with
          | b :: u => N.eqb b BACKTICK && existsb (N.eqb BACKTICK) u
          | [] => false
          end)%bool
  | [] => false
  end.

(** Somewhere in [s] there is a backtick-delimited value after a colon. *)
Fixpoint hasSite (s : jsstring) : bool :=
  match s with
  | [] => false
  | _ :: t => (siteAt s || hasSite t)%bool
  end.

(** ** Static properties of patterns *)

(** Every match of [r] binds group [i]. *)
Fixpoint definesGroup (i : nat) (r : regex) : bool :=
  match r with
  | Seq a b => (definesGroup i a || definesGroup i b)%bool
  | Alt a b => (definesGroup i a && definesGroup i b)%bool
  | Group j a => (Nat.eqb i j || definesGroup i a)%bool
  | _ => false
  end.

(** Every match of [r] has at least one code unit. *)
Fixpoint consumes (r : regex) : bool :=
  match r with
  | Chr _ => true
  | Seq a b => (consumes a || consumes b)%bool
  | Alt a b => (consumes a && consumes b)%bool
  | Group _ a => consumes a
  | _ => false
  end.

(** ** Example responses *)

(** The responses of the specification's examples, and a few more. *)
Definition ex_prose : jsstring := lit "just prose, no JSON here".
Definition ex_truncated : jsstring := lit "{'a': 'b'".
Definition ex_code_interior : jsstring :=
  lit "const x = 'a';" ++ [LF] ++ lit " return x;".
Definition ex_code : jsstring :=
  lit "{'code': `" ++ ex_code_interior ++ lit "`}".
Definition ex_span : jsstring :=
  lit "Add a custom span `checkout.validate_cart`: validates the cart before payment. Attributes: `cart_value`, `item_count`.".

(** Valid JSON texts, with the syntax tree they are rendered from. *)
Definition ex_scalar : jsstring := lit "42".
Definition ex_scalar_tree : jvalue := JNumber (mkNumber false (lit "42") None None).
Definition ex_padded : jsstring := lit " {}".
Definition ex_site_in_string : jsstring := lit "{'a': 'x: `b`'}".
Definition ex_site_in_string_tree : jvalue :=
  JObject [] [(mkHead [] [Plain 97] [] [SPACE], JString (map Plain (lit "x: `b`")), [])].
Definition ex_pair_tree : jvalue :=
  JObject []
    [(mkHead [] [Plain 97] [] [SPACE], JString [Plain 98], []);
     (mkHead [SPACE] [Plain 99] [] [SPACE],
      JArray [] [([], JNumber (mkNumber false (lit "1") None None), []);
                 ([SPACE], JTrue, [])], [])].

(** ** Notions used in the statements and the proofs *)

(** What a successful run of the matcher on [r] guarantees: the
    continuation succeeded on a suffix of the input, with every group that
    was bound before or that [r] defines bound, and after at least one code
    unit if [r] consumes. *)
Definition matchInv {R : Type} (r : regex) (s : jsstring) (pos : nat) (caps : captures)
    (k : jsstring -> nat -> captures -> option R) (x : R) : Prop :=
  exists consumed s1 c1,
    s = consumed ++ s1 /\
    k s1 (pos + length consumed) c1 = Some x /\
    (forall i, getCap i caps <> None \/ definesGroup i r = true ->
               getCap i c1 <> None) /\
    (consumes r = true -> consumed <> []).

(** What holds of a match found by the search. *)
Definition goodMatch (r : regex) (m : rxmatch) : Prop :=
  (forall i, definesGroup i r = true -> getCap i (mCaps m) <> None) /\
  (consumes r = true -> mText m <> []).

(** The state of the loop after the code units [p]. *)
Definition runScan (st : scanState) (p : jsstring) : scanState :=
  fold_left (fun st c => fst (scanStep st c)) p st.

(** The string state of the loop, as the declarative reading has it. *)
Definition lexOf (st : scanState) : bool * bool := (inString st, escapeNext st).

(** What the code unit [c], read in string state [q], adds to the count of
    one kind of bracket. *)
Definition delta (opening closing : N) (q : bool * bool) (c : N) : Z :=
  if structural q c then
    if N.eqb c opening then 1%Z else if N.eqb c closing then (-1)%Z else 0%Z
  else 0%Z.

(** [jsonStart] with both searches started at index [i]. *)
Definition jsonStartFrom (s : jsstring) (i : Z) : Z :=
  let firstBrace := indexOfFrom s [LBRACE] i in
  let firstBracket := indexOfFrom s [LBRACKET] i in
  if (negb (firstBrace =? -1)
      && ((firstBracket =? -1) || (firstBrace <? firstBracket)))%bool%Z
  then firstBrace
  else if negb (firstBracket =? -1)%Z then firstBracket
  else (-1)%Z.

(** A code unit that is neither a quote nor a backslash. *)
Definition ordinary (c : N) : bool :=
  (negb (N.eqb c DQUOTE) && negb (N.eqb c BACKSLASH))%bool.

(** Induction on syntax trees, through the lists of elements and members. *)
Section JvalueInduction.
Variable P : jvalue -> Prop.
Hypothesis HNull : P JNull.
Hypothesis HTrue : P JTrue.
Hypothesis HFalse : P JFalse.
Hypothesis HNumber : forall n, P (JNumber n).
Hypothesis HString : forall s, P (JString s).
Hypothesis HArray : forall w es,
  Forall (fun e => match e with (_, x, _) => P x end) es -> P (JArray w es).
Hypothesis HObject : forall w ms,
  Forall (fun m => match m with (_, x, _) => P x end) ms -> P (JObject w ms).

Fixpoint jvalue_nested_ind (v : jvalue) : P v :=
  match v with
  | JNull => HNull
  | JTrue => HTrue
  | JFalse => HFalse
  | JNumber n => HNumber n
  | JString s => HString s
  | JArray w es =>
      HArray w
        ((fix go (l : list (jsstring * jvalue * jsstring))
            : Forall (fun e => match e with (_, x, _) => P x end) l :=
            match l with
            | [] => Forall_nil _
            | (w1, x, w2) :: t =>
                @Forall_cons _ (fun e => match e with (_, x, _) => P x end)
                  (w1, x, w2) t (jvalue_nested_ind x) (go t)
            end) es)
  | JObject w ms =>
      HObject w
        ((fix go (l : list (memberHead * jvalue * jsstring))
            : Forall (fun m => match m with (_, x, _) => P x end) l :=
            match l with
            | [] => Forall_nil _
            | (h, x, w2) :: t =>
                @Forall_cons _ (fun m => match m with (_, x, _) => P x end)
                  (h, x, w2) t (jvalue_nested_ind x) (go t)
            end) ms)
  end.
End JvalueInduction.

(** The closing token of an opening one, and the opening tokens. *)
Definition closerOf (o : N) : N := if N.eqb o LBRACE then RBRACE else RBRACKET.

Definition isOpener (o : N) : bool := (N.eqb o LBRACE || N.eqb o LBRACKET)%bool.

(** A code unit that no scanner of this file reacts to outside a string. *)
Definition plainChar (c : N) : bool :=
  negb (existsb (N.eqb c) [DQUOTE; BACKSLASH; LBRACE; RBRACE; LBRACKET; RBRACKET]).

(** The loop, started in a good state, runs through [x] without a change of
    state. *)
Definition SkipsWith {St : Type} (loop : St -> Z -> jsstring -> Z)
    (good : St -> Prop) (x : jsstring) : Prop :=
  forall st i rest, good st -> loop st i (x ++ rest) = loop st (i + len x)%Z rest.

(** The states in which the loop of [extractJsonFromResponse] is outside a
    string and inside a container. *)
Definition scanGood (st : scanState) : Prop :=
  inString st = false /\ escapeNext st = false /\
  (0 <= openBraces st)%Z /\ (0 <= openBrackets st)%Z /\
  (0 < openBraces st + openBrackets st)%Z.

(** The state after the opening token [o]. *)
Definition scanPush (o : N) (st : scanState) : scanState :=
  if N.eqb o LBRACE
  then mkScan (openBraces st + 1) (openBrackets st) (inString st) (escapeNext st)
  else mkScan (openBraces st) (openBrackets st + 1) (inString st) (escapeNext st).

(** The same for the loop of Method 3. *)
Definition planGood (st : planScanState) : Prop :=
  pInString st = false /\ pEscapeNext st = false /\ (0 < braceCount st)%Z.

(** A text that neither starts nor ends with white space. *)
Definition tight (s : jsstring) : Prop :=
  (exists a m, s = a :: m /\ isWhiteSpace a = false) /\
  (exists hd l, s = hd ++ [l] /\ isWhiteSpace l = false).

(** The opening fence with its tag and the newline, and the newline with
    the closing fence. *)
Definition jsonFence : jsstring := lit "```json" ++ [LF].

Definition endFence : jsstring := [LF] ++ lit "```".

(** The fenced form of the specification: the fence with its tag and a
    newline, the text, a newline and the closing fence. *)
Definition fenced (s : jsstring) : jsstring := jsonFence ++ s ++ endFence.

(** The matcher of [a] as the body of a star. *)
Abbreviation bodyOf a := (fun s0 p0 c0 k0 => rmatch a s0 p0 c0 k0) (only parsing).

(** The continuation at the end of a pattern. *)
Definition finalK : jsstring -> nat -> captures -> option (jsstring * nat * captures) :=
  fun s1 p1 c1 => Some (s1, p1, c1).

(** The continuations inside the repair pattern: after the captured text,
    and after the white space. *)
Definition closeK (from : nat) (text : jsstring)
  : jsstring -> nat -> captures -> option (jsstring * nat * captures) :=
  fun s1 p1 c1 =>
    rmatch (chr BACKTICK) s1 p1 ((1, firstn (p1 - from) text) :: c1) finalK.

Definition openK : jsstring -> nat -> captures -> option (jsstring * nat * captures) :=
  fun s1 p1 c1 =>
    rmatch (Seq (chr BACKTICK) (Seq (Group 1 (Star false anyChar)) (chr BACKTICK)))
      s1 p1 c1 finalK.

(** The text of a site: a colon, white space, and [c] between backticks. *)
Definition siteText (w c : jsstring) : jsstring :=
  COLON :: w ++ BACKTICK :: c ++ [BACKTICK].

(** What the repair writes for one code unit of the delimited text, and for
    the whole text. *)
Definition escapeUnit (c : N) : jsstring :=
  if needsEscape c then escapeChar c else [c].

Definition escapeText (content : jsstring) : jsstring := flat_map escapeUnit content.

(** A text that names no span. *)
Definition ex_no_span : jsstring := lit "Nothing to instrument here.".

(** The PII keys of [s] are those of its attribute keys whose lower-cased
    form contains a keyword. *)
Definition piiDerived (toLowerCase : jsstring -> jsstring) (s : SpanDefinition)
  : Prop :=
  pii s = filter (fun k => existsb (includes (toLowerCase k)) piiKeywords)
                 (objectKeys (attributes s)).

(** A text whose span has one attribute with a PII keyword in its key. *)
Definition ex_pii : jsstring :=
  lit "Use `user.signup` for it. Attributes: `customer_email`, `plan_type`.".

(** [toLowerCase] as it is known on ASCII strings, and as given elsewhere. *)
Definition asciiFirst (toLowerCase : jsstring -> jsstring) (s : jsstring) : jsstring :=
  if isAsciiString s then map lowerAscii s else toLowerCase s.

(** The span the extractor builds from [ex_span]. *)
Definition ex_span_found : SpanDefinition :=
  mkSpan (lit "checkout.validate") (lit "checkout") backend
    (lit "validates the cart before payment")
    [(lit "cart_value", lit "Tracks cart value");
     (lit "item_count", lit "Tracks item count")]
    [].

(** A name twice between backticks; a name between backticks and after the
    word span. *)
Definition ex_twice : jsstring :=
  lit "Wrap it in `cart.add`; later call `cart.add` again.".

Definition ex_both_forms : jsstring :=
  lit "Use `payment.process` here. Then add a custom span: payment.process".

(** An object with the value [x] under the head [h], between the members
    [ms1] and [ms2]. *)
Definition objectWith (w0 : jsstring) (ms1 : list (memberHead * jvalue * jsstring))
    (h : memberHead) (x : jvalue) (wv : jsstring)
    (ms2 : list (memberHead * jvalue * jsstring)) : jvalue :=
  JObject w0 (ms1 ++ (h, x, wv) :: ms2).

(** The text of that object up to the colon of [h], and after the value. *)
Definition beforeValue (w0 : jsstring) (ms1 : list (memberHead * jvalue * jsstring))
    (h : memberHead) : jsstring :=
  [LBRACE] ++ w0 ++ flat_map (fun m => renderMember m ++ [44%N]) ms1
  ++ beforeKey h ++ renderString (key h) ++ afterKey h.

Definition afterValue (wv : jsstring)
    (ms2 : list (memberHead * jvalue * jsstring)) : jsstring :=
  wv ++ flat_map (fun m => 44%N :: renderMember m) ms2 ++ [RBRACE].

(** The head [h] with one space after the colon, as the repair writes it. *)
Definition spaced (h : memberHead) : memberHead :=
  mkHead (beforeKey h) (key h) (afterKey h) [SPACE].

(** The key [code], and the example of the specification with another
    member before it whose string holds a colon, a space and a backtick:
    with the code between backticks, and with the code as a JSON string. *)
Definition codeKey : list strItem := [Plain 99; Plain 111; Plain 100; Plain 101].

Definition ex_note_site : jsstring :=
  lit "{'note': 'see: `x', 'code': `" ++ ex_code_interior ++ lit "`}".

Definition ex_note_quoted : jsstring :=
  lit "{'note': 'see: `x', 'code': "
  ++ renderString (map encodeChar ex_code_interior) ++ lit "}".

(** The continuations inside the fence pattern of Method 1. *)
Definition fenceCloseK (from : nat) (text : jsstring)
  : jsstring -> nat -> captures -> option (jsstring * nat * captures) :=
  fun s1 p1 c1 =>
    rmatch (Seq (opt (chr LF)) (word FENCE)) s1 p1
      ((1, firstn (p1 - from) text) :: c1) finalK.

Definition fenceBodyK : jsstring -> nat -> captures -> option (jsstring * nat * captures) :=
  fun s1 p1 c1 =>
    rmatch (Seq (opt (chr LF)) (Seq (Group 1 (Star false anyChar))
              (Seq (opt (chr LF)) (word FENCE)))) s1 p1 c1 finalK.

(** A brace closed by a bracket. *)
Definition ex_mismatched : jsstring := lit "{]".

(** A text cut out of [pre ++ T ++ post] around [T]. *)
Definition aroundText (pre T post s : jsstring) : Prop :=
  exists x pre' post' y,
    pre = x ++ pre' /\ post = post' ++ y /\ s = pre' ++ T ++ post'.

(** Text before and after a JSON text in a reply: plain prose, and prose
    with a fence tagged with another language. *)
Definition ex_before : jsstring := lit "Here is the plan:" ++ [LF].
Definition ex_after : jsstring := [LF] ++ lit "Let me know if {this} helps.".
Definition ex_before_fenced : jsstring :=
  lit "Sure, here is the plan." ++ [LF] ++ lit "```javascript" ++ [LF].
Definition ex_after_fenced : jsstring :=
  [LF] ++ lit "``` Let me know if {this} helps.".

(** ** The fence removal of [generateApiService] and [generateCustomFeatures] *)

(** [/^```(?:typescript|ts|javascript|js)?\n?/] *)
Definition codeFencePattern : regex :=
  Seq Bol (Seq (word FENCE)
    (Seq (opt (Alt (word (lit "typescript")) (Alt (word (lit "ts"))
            (Alt (word (lit "javascript")) (word (lit "js"))))))
         (opt (chr LF)))).

(** [/\n?```$/] *)
Definition trailingFencePattern : regex :=
  Seq (opt (chr LF)) (Seq (word FENCE) Eol).

(** [s.replace(r, '')] for [r] without the global flag. *)
Definition removeFirst (r : regex) (s : jsstring) : result jsstring :=
  replaceFirst r (fun _ => Ok []) s.

(** The code that [generateApiService] returns for the reply [response]. *)
Definition apiServiceCode (response : jsstring) : result jsstring :=
  let code := trim response in
  if startsWith code FENCE then
    code <- removeFirst codeFencePattern code ;;
    code <- removeFirst trailingFencePattern code ;;
    Ok (trim code)
  else Ok code.

(** The text that [generateCustomFeatures] hands to [JSON.parse]; its opening
    pattern is the one of the plan's fallback. *)
Definition customFeaturesJsonText (response : jsstring) : result jsstring :=
  let jsonText := trim response in
  if startsWith jsonText FENCE then
    jsonText <- removeFirst openingFencePattern jsonText ;;
    jsonText <- removeFirst trailingFencePattern jsonText ;;
    Ok (trim jsonText)
  else Ok jsonText.

(** The language tags that [generateApiService] removes with the fence. *)
Definition codeTags : list jsstring :=
  [[]; lit "typescript"; lit "ts"; lit "javascript"; lit "js"].

(** What is left of the text after the opening fence once the first of the
    alternatives [typescript], [ts], [javascript], [js] that starts it is
    removed. *)
Definition afterCodeTag (body : jsstring) : jsstring :=
  match find (startsWith body) (tl codeTags) with
  | Some t => skipn (length t) body
  | None => body
  end.

(** ** The texts a pattern matches *)

(** The texts that [r] can consume; an anchor consumes nothing. *)
Inductive lang : regex -> jsstring -> Prop :=
| lang_eps : lang Eps []
| lang_chr p c : p c = true -> lang (Chr p) [c]
| lang_seq a b u v : lang a u -> lang b v -> lang (Seq a b) (u ++ v)
| lang_alt_l a b u : lang a u -> lang (Alt a b) u
| lang_alt_r a b u : lang b u -> lang (Alt a b) u
| lang_star_nil g a : lang (Star g a) []
| lang_star_cons g a u v :
    lang a u -> lang (Star g a) v -> lang (Star g a) (u ++ v)
| lang_group i a u : lang a u -> lang (Group i a) u
| lang_bol : lang Bol []
| lang_eol : lang Eol [].

(** Every group [i] of [r] binds texts that satisfy [Q i]. *)
Fixpoint groupsSatisfy (Q : nat -> jsstring -> Prop) (r : regex) : Prop :=
  match r with
  | Seq a b | Alt a b => groupsSatisfy Q a /\ groupsSatisfy Q b
  | Star _ a => groupsSatisfy Q a
  | Group i a => (forall u, lang a u -> Q i u) /\ groupsSatisfy Q a
  | _ => True
  end.

(** Every binding of [caps] satisfies [Q]. *)
Definition capturesSatisfy (Q : nat -> jsstring -> Prop) (caps : captures) : Prop :=
  forall i v, getCap i caps = Some v -> Q i v.

(** What a successful run of the matcher guarantees of the text consumed and
    of the captures handed to the continuation. *)
Definition matchSound {R : Type} (Q : nat -> jsstring -> Prop) (r : regex)
    (s : jsstring) (pos : nat) (k : jsstring -> nat -> captures -> option R)
    (x : R) : Prop :=
  exists u s1 c1,
    s = u ++ s1 /\ lang r u /\ capturesSatisfy Q c1 /\
    k s1 (pos + length u) c1 = Some x.

(** ** The shape of an extracted span *)

(** A name with the first part [head] and the further parts [segs], each
    after a dot. *)
Definition spanNameOf (head : jsstring) (segs : list jsstring) : jsstring :=
  head ++ flat_map (fun seg => DOT :: seg) segs.

(** The name is lower-case letters, then one or more parts of letters, each
    after a dot; the operation is the first part. *)
Definition wellFormedSpan (s : SpanDefinition) : Prop :=
  exists head segs,
    name s = spanNameOf head segs /\ op s = head /\
    head <> [] /\ forallb isLower head = true /\
    segs <> [] /\
    Forall (fun seg => seg <> [] /\ forallb isAlpha seg = true) segs.

(** ** The entries of an attributes object *)

Definition underscoreToSpace (c : N) : N := if N.eqb c UNDERSCORE then SPACE else c.

(** An entry as the extractor writes it: a key that is not empty and has no
    dot, described by the word Tracks and the key with its underscores turned
    into spaces. *)
Definition generatedEntry (kv : jsstring * jsstring) : Prop :=
  fst kv <> [] /\ includes (fst kv) [DOT] = false /\
  snd kv = lit "Tracks " ++ map underscoreToSpace (fst kv).

(** ** The spans that [chat] adds to the project *)

Definition len_spans (l : list SpanDefinition) : Z := Z.of_nat (length l).

(** [extractedSpans.filter(span => !existingSpanNames.has(span.name))] *)
Definition newSpans (projectSpans extractedSpans : list SpanDefinition)
  : list SpanDefinition :=
  let existingSpanNames := map name projectSpans in
  filter (fun span => negb (existsb (eqs (name span)) existingSpanNames))
         extractedSpans.

(** The spans of the project after [chat] has read the reply [response]:
    the list it hands to [updateProject], or the list as it was when it does
    not call it. *)
Definition chatSpans (toLowerCase : jsstring -> jsstring)
    (projectSpans : list SpanDefinition) (response : jsstring)
  : result (list SpanDefinition) :=
  extractedSpans <- extractSpansFromText toLowerCase response ;;
  if (0 <? len_spans extractedSpans)%Z then
    let added := newSpans projectSpans extractedSpans in
    if (0 <? len_spans added)%Z then Ok (projectSpans ++ added)
    else Ok projectSpans
  else Ok projectSpans.

(** ** The function names the generator derives from spans *)

(** [`trace_${span.name.replace(/\./g, '_')}`], the name of the function
    that the generator writes for a span. *)
Definition traceFunctionName (span : SpanDefinition) : result jsstring :=
  funcName <- replaceAll (chr DOT) (fun _ => Ok [UNDERSCORE]) (name span) ;;
  Ok (lit "trace_" ++ funcName).

(** The code units of an identifier written with letters and underscores. *)
Definition isIdentifierChar (c : N) : bool := (isAlpha c || N.eqb c UNDERSCORE)%bool.

(** ** Prose with backtick-delimited texts *)

(** A text in which every colon that is followed by optional white space and
    a backtick opens a delimited text that is closed: pieces [a] without
    such a colon, each followed by a colon, white space [w] and a text [c]
    between backticks. *)
Definition proseWithSites (sites : list (jsstring * jsstring * jsstring))
  : jsstring :=
  flat_map (fun s => match s with (a, w, c) => a ++ siteText w c end) sites.

Definition closedSite (s : jsstring * jsstring * jsstring) : Prop :=
  match s with
  | (a, w, c) =>
      hasSiteStart a = false /\ forallb isWhiteSpace w = true /\
      ~ In BACKTICK c
  end.

(** What the repair makes of such a text. *)
Definition repairedProse (sites : list (jsstring * jsstring * jsstring))
  : jsstring :=
  flat_map (fun s => match s with
                     | (a, w, c) => a ++ lit ": '" ++ escapeText c ++ lit "'"
                     end) sites.

(** The usual reply: a sentence that ends in a colon, then a fenced block
    with the tag [json], then a closing remark. *)
Definition ex_sentence_sites : list (jsstring * jsstring * jsstring) :=
  [(lit "Here is the JSON", [LF], [])].
Definition ex_sentence_mid : jsstring := lit "`json" ++ [LF].
Definition ex_sentence_after : jsstring :=
  [LF] ++ lit "```" ++ [LF] ++ lit "Let me know if this helps.".

(** ** The balanced scan as the specification words it

    The scan of the specification, to compare with [scanStep]: one counter
    for braces and brackets together, a backslash that sets [escapeNext]
    only inside a string literal, and the end at the first closing brace or
    bracket at which the counter, having been positive, is back to zero. *)

Record specScanState : Type := mkSpecScan {
  specCounter : Z;
  specInString : bool;
  specEscapeNext : bool
}.

Definition specScanInit : specScanState := mkSpecScan 0 false false.

Definition specScanStep (st : specScanState) (c : N) : specScanState * bool :=
  if specEscapeNext st then
    (mkSpecScan (specCounter st) (specInString st) false, false)
  else if specInString st then
    if N.eqb c BACKSLASH then (mkSpecScan (specCounter st) true true, false)
    else if N.eqb c DQUOTE then (mkSpecScan (specCounter st) false false, false)
    else (st, false)
  else if N.eqb c DQUOTE then (mkSpecScan (specCounter st) true false, false)
  else if (N.eqb c LBRACE || N.eqb c LBRACKET)%bool then
    (mkSpecScan (specCounter st + 1) false false, false)
  else if (N.eqb c RBRACE || N.eqb c RBRACKET)%bool then
    (mkSpecScan (specCounter st - 1) false false,
     ((0 <? specCounter st) && (specCounter st - 1 =? 0))%bool%Z)
  else (st, false).

(** The index at which the scan of the specification ends, [-1] when it
    reaches the end of the text. *)
Fixpoint specScanLoop (st : specScanState) (i : Z) (s : jsstring) : Z :=
  match s with
  | [] => (-1)%Z
  | c :: t =>
      let (st', stop) := specScanStep st c in
      if stop then i else specScanLoop st' (i + 1)%Z t
  end.

(** A brace closed after a backslash, two opening braces of which a
    backslash hides the second from the loop, and crossed brackets. *)
Definition ex_escaped_closer : jsstring := [LBRACE; BACKSLASH; RBRACE].
Definition ex_escaped_opener : jsstring := [LBRACE; BACKSLASH; LBRACE; RBRACE].
Definition ex_crossed : jsstring := lit "{][}".

(** * Properties *)

(** ** The matcher *)

Lemma getCap_app_mono i d caps :
  getCap i caps <> None -> getCap i (d ++ caps) <> None.
Proof.
  induction d as [|[j v] d IH]; simpl; auto.
  intros H. destruct (Nat.eqb i j); [discriminate | auto].
Qed.

Section Engine.
Variable R : Type.

Lemma starLoop_inv a greedy :
  (forall s pos caps k x, rmatch a s pos caps k = Some x -> @matchInv R a s pos caps k x) ->
  forall n s pos caps k x,
    starLoop (fun s0 p0 c0 k0 => rmatch a s0 p0 c0 k0) greedy k n s pos caps = Some x ->
    @matchInv R (Star greedy a) s pos caps k x.
Proof.
  intros IHa n. induction n as [|n IHn]; intros s pos caps k x H.
  - simpl in H.
    assert (Hk : k s pos caps = Some x).
    { destruct greedy; [assumption|]. destruct (k s pos caps); [assumption | discriminate]. }
    exists [], s, caps. simpl. rewrite Nat.add_0_r.
    repeat split; auto. intros i [Hi|Hi]; [auto | discriminate]. discriminate.
  - simpl in H.
    assert (Hcases :
      k s pos caps = Some x \/
      rmatch a s pos caps
        (fun s1 p1 c1 => if Nat.eqb p1 pos then None
           else starLoop (fun s0 p0 c0 k0 => rmatch a s0 p0 c0 k0) greedy k n s1 p1 c1) = Some x).
    { destruct greedy.
      - destruct (rmatch a s pos caps _) eqn:E; [right; congruence | left; assumption].
      - destruct (k s pos caps) eqn:E; [left; congruence | right; assumption]. }
    destruct Hcases as [Hk | Hm].
    + exists [], s, caps. simpl. rewrite Nat.add_0_r.
      repeat split; auto. intros i [Hi|Hi]; [auto | discriminate]. discriminate.
    + apply IHa in Hm. destruct Hm as (u & s1 & c1 & Hs & Hk & Hc & _).
      destruct (Nat.eqb (pos + length u) pos); [discriminate|].
      apply IHn in Hk. destruct Hk as (u2 & s2 & c2 & Hs2 & Hk2 & Hc2 & _).
      exists (u ++ u2), s2, c2. rewrite length_app, Nat.add_assoc, Hs, Hs2, app_assoc.
      repeat split; auto.
      * intros i [Hi|Hi]; [|discriminate]. apply Hc2. left. apply Hc. left. exact Hi.
      * discriminate.
Qed.

Lemma rmatch_inv r : forall s pos caps k x,
  rmatch r s pos caps k = Some x -> @matchInv R r s pos caps k x.
Proof.
  induction r as [|p|a IHa b IHb|a IHa b IHb|g a IHa|j a IHa| |]; intros s pos caps k x H; simpl in H.
  - exists [], s, caps. simpl. rewrite Nat.add_0_r. repeat split; auto.
    intros i [Hi|Hi]; [auto|discriminate]. discriminate.
  - destruct s as [|c s']; [discriminate|]. destruct (p c); [|discriminate].
    exists [c], s', caps. simpl. replace (pos + 1) with (S pos) by lia.
    repeat split; auto. intros i [Hi|Hi]; [auto|discriminate]. discriminate.
  - apply IHa in H. destruct H as (u & s1 & c1 & Hs & Hk & Hc & Hn).
    apply IHb in Hk. destruct Hk as (u2 & s2 & c2 & Hs2 & Hk2 & Hc2 & Hn2).
    exists (u ++ u2), s2, c2. rewrite length_app, Nat.add_assoc, Hs, Hs2, app_assoc.
    repeat split; auto.
    + intros i [Hi|Hi].
      * apply Hc2. left. apply Hc. left. exact Hi.
      * simpl in Hi. apply orb_true_iff in Hi. destruct Hi as [Hi|Hi].
        -- apply Hc2. left. apply Hc. right. exact Hi.
        -- apply Hc2. right. exact Hi.
    + simpl. intros Hi. apply orb_true_iff in Hi. intros E. apply app_eq_nil in E.
      destruct E as [E1 E2]. destruct Hi as [Hi|Hi]; [apply (Hn Hi E1) | apply (Hn2 Hi E2)].
  - destruct (rmatch a s pos caps k) eqn:E.
    + inversion H; subst. apply IHa in E. destruct E as (u & s1 & c1 & Hs & Hk & Hc & Hn).
      exists u, s1, c1. repeat split; auto.
      * intros i [Hi|Hi]; [apply Hc; left; exact Hi|]. simpl in Hi.
        apply andb_true_iff in Hi. apply Hc. right. tauto.
      * simpl. intros Hi. apply andb_true_iff in Hi. tauto.
    + apply IHb in H. destruct H as (u & s1 & c1 & Hs & Hk & Hc & Hn).
      exists u, s1, c1. repeat split; auto.
      * intros i [Hi|Hi]; [apply Hc; left; exact Hi|]. simpl in Hi.
        apply andb_true_iff in Hi. apply Hc. right. tauto.
      * simpl. intros Hi. apply andb_true_iff in Hi. tauto.
  - eapply starLoop_inv; eauto.
  - apply IHa in H. destruct H as (u & s1 & c1 & Hs & Hk & Hc & Hn).
    eexists u, s1, _. repeat split; eauto.
    intros i [Hi|Hi]; simpl.
    + destruct (Nat.eqb i j); [discriminate|]. apply Hc. left. exact Hi.
    + simpl in Hi. destruct (Nat.eqb i j); [discriminate|]. apply Hc. right. exact Hi.
  - destruct (Nat.eqb pos 0); [|discriminate].
    exists [], s, caps. simpl. rewrite Nat.add_0_r. repeat split; auto.
    intros i [Hi|Hi]; [auto|discriminate]. discriminate.
  - destruct s; [|discriminate].
    exists [], [], caps. simpl. rewrite Nat.add_0_r. repeat split; auto.
    intros i [Hi|Hi]; [auto|discriminate]. discriminate.
Qed.
End Engine.

Lemma execHere_inv r s pos s1 p1 c1 :
  rmatch r s pos [] (fun s1 p1 c1 => Some (s1, p1, c1)) = Some (s1, p1, c1) ->
  s = firstn (p1 - pos) s ++ s1 /\
  goodMatch r (mkMatch pos (firstn (p1 - pos) s) c1).
Proof.
  intros E. apply rmatch_inv in E.
  destruct E as (u & s2 & c2 & Hs & Hk & Hc & Hn). inversion Hk; subst; clear Hk.
  replace (pos + length u - pos) with (length u) by lia.
  rewrite firstn_app, Nat.sub_diag, firstn_all. simpl. rewrite app_nil_r.
  split; [reflexivity|]. split; simpl; auto.
Qed.

Lemma execFrom_inv r : forall s pos gap m rest,
  execFrom r s pos = Some (gap, m, rest) ->
  s = gap ++ mText m ++ rest /\ mIndex m = pos + length gap /\ goodMatch r m.
Proof.
  induction s as [|c t IH]; intros pos gap m rest H; simpl in H.
  - destruct (rmatch r [] pos [] _) as [[[s1 p1] c1]|] eqn:E; [|discriminate].
    inversion H; subst; clear H. apply execHere_inv in E. destruct E as [E1 E2].
    simpl. repeat split; auto; apply E2.
  - destruct (rmatch r (c :: t) pos [] _) as [[[s1 p1] c1]|] eqn:E.
    + inversion H; subst; clear H. apply execHere_inv in E. destruct E as [E1 E2].
      simpl. repeat split; auto; apply E2.
    + destruct (execFrom r t (S pos)) as [[[g m'] rest']|] eqn:E2; [|discriminate].
      inversion H; subst; clear H. apply IH in E2. destruct E2 as (Hs & Hi & Hg).
      repeat split; try apply Hg. simpl. now rewrite <- Hs. simpl. lia.
Qed.

Lemma segments_inv r : forall fuel s pos,
  Forall (fun gm => goodMatch r (snd gm)) (fst (segments fuel r s pos)).
Proof.
  induction fuel as [|fuel IH]; intros s pos; simpl; [constructor|].
  destruct (execFrom r s pos) as [[[gap m] rest]|] eqn:E; [|constructor].
  apply execFrom_inv in E. destruct E as (_ & _ & Hg).
  destruct (mText m) as [|c0 t0] eqn:Em.
  - destruct rest as [|c rest'].
    + simpl. constructor; [exact Hg | constructor].
    + specialize (IH rest' (S (mIndex m))).
      destruct (segments fuel r rest' (S (mIndex m))) as [ms tl].
      simpl in IH. destruct ms as [|[g m'] ms']; simpl.
      * constructor; [exact Hg | constructor].
      * inversion IH; subst. constructor; [exact Hg|]. constructor; assumption.
  - specialize (IH rest (mIndex m + length (c0 :: t0))).
    destruct (segments fuel r rest _) as [ms tl]. simpl in *.
    constructor; assumption.
Qed.

Lemma matchAll_good r s :
  exists l, matchAll true r s = Ok l /\ Forall (goodMatch r) l.
Proof.
  unfold matchAll. eexists. split; [reflexivity|].
  pose proof (segments_inv r (S (length s)) s 0) as H.
  induction (fst (segments (S (length s)) r s 0)) as [|x l IH]; simpl; [constructor|].
  inversion H; subst. constructor; auto.
Qed.

Lemma matchFirst_good r s m :
  matchFirst r s = Some m -> goodMatch r m.
Proof.
  unfold matchFirst. destruct (execFrom r s 0) as [[[g m'] rest]|] eqn:E; [|discriminate].
  intros H; inversion H; subst. apply execFrom_inv in E. tauto.
Qed.

Lemma goodMatch_group r m :
  goodMatch r m -> definesGroup 1 r = true -> exists v, group m 1 = Some v.
Proof.
  intros [H _] Hd. specialize (H 1 Hd). simpl.
  destruct (getCap 1 (mCaps m)); [eauto | contradiction].
Qed.

Lemma forEach_total {A S} (P : A -> Prop) (l : list A) (body : S -> A -> result S) :
  Forall P l ->
  (forall st x, P x -> exists st', body st x = Ok st') ->
  forall st, exists st', forEach l st body = Ok st'.
Proof.
  intros Hl Hb. induction Hl as [|x l Hx Hl IH]; intros st; simpl; [eauto|].
  destruct (Hb st x Hx) as [st' E]. rewrite E. simpl. apply IH.
Qed.

Lemma assemble_total f l tl :
  Forall (fun gm => exists x, f (snd gm) = Ok x) l ->
  exists y, assemble f l tl = Ok y.
Proof.
  induction 1 as [|[g m] l [x Hx] Hl [y IH]]; simpl; [eauto|].
  simpl in Hx. rewrite Hx, IH. simpl. eauto.
Qed.

Lemma replaceAll_total r f s :
  (forall m, goodMatch r m -> exists x, f m = Ok x) ->
  exists y, replaceAll r f s = Ok y.
Proof.
  intros Hf. unfold replaceAll.
  pose proof (segments_inv r (S (length s)) s 0) as H.
  destruct (segments (S (length s)) r s 0) as [ms tl]. simpl in H.
  apply assemble_total. eapply Forall_impl; [|exact H].
  intros [g m] Hg. apply Hf. exact Hg.
Qed.

Lemma escapeContent_total content :
  exists y, replaceAll escapablePattern escapeReplacer content = Ok y.
Proof.
  apply replaceAll_total. intros m [_ Hm]. unfold escapeReplacer.
  destruct (mText m); [exfalso; apply Hm; reflexivity | eauto].
Qed.

Lemma repairBackticks_total cleaned :
  exists y, repairBackticks cleaned = Ok y.
Proof.
  apply replaceAll_total. intros m Hg. unfold backtickReplacer.
  destruct (goodMatch_group Hg eq_refl) as [v Hv]. rewrite Hv. simpl.
  destruct (escapeContent_total v) as [y Hy]. rewrite Hy. simpl. eauto.
Qed.

(** ** The scanning loop and its declarative reading *)

Ltac split_eqb :=
  repeat match goal with
         | |- context [N.eqb ?a ?b] => destruct (N.eqb_spec a b); subst
         | H : context [N.eqb ?a ?b] |- _ => destruct (N.eqb_spec a b); subst
         end.

Lemma scanStep_lex st c : lexOf (fst (scanStep st c)) = lexStep (lexOf st) c.
Proof.
  destruct st as [b k ins esc]. unfold scanStep, lexOf, lexStep; simpl.
  destruct esc; simpl; [reflexivity|].
  destruct (N.eqb c BACKSLASH); simpl; [reflexivity|].
  destruct (N.eqb c DQUOTE); simpl; [reflexivity|].
  destruct ins; simpl; [reflexivity|].
  unfold LBRACE, RBRACE, LBRACKET, RBRACKET. split_eqb; reflexivity.
Qed.

Lemma scanStep_braces st c :
  openBraces (fst (scanStep st c))
  = (openBraces st + delta LBRACE RBRACE (lexOf st) c)%Z.
Proof.
  destruct st as [b k ins esc]. unfold scanStep, lexOf, delta, structural; simpl.
  destruct esc; simpl; [destruct ins; lia|].
  unfold BACKSLASH, DQUOTE, LBRACE, RBRACE, LBRACKET, RBRACKET.
  destruct ins; split_eqb; simpl; try discriminate; try lia.
Qed.

Lemma scanStep_brackets st c :
  openBrackets (fst (scanStep st c))
  = (openBrackets st + delta LBRACKET RBRACKET (lexOf st) c)%Z.
Proof.
  destruct st as [b k ins esc]. unfold scanStep, lexOf, delta, structural; simpl.
  destruct esc; simpl; [destruct ins; lia|].
  unfold BACKSLASH, DQUOTE, LBRACE, RBRACE, LBRACKET, RBRACKET.
  destruct ins; split_eqb; simpl; try discriminate; try lia.
Qed.

Lemma scanStep_stop st c :
  snd (scanStep st c)
  = (structural (lexOf st) c && isCloser c
     && (openBraces (fst (scanStep st c)) =? 0)%Z
     && (openBrackets (fst (scanStep st c)) =? 0)%Z)%bool.
Proof.
  destruct st as [b k ins esc]. unfold scanStep, lexOf, structural, isCloser; simpl.
  destruct esc; simpl; [destruct ins; reflexivity|].
  unfold BACKSLASH, DQUOTE, LBRACE, RBRACE, LBRACKET, RBRACKET.
  destruct ins; split_eqb; simpl; try discriminate; try reflexivity;
    rewrite ?andb_false_r, ?andb_true_r; try reflexivity;
    destruct (Z.eqb _ 0), (Z.eqb _ 0); reflexivity.
Qed.

Lemma netDepth_app o c q p x :
  netDepth o c q (p ++ [x])
  = (netDepth o c q p + delta o c (lexRun q p) x)%Z.
Proof.
  revert q. induction p as [|y p IH]; intros q; simpl.
  - unfold delta. lia.
  - rewrite IH. unfold lexRun. simpl. lia.
Qed.

Lemma runScan_snoc st p x :
  runScan st (p ++ [x]) = fst (scanStep (runScan st p) x).
Proof. unfold runScan. now rewrite fold_left_app. Qed.

Lemma lexRun_snoc q p x : lexRun q (p ++ [x]) = lexStep (lexRun q p) x.
Proof. unfold lexRun. now rewrite fold_left_app. Qed.

Lemma runScan_spec st p :
  lexOf (runScan st p) = lexRun (lexOf st) p /\
  openBraces (runScan st p)
  = (openBraces st + netDepth LBRACE RBRACE (lexOf st) p)%Z /\
  openBrackets (runScan st p)
  = (openBrackets st + netDepth LBRACKET RBRACKET (lexOf st) p)%Z.
Proof.
  induction p as [|x p IH] using rev_ind.
  - simpl. repeat split; lia.
  - destruct IH as (Hl & Hb & Hk).
    rewrite runScan_snoc, lexRun_snoc, !netDepth_app, scanStep_lex,
      scanStep_braces, scanStep_brackets, Hl, Hb, Hk.
    repeat split; lia.
Qed.

Lemma stop_balancedAt before c :
  snd (scanStep (runScan scanInit before) c) = balancedAt before c.
Proof.
  rewrite scanStep_stop, scanStep_braces, scanStep_brackets.
  destruct (runScan_spec scanInit before) as (Hl & Hb & Hk).
  rewrite Hl, Hb, Hk. unfold balancedAt. rewrite !netDepth_app. simpl.
  reflexivity.
Qed.

(** The loop leaves [-1] exactly when no iteration ends with [break]. *)
Lemma scanLoop_none s : forall st i, (0 <= i)%Z ->
  (scanLoop st i s = (-1)%Z <->
   forall before c after, s = before ++ c :: after ->
     snd (scanStep (runScan st before) c) = false).
Proof.
  induction s as [|x t IH]; intros st i Hi; simpl.
  - split; [|reflexivity]. intros _ [|? ?] ? ? H; discriminate.
  - destruct (scanStep st x) as [st' stop] eqn:E. destruct stop.
    + split; [lia|]. intros H. specialize (H [] x t eq_refl). simpl in H.
      rewrite E in H. discriminate.
    + rewrite (IH st' (i + 1)%Z) by lia. split; intros H before c after Hs.
      * destruct before as [|y before]; simpl in Hs; inversion Hs; subst.
        -- simpl. now rewrite E.
        -- unfold runScan. simpl. rewrite E. simpl. eapply H. reflexivity.
      * specialize (H (x :: before) c after). unfold runScan in H. simpl in H.
        rewrite E in H. simpl in H. apply H. now subst.
Qed.

(** Otherwise it leaves the index of the first such iteration. *)
Lemma scanLoop_some s : forall st i, (0 <= i)%Z ->
  scanLoop st i s <> (-1)%Z ->
  exists before c after,
    s = before ++ c :: after /\
    scanLoop st i s = (i + len before)%Z /\
    snd (scanStep (runScan st before) c) = true /\
    forall b1 c1 a1, s = b1 ++ c1 :: a1 -> length b1 < length before ->
      snd (scanStep (runScan st b1) c1) = false.
Proof.
  induction s as [|x t IH]; intros st i Hi H; simpl in *; [congruence|].
  destruct (scanStep st x) as [st' stop] eqn:E. destruct stop.
  - exists [], x, t. simpl. rewrite E. unfold len. simpl.
    repeat split; auto; intros; lia.
  - destruct (IH st' (i + 1)%Z ltac:(lia) H) as (b & c & a & Hs & He & Hstop & Hmin).
    exists (x :: b), c, a. subst t. unfold runScan in *. simpl. rewrite E. simpl.
    repeat split; auto.
    + rewrite He. unfold len. simpl length. lia.
    + intros b1 c1 a1 Hs1 Hlt. destruct b1 as [|y b1]; simpl in Hs1; inversion Hs1; subst.
      * simpl. now rewrite E.
      * simpl. rewrite E. simpl. eapply Hmin; eauto. simpl in Hlt. lia.
Qed.

(** ** Substrings and the JSON start *)

Lemma substring_middle a b c :
  substring (a ++ b ++ c) (len a) (len a + len b) = b.
Proof.
  unfold substring, clampIndex, len. rewrite !length_app.
  replace (Z.max 0 (Z.min (Z.of_nat (length a)) _)) with (Z.of_nat (length a)) by lia.
  replace (Z.max 0 (Z.min (Z.of_nat (length a) + Z.of_nat (length b)) _))
    with (Z.of_nat (length a + length b)) by lia.
  rewrite Z.min_l, Z.max_r by lia.
  replace (Z.of_nat (length a + length b) - Z.of_nat (length a))%Z
    with (Z.of_nat (length b)) by lia.
  rewrite !Nat2Z.id, skipn_app, skipn_all, Nat.sub_diag. simpl.
  now rewrite firstn_app, firstn_all, Nat.sub_diag, app_nil_r.
Qed.

Lemma substringFrom_app a b : substringFrom (a ++ b) (len a) = b.
Proof.
  unfold substringFrom.
  replace (len (a ++ b)) with (len a + len b)%Z
    by (unfold len; rewrite length_app; lia).
  rewrite <- (app_nil_r b) at 1. rewrite substring_middle. reflexivity.
Qed.

Lemma substring_all s : substring s 0 (len s) = s.
Proof.
  pose proof (substring_middle [] s []) as H. simpl in H.
  rewrite app_nil_r in H. exact H.
Qed.

Lemma indexOfFrom_cons c t x i :
  indexOfFrom (c :: t) [x] i = if N.eqb c x then i else indexOfFrom t [x] (i + 1).
Proof. simpl. rewrite andb_true_r. reflexivity. Qed.

Lemma indexOfFrom_range s x : forall i,
  indexOfFrom s [x] i = (-1)%Z \/ (i <= indexOfFrom s [x] i)%Z.
Proof.
  induction s as [|c t IH]; intros i; [left; reflexivity|].
  rewrite indexOfFrom_cons. destruct (N.eqb c x); [right; lia|].
  destruct (IH (i + 1)%Z); [left; assumption | right; lia].
Qed.

Lemma indexOfFrom_absent s x : forall i, (0 <= i)%Z ->
  indexOfFrom s [x] i = (-1)%Z -> ~ In x s.
Proof.
  induction s as [|c t IH]; intros i Hi H; [intros []|].
  rewrite indexOfFrom_cons in H. destruct (N.eqb_spec c x); [lia|].
  intros [E|E]; [contradiction|]. eapply IH; [|exact H|exact E]. lia.
Qed.

Lemma indexOfFrom_present s x : forall i,
  ~ In x s -> indexOfFrom s [x] i = (-1)%Z.
Proof.
  induction s as [|c t IH]; intros i H; [reflexivity|].
  rewrite indexOfFrom_cons. destruct (N.eqb_spec c x).
  - exfalso. apply H. left. assumption.
  - apply IH. intros E. apply H. right. exact E.
Qed.

Lemma jsonStartFrom_spec s : forall i, (0 <= i)%Z ->
  exists pre, s = pre ++ fromStartToken s /\
    ~ In LBRACE pre /\ ~ In LBRACKET pre /\
    jsonStartFrom s i
    = match fromStartToken s with [] => (-1)%Z | _ :: _ => (i + len pre)%Z end.
Proof.
  induction s as [|c t IH]; intros i Hi.
  - exists []. repeat split; auto.
  - unfold jsonStartFrom. rewrite !indexOfFrom_cons. simpl fromStartToken.
    destruct (N.eqb_spec c LBRACE) as [E1|E1].
    + subst c. simpl. exists []. unfold len. simpl. repeat split; auto.
      replace (i =? -1)%Z with false by lia. simpl.
      destruct (indexOfFrom_range t LBRACKET (i + 1)) as [H|H].
      * rewrite H. simpl. f_equal. lia.
      * replace (i <? _)%Z with true by lia. rewrite orb_true_r. lia.
    + destruct (N.eqb_spec c LBRACKET) as [E2|E2].
      * subst c. simpl. exists []. unfold len. simpl. repeat split; auto.
        replace (i =? -1)%Z with false by lia. simpl.
        destruct (indexOfFrom_range t LBRACE (i + 1)) as [H|H].
        -- rewrite H. simpl. lia.
        -- replace (_ <? i)%Z with false by lia. rewrite andb_false_r. lia.
      * simpl. destruct (IH (i + 1)%Z ltac:(lia)) as (pre & Hs & H1 & H2 & Hj).
        exists (c :: pre). unfold jsonStartFrom in Hj. rewrite Hj.
        repeat split.
        -- simpl. now rewrite <- Hs.
        -- intros [E|E]; [congruence | contradiction].
        -- intros [E|E]; [congruence | contradiction].
        -- destruct (fromStartToken t); [reflexivity|]. unfold len. simpl length. lia.
Qed.

Lemma fromStartToken_nil s :
  fromStartToken s = [] <-> noStartToken s.
Proof.
  unfold noStartToken. induction s as [|c t IH]; simpl.
  - tauto.
  - destruct (N.eqb_spec c LBRACE) as [E1|E1]; simpl.
    + split; [discriminate|]. intros [H _]. exfalso. apply H. left. congruence.
    + destruct (N.eqb_spec c LBRACKET) as [E2|E2]; simpl.
      * split; [discriminate|]. intros [_ H]. exfalso. apply H. left. congruence.
      * rewrite IH. split.
        -- intros [H1 H2]. split; intros [E|E]; auto.
        -- intros [H1 H2]. split; intros E; [apply H1 | apply H2]; right; exact E.
Qed.

(** [locateJson] in terms of the declarative reading. *)
Lemma locateJson_spec cleaned :
  (noStartToken cleaned /\ locateJson cleaned = Throw noJsonFound) \/
  (~ noStartToken cleaned /\ neverBalances (fromStartToken cleaned) /\
   locateJson cleaned = Throw incompleteJson) \/
  (exists pre before c after,
     cleaned = pre ++ before ++ c :: after /\
     fromStartToken cleaned = before ++ c :: after /\
     balancedAt before c = true /\
     (forall b1 c1 a1, before ++ c :: after = b1 ++ c1 :: a1 ->
        length b1 < length before -> balancedAt b1 c1 = false) /\
     locateJson cleaned = Ok (before ++ [c])).
Proof.
  unfold locateJson.
  destruct (jsonStartFrom_spec cleaned (i := 0) ltac:(lia)) as (pre & Hs & _ & _ & Hj).
  change (jsonStartFrom cleaned 0) with (jsonStart cleaned) in Hj.
  rewrite Z.add_0_l in Hj.
  destruct (fromStartToken cleaned) as [|x t] eqn:Ef; rewrite Hj.
  - left. split; [now apply fromStartToken_nil | reflexivity].
  - right. assert (Hne : ~ noStartToken cleaned).
    { intros H. apply fromStartToken_nil in H. congruence. }
    assert (Hpos : (0 <= len pre)%Z) by (unfold len; lia).
    destruct (Z.eqb_spec (len pre) (-1)) as [Hneg|_]; [lia|].
    clear Hj Ef. subst cleaned. rewrite substringFrom_app.
    destruct (Z.eqb_spec (scanLoop scanInit (len pre) (x :: t)) (-1)) as [E|E].
    + left. repeat split; auto. intros before c after Hsplit.
      rewrite <- stop_balancedAt.
      apply (proj1 (scanLoop_none (x :: t) scanInit Hpos) E _ _ _ Hsplit).
    + right.
      destruct (scanLoop_some (x :: t) scanInit Hpos E)
        as (before & c & after & Hsplit & He & Hstop & Hmin).
      exists pre, before, c, after. rewrite He, Hsplit. repeat split.
      * now rewrite <- stop_balancedAt.
      * intros b1 c1 a1 H1 H2. rewrite <- stop_balancedAt.
        apply (Hmin b1 c1 a1); [congruence | exact H2].
      * f_equal.
        replace (before ++ c :: after) with ((before ++ [c]) ++ after)
          by (rewrite <- app_assoc; reflexivity).
        replace (len pre + len before + 1)%Z with (len pre + len (before ++ [c]))%Z
          by (unfold len; rewrite length_app; simpl; lia).
        apply substring_middle.
Qed.

(** ** C1: the two failure conditions of [extractJsonFromResponse] *)

(** C1, as amended.  For every response the repair of the fence-stripped
    text succeeds with some text [cleaned], and [extractJsonFromResponse]
    throws if and only if [cleaned] has neither a brace nor a bracket (the
    error is then "No JSON object or array found"), or the scan from the
    first brace or bracket reaches the end of the text before the nesting
    balances as the loop counts it (the error is then "Incomplete JSON
    object or array"): braces and brackets are counted apart, both counts
    must be zero at a closing brace or bracket read outside a string
    literal, and a backslash makes the loop pass over the next code unit
    outside a string literal as well as inside one.  In every other case
    the result is the part of [cleaned] from the first start token up to and
    including the first code unit at which the nesting balances in that
    sense.  The two examples of the specification throw. *)
Theorem C1_extractJson_fails_exactly :
  (forall raw, exists cleaned,
     repairBackticks (stripFences raw) = Ok cleaned /\
     (noStartToken cleaned ->
      extractJsonFromResponse raw = Throw noJsonFound) /\
     (~ noStartToken cleaned -> neverBalances (fromStartToken cleaned) ->
      extractJsonFromResponse raw = Throw incompleteJson) /\
     ((exists e, extractJsonFromResponse raw = Throw e) <->
      noStartToken cleaned \/ neverBalances (fromStartToken cleaned)) /\
     (forall r, extractJsonFromResponse raw = Ok r ->
        exists pre before c after,
          cleaned = pre ++ before ++ c :: after /\
          r = before ++ [c] /\
          fromStartToken cleaned = before ++ c :: after /\
          balancedAt before c = true /\
          (forall b1 c1 a1, before ++ c :: after = b1 ++ c1 :: a1 ->
             length b1 < length before -> balancedAt b1 c1 = false))) /\
  extractJsonFromResponse ex_prose = Throw noJsonFound /\
  extractJsonFromResponse ex_truncated = Throw incompleteJson.
Proof.
  split; [|split; vm_compute; reflexivity].
  intros raw. destruct (repairBackticks_total (stripFences raw)) as [cleaned Hc].
  exists cleaned. split; [exact Hc|].
  unfold extractJsonFromResponse. rewrite Hc. simpl.
  destruct (locateJson_spec cleaned)
    as [[Hn He] | [(Hn & Hb & He) | (pre & before & c & after & Hs & Hf & Hb & Hmin & He)]];
    rewrite He.
  - split; [auto|]. split; [intros H; contradiction|].
    split; [split; eauto|]. intros r H; discriminate.
  - split; [intros H; contradiction|]. split; [auto|].
    split; [split; eauto|]. intros r H; discriminate.
  - assert (Hne : ~ noStartToken cleaned).
    { intros H. apply fromStartToken_nil in H. rewrite H in Hf.
      destruct before; discriminate. }
    assert (Hnb : ~ neverBalances (fromStartToken cleaned)).
    { intros H. rewrite (H before c after Hf) in Hb. discriminate. }
    split; [intros H; contradiction|]. split; [intros _ H; contradiction|].
    split; [split; [intros [e H]; discriminate | intros [H|H]; contradiction]|].
    intros r H. inversion H; subst r. exists pre, before, c, after. auto.
Qed.

(** The claim C1 as stated fails, with the scan read as the specification
    words it (one counter for braces and brackets, a backslash escaping only
    inside a string literal).  A brace closed by a bracket, and a brace
    closed after a backslash, have a start token and balance in that
    reading, and yet the code throws.  A backslash before a second opening
    brace makes the code return a text with two opening braces and one
    closing brace, on which the scan of the specification never balances.
    And crossed brackets are returned whole, where the scan of the
    specification ends at the first closing bracket. *)
Lemma C1_counterexample :
  (repairBackticks (stripFences ex_mismatched) = Ok ex_mismatched /\
   In LBRACE ex_mismatched /\
   specScanLoop specScanInit 0 ex_mismatched = 1%Z /\
   extractJsonFromResponse ex_mismatched = Throw incompleteJson) /\
  (repairBackticks (stripFences ex_escaped_closer) = Ok ex_escaped_closer /\
   In LBRACE ex_escaped_closer /\
   specScanLoop specScanInit 0 ex_escaped_closer = 2%Z /\
   extractJsonFromResponse ex_escaped_closer = Throw incompleteJson) /\
  (extractJsonFromResponse ex_escaped_opener = Ok ex_escaped_opener /\
   specScanLoop specScanInit 0 ex_escaped_opener = (-1)%Z /\
   count_occ N.eq_dec ex_escaped_opener LBRACE = 2 /\
   count_occ N.eq_dec ex_escaped_opener RBRACE = 1 /\
   ~ In DQUOTE ex_escaped_opener) /\
  (extractJsonFromResponse ex_crossed = Ok ex_crossed /\
   specScanLoop specScanInit 0 ex_crossed = 1%Z).
Proof.
  split; [|split; [|split]].
  - split; [vm_compute; reflexivity|]. split; [now left|].
    split; vm_compute; reflexivity.
  - split; [vm_compute; reflexivity|]. split; [now left|].
    split; vm_compute; reflexivity.
  - split; [vm_compute; reflexivity|]. split; [vm_compute; reflexivity|].
    split; [vm_compute; reflexivity|]. split; [vm_compute; reflexivity|].
    intros H. vm_compute in H. repeat (destruct H as [H|H]; [discriminate|]). exact H.
  - split; vm_compute; reflexivity.
Qed.

(** ** C4: string literals in the balanced scan *)

Lemma extractJson_locate raw :
  exists cleaned,
    repairBackticks (stripFences raw) = Ok cleaned /\
    extractJsonFromResponse raw = locateJson cleaned.
Proof.
  destruct (repairBackticks_total (stripFences raw)) as [cleaned Hc].
  exists cleaned. split; [exact Hc|].
  unfold extractJsonFromResponse. now rewrite Hc.
Qed.




(** ** Scanning a valid JSON text *)

Lemma eqs_eq a : forall b, eqs a b = true -> a = b.
Proof.
  induction a as [|x a IH]; intros [|y b] H; simpl in H; try discriminate; auto.
  apply andb_true_iff in H. destruct H as [E H]. apply N.eqb_eq in E.
  f_equal; auto.
Qed.

Lemma eqs_refl a : eqs a a = true.
Proof. induction a; simpl; auto. now rewrite N.eqb_refl. Qed.

Lemma render_array w es :
  render (JArray w es)
  = [LBRACKET] ++ (w ++ joinWith [44%N] (map renderElement es))
    ++ [closerOf LBRACKET].
Proof. cbn [render]. now rewrite <- !app_assoc. Qed.

Lemma render_object w ms :
  render (JObject w ms)
  = [LBRACE] ++ (w ++ joinWith [44%N] (map renderMember ms))
    ++ [closerOf LBRACE].
Proof. cbn [render]. now rewrite <- !app_assoc. Qed.

(** A scanning loop with [break], and what the proof about JSON texts needs
    of its step: [good] states are outside strings with something open;
    [enter], [escaped] and [push] are the states inside a string, after a
    backslash in a string, and one level deeper. *)
Section Scanner.
Variable St : Type.
Variable step : St -> N -> St * bool.
Variable loop : St -> Z -> jsstring -> Z.
Variable good : St -> Prop.
Variable enter escaped : St -> St.
Variable push : N -> St -> St.
Variable st0 : St.

Hypothesis loop_nil : forall st i, loop st i [] = (-1)%Z.
Hypothesis loop_cons : forall st i c t,
  loop st i (c :: t)
  = let (st', stop) := step st c in if stop then i else loop st' (i + 1)%Z t.
Hypothesis step_plain : forall st c,
  good st -> plainChar c = true -> step st c = (st, false).
Hypothesis step_quote : forall st,
  good st -> step st DQUOTE = (enter st, false).
Hypothesis step_in_ordinary : forall st c,
  good st -> ordinary c = true -> step (enter st) c = (enter st, false).
Hypothesis step_in_backslash : forall st,
  good st -> step (enter st) BACKSLASH = (escaped st, false).
Hypothesis step_escaped : forall st c,
  good st -> step (escaped st) c = (enter st, false).
Hypothesis step_in_quote : forall st,
  good st -> step (enter st) DQUOTE = (st, false).
Hypothesis step_open : forall st o,
  good st -> isOpener o = true ->
  step st o = (push o st, false) /\ good (push o st) /\
  step (push o st) (closerOf o) = (st, false).
Hypothesis step_top : forall o,
  isOpener o = true ->
  step st0 o = (push o st0, false) /\ good (push o st0) /\
  snd (step (push o st0) (closerOf o)) = true.

Lemma len_app a b : len (a ++ b) = (len a + len b)%Z.
Proof. unfold len. rewrite length_app. lia. Qed.

Lemma len_cons c a : len (c :: a) = (1 + len a)%Z.
Proof. unfold len. simpl length. lia. Qed.

Local Abbreviation Skips := (SkipsWith loop good).

Ltac len_arith :=
  f_equal; repeat (rewrite len_app || rewrite len_cons);
  unfold len; simpl length; lia.

Lemma Skips_nil : Skips [].
Proof. intros st i rest _. simpl. unfold len. simpl. now rewrite Z.add_0_r. Qed.

Lemma Skips_app a b : Skips a -> Skips b -> Skips (a ++ b).
Proof.
  intros Ha Hb st i rest Hg. rewrite <- app_assoc, Ha, Hb by assumption.
  len_arith.
Qed.

Lemma Skips_plain l : forallb plainChar l = true -> Skips l.
Proof.
  induction l as [|c l IH]; intros H; [apply Skips_nil|].
  simpl in H. apply andb_true_iff in H. destruct H as [Hc Hl].
  intros st i rest Hg. cbn [app]. rewrite loop_cons, step_plain by assumption.
  rewrite (IH Hl) by assumption. len_arith.
Qed.

(** Inside a string: through the items of a literal, back to [enter st]. *)
Lemma loop_items s : forallb wfItem s = true ->
  forall st i rest, good st ->
    loop (enter st) i (flat_map renderItem s ++ rest)
    = loop (enter st) (i + len (flat_map renderItem s))%Z rest.
Proof.
  induction s as [|it s IH]; intros H st i rest Hg.
  - simpl. unfold len. simpl. now rewrite Z.add_0_r.
  - simpl in H. apply andb_true_iff in H. destruct H as [Hi Hs].
    simpl flat_map. rewrite <- app_assoc, len_app.
    assert (Hord : forall c, isHex c = true -> ordinary c = true).
    { intros c Hc. unfold isHex, isDigit, inRange in Hc. unfold ordinary, DQUOTE, BACKSLASH.
      destruct (N.eqb_spec c 34); [subst; discriminate|].
      destruct (N.eqb_spec c 92); [subst; discriminate|]. reflexivity. }
    destruct it as [c|c|h1 h2 h3 h4]; simpl in Hi; cbn [renderItem app].
    + assert (Hc : ordinary c = true).
      { unfold ordinary. apply andb_true_iff in Hi. destruct Hi as [Hi H2].
        apply andb_true_iff in Hi. destruct Hi as [_ H1]. now rewrite H1, H2. }
      rewrite loop_cons, step_in_ordinary, IH by assumption.
      len_arith.
    + rewrite loop_cons, step_in_backslash, loop_cons, step_escaped, IH by assumption.
      len_arith.
    + repeat (apply andb_true_iff in Hi; destruct Hi as [Hi ?]).
      rewrite loop_cons, step_in_backslash, loop_cons, step_escaped by assumption.
      do 4 (rewrite loop_cons, step_in_ordinary by auto).
      rewrite IH by assumption. len_arith.
Qed.

Lemma Skips_string s : forallb wfItem s = true -> Skips (renderString s).
Proof.
  intros H st i rest Hg. unfold renderString. cbn [app].
  rewrite loop_cons, step_quote by assumption.
  rewrite <- app_assoc, loop_items by assumption. cbn [app].
  rewrite loop_cons, step_in_quote by assumption.
  len_arith.
Qed.

Lemma Skips_join sep l :
  Skips sep -> Forall Skips l -> Skips (joinWith sep l).
Proof.
  intros Hsep Hl. induction Hl as [|x l Hx Hl IH]; [apply Skips_nil|].
  simpl. destruct l as [|y l]; [exact Hx|].
  apply Skips_app; [exact Hx|]. apply Skips_app; assumption.
Qed.

Lemma Skips_container o body :
  isOpener o = true -> Skips body -> Skips ([o] ++ body ++ [closerOf o]).
Proof.
  intros Ho Hb st i rest Hg. destruct (@step_open st o Hg Ho) as (H1 & H2 & H3).
  cbn [app]. rewrite loop_cons, H1. rewrite <- app_assoc, Hb by assumption.
  cbn [app]. rewrite loop_cons, H3. len_arith.
Qed.

Lemma allWs_plain w : allWs w = true -> forallb plainChar w = true.
Proof.
  unfold allWs. rewrite !forallb_forall. intros H c Hc. specialize (H c Hc).
  unfold isJsonWs in H. unfold plainChar. simpl.
  unfold DQUOTE, BACKSLASH, LBRACE, RBRACE, LBRACKET, RBRACKET.
  repeat match goal with
         | H : context [N.eqb ?a ?b] |- _ => destruct (N.eqb_spec a b); subst
         end; try discriminate; reflexivity.
Qed.

Lemma digits_plain d : forallb isDigit d = true -> forallb plainChar d = true.
Proof.
  rewrite !forallb_forall. intros H c Hc. specialize (H c Hc).
  unfold isDigit, inRange in H. unfold plainChar. simpl.
  unfold DQUOTE, BACKSLASH, LBRACE, RBRACE, LBRACKET, RBRACKET.
  repeat match goal with
         | |- context [N.eqb ?a ?b] => destruct (N.eqb_spec a b); subst
         end; try discriminate; reflexivity.
Qed.

Lemma Skips_number n : wfNumber n = true -> Skips (renderNumber n).
Proof.
  intros H. apply Skips_plain. unfold wfNumber in H.
  apply andb_true_iff in H. destruct H as [H Hexp].
  apply andb_true_iff in H. destruct H as [H Hfrac].
  apply andb_true_iff in H. destruct H as [Hint _].
  unfold nonEmptyDigits in *. apply andb_true_iff in Hint. destruct Hint as [Hint _].
  unfold renderNumber. rewrite !forallb_app.
  apply andb_true_iff; split; [|apply andb_true_iff; split; [|apply andb_true_iff; split]].
  - destruct (negative n); reflexivity.
  - apply digits_plain. exact Hint.
  - destruct (fracDigits n) as [d|]; [|reflexivity].
    apply andb_true_iff in Hfrac. destruct Hfrac as [Hfrac _].
    simpl. apply digits_plain. exact Hfrac.
  - destruct (expPart n) as [[[e sg] d]|]; [|reflexivity].
    apply andb_true_iff in Hexp. destruct Hexp as [Hexp Hd].
    apply andb_true_iff in Hexp. destruct Hexp as [He Hsg].
    apply andb_true_iff in Hd. destruct Hd as [Hd _].
    change (e :: sg ++ d) with ([e] ++ sg ++ d). rewrite !forallb_app.
    apply andb_true_iff; split; [|apply andb_true_iff; split].
    + apply orb_true_iff in He. destruct He as [E|E]; apply N.eqb_eq in E; subst; reflexivity.
    + apply orb_true_iff in Hsg. destruct Hsg as [Hsg|Hsg];
        [apply orb_true_iff in Hsg; destruct Hsg as [Hsg|Hsg]|];
        apply eqs_eq in Hsg; subst; reflexivity.
    + apply digits_plain. exact Hd.
Qed.

(** The loop runs through every well-formed value. *)
Lemma Skips_value v : wfValue v = true -> Skips (render v).
Proof.
  induction v as [| | |n|s|w es IH|w ms IH] using jvalue_nested_ind; intros H.
  - apply Skips_plain. reflexivity.
  - apply Skips_plain. reflexivity.
  - apply Skips_plain. reflexivity.
  - apply Skips_number. exact H.
  - apply Skips_string. exact H.
  - simpl in H. apply andb_true_iff in H. destruct H as [Hw Hes].
    rewrite render_array.
    apply Skips_container; [reflexivity|].
    apply Skips_app; [apply Skips_plain, allWs_plain; assumption|].
    apply Skips_join; [apply Skips_plain; reflexivity|].
    rewrite Forall_map. rewrite forallb_forall in Hes. rewrite Forall_forall in IH |- *.
    intros [[w1 x] w2] Hin. specialize (Hes _ Hin). specialize (IH _ Hin). simpl in IH.
    repeat (apply andb_true_iff in Hes; destruct Hes as [Hes ?]).
    apply Skips_app; [apply Skips_plain, allWs_plain; assumption|].
    apply Skips_app; [auto | apply Skips_plain, allWs_plain; assumption].
  - simpl in H. apply andb_true_iff in H. destruct H as [Hw Hms].
    rewrite render_object.
    apply Skips_container; [reflexivity|].
    apply Skips_app; [apply Skips_plain, allWs_plain; assumption|].
    apply Skips_join; [apply Skips_plain; reflexivity|].
    rewrite Forall_map. rewrite forallb_forall in Hms. rewrite Forall_forall in IH |- *.
    intros [[h x] w2] Hin. specialize (Hms _ Hin). specialize (IH _ Hin). simpl in IH.
    repeat (apply andb_true_iff in Hms; destruct Hms as [Hms ?]).
    unfold wfHead in Hms. repeat (apply andb_true_iff in Hms; destruct Hms as [Hms ?]).
    apply Skips_app.
    { unfold renderHead.
      apply Skips_app; [apply Skips_plain, allWs_plain; assumption|].
      apply Skips_app; [apply Skips_string; assumption|].
      apply Skips_app; [apply Skips_plain, allWs_plain; assumption|].
      apply (Skips_app (a := [COLON])); [apply Skips_plain; reflexivity|].
      apply Skips_plain, allWs_plain; assumption. }
    apply Skips_app; [auto | apply Skips_plain, allWs_plain; assumption].
Qed.

(** A container is a bracketed body that the loop runs through. *)
Lemma container_body v :
  wfValue v = true -> isContainer v = true ->
  exists o body,
    isOpener o = true /\ Skips body /\ render v = [o] ++ body ++ [closerOf o].
Proof.
  intros Hwf Hc. destruct v as [| | |n|s|w es|w ms]; try discriminate.
  - exists LBRACKET, (w ++ joinWith [44%N] (map renderElement es)).
    split; [reflexivity|]. split; [|apply render_array].
    simpl in Hwf. apply andb_true_iff in Hwf. destruct Hwf as [Hw Hes].
    apply Skips_app; [apply Skips_plain, allWs_plain; assumption|].
    apply Skips_join; [apply Skips_plain; reflexivity|].
    rewrite Forall_map. rewrite forallb_forall in Hes. rewrite Forall_forall.
    intros [[w1 x] w2] Hin. specialize (Hes _ Hin).
    repeat (apply andb_true_iff in Hes; destruct Hes as [Hes ?]).
    apply Skips_app; [apply Skips_plain, allWs_plain; assumption|].
    apply Skips_app; [apply Skips_value; assumption
                     | apply Skips_plain, allWs_plain; assumption].
  - exists LBRACE, (w ++ joinWith [44%N] (map renderMember ms)).
    split; [reflexivity|]. split; [|apply render_object].
    simpl in Hwf. apply andb_true_iff in Hwf. destruct Hwf as [Hw Hms].
    apply Skips_app; [apply Skips_plain, allWs_plain; assumption|].
    apply Skips_join; [apply Skips_plain; reflexivity|].
    rewrite Forall_map. rewrite forallb_forall in Hms. rewrite Forall_forall.
    intros [[h x] w2] Hin. specialize (Hms _ Hin).
    repeat (apply andb_true_iff in Hms; destruct Hms as [Hms ?]).
    unfold wfHead in Hms. repeat (apply andb_true_iff in Hms; destruct Hms as [Hms ?]).
    apply Skips_app.
    { unfold renderHead.
      apply Skips_app; [apply Skips_plain, allWs_plain; assumption|].
      apply Skips_app; [apply Skips_string; assumption|].
      apply Skips_app; [apply Skips_plain, allWs_plain; assumption|].
      apply (Skips_app (a := [COLON])); [apply Skips_plain; reflexivity|].
      apply Skips_plain, allWs_plain; assumption. }
    apply Skips_app; [apply Skips_value; assumption
                     | apply Skips_plain, allWs_plain; assumption].
Qed.

(** Started at a well-formed array or object, the loop breaks at its last
    code unit. *)
Lemma loop_container v i rest :
  wfValue v = true -> isContainer v = true ->
  loop st0 i (render v ++ rest) = (i + len (render v) - 1)%Z.
Proof.
  intros Hwf Hc. destruct (container_body v Hwf Hc) as (o & body & Ho & Hb & Hr).
  rewrite Hr. destruct (@step_top o Ho) as (H1 & H2 & H3).
  cbn [app]. rewrite loop_cons, H1. rewrite <- !app_assoc, Hb by assumption.
  cbn [app]. rewrite loop_cons.
  destruct (step (push o st0) (closerOf o)) as [st' stop]. simpl in H3. subst stop.
  repeat (rewrite len_app || rewrite len_cons). unfold len. simpl length. lia.
Qed.
End Scanner.

(** *** The two scanners of the source are such loops *)

Ltac scan_cases :=
  unfold scanStep, plainChar, ordinary, isOpener, closerOf, scanPush in *;
  unfold DQUOTE, BACKSLASH, LBRACE, RBRACE, LBRACKET, RBRACKET in *;
  simpl in *;
  repeat match goal with
         | H : context [N.eqb ?a ?b] |- _ => destruct (N.eqb_spec a b); subst
         | |- context [N.eqb ?a ?b] => destruct (N.eqb_spec a b); subst
         end;
  simpl in *; try discriminate; try congruence.

Lemma scanLoop_container v i rest :
  wfValue v = true -> isContainer v = true ->
  scanLoop scanInit i (render v ++ rest) = (i + len (render v) - 1)%Z.
Proof.
  apply (@loop_container scanState scanStep scanLoop scanGood
           (fun st => mkScan (openBraces st) (openBrackets st) true false)
           (fun st => mkScan (openBraces st) (openBrackets st) true true)
           scanPush scanInit).
  - reflexivity.
  - intros [b k ins esc] c (E1 & E2 & _). simpl in E1, E2. subst. intros H.
    scan_cases; rewrite ?andb_false_r; reflexivity.
  - intros [b k ins esc] (E1 & E2 & _). simpl in E1, E2. subst. reflexivity.
  - intros [b k ins esc] c (E1 & E2 & _) H. simpl in E1, E2. subst. scan_cases.
  - intros [b k ins esc] (E1 & E2 & _). reflexivity.
  - intros [b k ins esc] c (E1 & E2 & _). reflexivity.
  - intros [b k ins esc] (E1 & E2 & _). simpl in E1, E2. subst. reflexivity.
  - intros [b k ins esc] o (E1 & E2 & H1 & H2 & H3) Ho. simpl in *. subst.
    unfold scanGood. scan_cases; repeat split; simpl; try lia; try reflexivity;
      f_equal; try (f_equal; lia);
      repeat match goal with
             | |- context [Z.eqb ?a ?b] => destruct (Z.eqb_spec a b)
             end; simpl; try reflexivity; lia.
  - intros o Ho. unfold scanGood, scanInit. scan_cases; repeat split; simpl; lia.
Qed.

Ltac plan_cases :=
  unfold planScanStep, plainChar, ordinary, isOpener, closerOf in *;
  unfold DQUOTE, BACKSLASH, LBRACE, RBRACE, LBRACKET, RBRACKET in *;
  simpl in *;
  repeat match goal with
         | H : context [N.eqb ?a ?b] |- _ => destruct (N.eqb_spec a b); subst
         | |- context [N.eqb ?a ?b] => destruct (N.eqb_spec a b); subst
         end;
  simpl in *; try discriminate; try congruence.

Lemma planScanLoop_container v i rest :
  wfValue v = true -> isContainer v = true ->
  planScanLoop planScanInit i (render v ++ rest) = (i + len (render v) - 1)%Z.
Proof.
  apply (@loop_container planScanState planScanStep planScanLoop planGood
           (fun st => mkPlanScan (braceCount st) true false)
           (fun st => mkPlanScan (braceCount st) true true)
           (fun _ st => mkPlanScan (braceCount st + 1) (pInString st) (pEscapeNext st))
           planScanInit).
  - reflexivity.
  - intros [b ins esc] c (E1 & E2 & _). simpl in E1, E2. subst. intros H. plan_cases.
  - intros [b ins esc] (E1 & E2 & _). simpl in E1, E2. subst. reflexivity.
  - intros [b ins esc] c (E1 & E2 & _) H. simpl in E1, E2. subst. plan_cases.
  - intros [b ins esc] (E1 & E2 & _). reflexivity.
  - intros [b ins esc] c (E1 & E2 & _). reflexivity.
  - intros [b ins esc] (E1 & E2 & _). simpl in E1, E2. subst. reflexivity.
  - intros [b ins esc] o (E1 & E2 & H1) Ho. simpl in *. subst.
    unfold planGood. plan_cases; repeat split; simpl; try lia;
      f_equal; try (f_equal; lia);
      repeat match goal with
             | |- context [Z.eqb ?a ?b] => destruct (Z.eqb_spec a b)
             end; simpl; try reflexivity; lia.
  - intros o Ho. unfold planGood, planScanInit. plan_cases; repeat split; simpl; lia.
Qed.

(** ** Valid JSON through [locateJson] and the plan's scan *)

Lemma container_head v :
  isContainer v = true -> exists o tl, isOpener o = true /\ render v = o :: tl.
Proof.
  destruct v; try discriminate; intros _.
  - rewrite render_array. exists LBRACKET. eexists. split; reflexivity.
  - rewrite render_object. exists LBRACE. eexists. split; reflexivity.
Qed.

Lemma container_last v :
  isContainer v = true -> exists c hd, isCloser c = true /\ render v = hd ++ [c].
Proof.
  destruct v as [| | |n|s|w es|w ms]; try discriminate; intros _.
  - rewrite render_array.
    exists (closerOf LBRACKET), ([LBRACKET] ++ (w ++ joinWith [44%N] (map renderElement es))).
    split; [reflexivity|]. cbn [app]. rewrite <- !app_assoc. reflexivity.
  - rewrite render_object.
    exists (closerOf LBRACE), ([LBRACE] ++ (w ++ joinWith [44%N] (map renderMember ms))).
    split; [reflexivity|]. cbn [app]. rewrite <- !app_assoc. reflexivity.
Qed.

Lemma jsonStart_opener o tl : isOpener o = true -> jsonStart (o :: tl) = 0%Z.
Proof.
  intros Ho.
  destruct (jsonStartFrom_spec (o :: tl) (i := 0) ltac:(lia)) as (pre & Hs & _ & _ & Hj).
  change (jsonStartFrom (o :: tl) 0) with (jsonStart (o :: tl)) in Hj.
  simpl fromStartToken in *. unfold isOpener in Ho. rewrite Ho in *.
  assert (pre = []).
  { apply (f_equal (@length N)) in Hs. rewrite length_app in Hs.
    destruct pre; [reflexivity | simpl in Hs; lia]. }
  subst pre. exact Hj.
Qed.

Lemma locateJson_valid v :
  wfValue v = true -> isContainer v = true ->
  locateJson (render v) = Ok (render v).
Proof.
  intros Hwf Hc. destruct (container_head v Hc) as (o & tl & Ho & Hr).
  assert (Hj : jsonStart (render v) = 0%Z)
    by (rewrite Hr; apply jsonStart_opener; exact Ho).
  unfold locateJson. rewrite Hj. simpl Z.eqb. cbv iota.
  pose proof (substringFrom_app [] (render v)) as Hsub. simpl in Hsub.
  change (len []) with 0%Z in Hsub. rewrite Hsub.
  pose proof (scanLoop_container v 0 [] Hwf Hc) as Hscan.
  rewrite app_nil_r in Hscan. rewrite Hscan.
  assert (Hlen : (0 < len (render v))%Z) by (rewrite Hr; unfold len; simpl; lia).
  destruct (Z.eqb_spec (0 + len (render v) - 1) (-1)); [lia|].
  replace (0 + len (render v) - 1 + 1)%Z with (len (render v)) by lia.
  now rewrite substring_all.
Qed.

Lemma planCutTail_valid v :
  wfValue v = true -> isContainer v = true ->
  planCutTail (render v) = render v.
Proof.
  intros Hwf Hc. unfold planCutTail.
  pose proof (planScanLoop_container v 0 [] Hwf Hc) as Hscan.
  rewrite app_nil_r in Hscan. rewrite Hscan.
  destruct (Z.ltb_spec 0 (0 + len (render v) - 1)); [|reflexivity].
  replace (0 + len (render v) - 1 + 1)%Z with (len (render v)) by lia.
  apply substring_all.
Qed.

Lemma planSkipProse_valid v :
  isContainer v = true -> planSkipProse (render v) = render v.
Proof.
  intros Hc. destruct (container_head v Hc) as (o & tl & Ho & Hr).
  unfold planSkipProse. rewrite Hr. simpl startsWith. rewrite !andb_true_r.
  unfold isOpener in Ho. apply orb_true_iff in Ho.
  destruct Ho as [E|E]; rewrite E; simpl; rewrite ?andb_false_r; reflexivity.
Qed.

(** ** Trimming *)

Lemma dropWhile_app_all p w s :
  forallb p w = true -> dropWhile p (w ++ s) = dropWhile p s.
Proof.
  induction w as [|c w IH]; simpl; [reflexivity|].
  intros H. apply andb_true_iff in H. destruct H as [Hc Hw]. rewrite Hc. auto.
Qed.

Lemma jsonWs_isWhiteSpace c : isJsonWs c = true -> isWhiteSpace c = true.
Proof.
  unfold isJsonWs. intros H.
  repeat (apply orb_true_iff in H; destruct H as [H|H]);
    apply N.eqb_eq in H; subst; reflexivity.
Qed.

Lemma allWs_whitespace w : allWs w = true -> forallb isWhiteSpace w = true.
Proof.
  unfold allWs. rewrite !forallb_forall. intros H c Hc.
  apply jsonWs_isWhiteSpace. auto.
Qed.

Lemma trim_tight w1 s w2 :
  forallb isWhiteSpace w1 = true -> forallb isWhiteSpace w2 = true ->
  tight s -> trim (w1 ++ s ++ w2) = s.
Proof.
  intros H1 H2 [(a & m & Ha & Hna) (hd & l & Hl & Hnl)].
  unfold trim, trimStart, trimEnd. rewrite dropWhile_app_all by assumption.
  replace (dropWhile isWhiteSpace (s ++ w2)) with (s ++ w2)
    by (rewrite Ha; simpl; now rewrite Hna).
  rewrite rev_app_distr, dropWhile_app_all.
  - replace (dropWhile isWhiteSpace (rev s)) with (rev s)
      by (rewrite Hl, rev_app_distr; simpl; now rewrite Hnl).
    apply rev_involutive.
  - rewrite forallb_forall in *. intros c Hc. apply H2. now apply in_rev.
Qed.

Lemma tight_container v : isContainer v = true -> tight (render v).
Proof.
  intros Hc. destruct (container_head v Hc) as (o & tl & Ho & Hr).
  destruct (container_last v Hc) as (c & hd & Hcl & Hr2).
  split.
  - exists o, tl. split; [exact Hr|]. unfold isOpener in Ho. apply orb_true_iff in Ho.
    destruct Ho as [E|E]; apply N.eqb_eq in E; subst; reflexivity.
  - exists hd, c. split; [exact Hr2|]. unfold isCloser in Hcl. apply orb_true_iff in Hcl.
    destruct Hcl as [E|E]; apply N.eqb_eq in E; subst; reflexivity.
Qed.

(** ** Fence stripping *)

Lemma startsWith_app p s : startsWith (p ++ s) p = true.
Proof. induction p as [|c p IH]; simpl; [reflexivity|]. now rewrite N.eqb_refl. Qed.

Lemma startsWith_head_neq c s x p :
  c <> x -> startsWith (c :: s) (x :: p) = false.
Proof. intros H. simpl. destruct (N.eqb_spec c x); [contradiction | reflexivity]. Qed.

Lemma endsWith_app s p : endsWith (s ++ p) p = true.
Proof. unfold endsWith. rewrite rev_app_distr. apply startsWith_app. Qed.

Lemma endsWith_last_neq hd l p x :
  l <> x -> endsWith (hd ++ [l]) (p ++ [x]) = false.
Proof.
  intros H. unfold endsWith. rewrite !rev_app_distr. simpl.
  destruct (N.eqb_spec l x); [contradiction | reflexivity].
Qed.

Lemma slice_drop_end s p :
  p <> [] -> slice (s ++ p) 0 (- len p) = s.
Proof.
  intros Hp. unfold slice.
  assert (0 < len p)%Z by (destruct p; [contradiction | unfold len; simpl; lia]).
  destruct (Z.ltb_spec 0 0); [lia|]. destruct (Z.ltb_spec (- len p) 0); [|lia].
  rewrite len_app.
  replace (Z.min 0 (len s + len p)) with 0%Z by (unfold len; lia).
  replace (Z.max (len s + len p + - len p) 0) with (len s) by (unfold len; lia).
  rewrite Z.sub_0_r. unfold len. rewrite Nat2Z.id. simpl.
  now rewrite firstn_app, firstn_all, Nat.sub_diag, app_nil_r.
Qed.

(** A text that starts and ends with something other than white space or a
    backtick goes through the fence stripping unchanged, whatever white
    space surrounds it. *)
Lemma stripFences_bare w1 s w2 a m hd l :
  forallb isWhiteSpace w1 = true -> forallb isWhiteSpace w2 = true ->
  s = a :: m -> isWhiteSpace a = false -> a <> BACKTICK ->
  s = hd ++ [l] -> isWhiteSpace l = false -> l <> BACKTICK ->
  stripFences (w1 ++ s ++ w2) = s.
Proof.
  intros H1 H2 Ha Hwa Hba Hl Hwl Hbl.
  assert (Ht : tight s) by (split; eauto).
  unfold stripFences. rewrite (trim_tight w1 w2 H1 H2 Ht).
  replace (startsWith s (lit "```json")) with false
    by (rewrite Ha; symmetry; apply startsWith_head_neq; exact Hba).
  replace (startsWith s (lit "```")) with false
    by (rewrite Ha; symmetry; apply startsWith_head_neq; exact Hba).
  replace (endsWith s (lit "```")) with false
    by (rewrite Hl; symmetry; apply (endsWith_last_neq hd [BACKTICK; BACKTICK]); exact Hbl).
  apply (trim_tight [] [] eq_refl eq_refl) in Ht. rewrite app_nil_r in Ht. exact Ht.
Qed.

Lemma stripFences_fenced s : tight s -> stripFences (fenced s) = s.
Proof.
  intros Ht. unfold stripFences, fenced.
  assert (Htr : trim (jsonFence ++ s ++ endFence) = jsonFence ++ s ++ endFence).
  { pose proof (@trim_tight [] (jsonFence ++ s ++ endFence) [] eq_refl eq_refl) as H.
    rewrite app_nil_r in H. apply H. split.
    - exists BACKTICK. eexists. split; reflexivity.
    - exists (jsonFence ++ s ++ [LF; BACKTICK; BACKTICK]), BACKTICK.
      split; [|reflexivity]. rewrite <- !app_assoc. reflexivity. }
  rewrite Htr.
  change (jsonFence ++ s ++ endFence) with (lit "```json" ++ ([LF] ++ s ++ endFence)).
  rewrite startsWith_app.
  pose proof (substringFrom_app (lit "```json") ([LF] ++ s ++ endFence)) as Hsub.
  change (len (lit "```json")) with 7%Z in Hsub. rewrite Hsub.
  replace ([LF] ++ s ++ endFence) with (([LF] ++ s ++ [LF]) ++ lit "```")
    by (unfold endFence; rewrite <- !app_assoc; reflexivity).
  rewrite endsWith_app.
  pose proof (@slice_drop_end ([LF] ++ s ++ [LF]) (lit "```") ltac:(discriminate)) as Hsl.
  change (- len (lit "```"))%Z with (-3)%Z in Hsl. rewrite Hsl.
  apply (@trim_tight [LF] s [LF] eq_refl eq_refl Ht).
Qed.

(** ** The repair pattern on a symbolic text *)

Lemma succ_neq pos : Nat.eqb (S pos) pos = false.
Proof. apply Nat.eqb_neq. lia. Qed.

(** A greedy star of white space before a continuation that refuses white
    space takes the whole run. *)
Lemma starLoop_ws R (k : jsstring -> nat -> captures -> option R) :
  (forall c s p cs, isWhiteSpace c = true -> k (c :: s) p cs = None) ->
  forall t n pos caps, length t <= n ->
    starLoop (bodyOf ws) true k n t pos caps
    = k (dropWhile isWhiteSpace t)
        (pos + (length t - length (dropWhile isWhiteSpace t))) caps.
Proof.
  intros Hk. induction t as [|c t IH]; intros n pos caps Hn.
  - simpl dropWhile. simpl length. rewrite Nat.add_0_r.
    destruct n; simpl; reflexivity.
  - destruct n as [|n]; [simpl in Hn; lia|]. simpl in Hn.
    cbn [starLoop rmatch ws dropWhile]. destruct (isWhiteSpace c) eqn:Ec.
    + rewrite succ_neq, IH by lia. cbn [length].
      replace (S pos + (length t - length (dropWhile isWhiteSpace t)))
        with (pos + (S (length t) - length (dropWhile isWhiteSpace t))).
      * destruct (k (dropWhile isWhiteSpace t) _ caps) eqn:E; [reflexivity|].
        apply Hk. exact Ec.
      * assert (length (dropWhile isWhiteSpace t) <= length t).
        { clear. induction t as [|x t IH]; simpl; [lia|].
          destruct (isWhiteSpace x); simpl; lia. }
        lia.
    + rewrite Nat.sub_diag, Nat.add_0_r. reflexivity.
Qed.

(** A lazy star of any code unit before a continuation that wants a backtick
    stops at the first backtick. *)
Lemma starLoop_lazy_stop R (k : jsstring -> nat -> captures -> option R) :
  (forall s p cs, startsWith s [BACKTICK] = false -> k s p cs = None) ->
  forall c rest n pos caps x,
    ~ In BACKTICK c -> length c <= n ->
    k (BACKTICK :: rest) (pos + length c) caps = Some x ->
    starLoop (bodyOf anyChar) false k n (c ++ BACKTICK :: rest) pos caps = Some x.
Proof.
  intros Hk. induction c as [|y c IH]; intros rest n pos caps x Hnb Hn Hx.
  - simpl in Hx. rewrite Nat.add_0_r in Hx.
    destruct n; simpl; rewrite Hx; reflexivity.
  - destruct n as [|n]; [simpl in Hn; lia|]. simpl in Hn.
    cbn [app starLoop].
    rewrite Hk.
    + cbn [rmatch anyChar]. rewrite succ_neq.
      apply IH; [intros E; apply Hnb; right; exact E | lia |].
      rewrite <- Hx. f_equal. simpl. lia.
    + simpl. destruct (N.eqb_spec y BACKTICK); [|reflexivity].
      exfalso. apply Hnb. left. congruence.
Qed.

Lemma starLoop_lazy_none R (k : jsstring -> nat -> captures -> option R) :
  (forall s p cs, startsWith s [BACKTICK] = false -> k s p cs = None) ->
  forall s n pos caps,
    ~ In BACKTICK s ->
    starLoop (bodyOf anyChar) false k n s pos caps = None.
Proof.
  intros Hk. induction s as [|y s IH]; intros n pos caps Hnb.
  - destruct n; simpl; rewrite Hk; reflexivity.
  - assert (Hy : startsWith (y :: s) [BACKTICK] = false).
    { simpl. destruct (N.eqb_spec y BACKTICK); [|reflexivity].
      exfalso. apply Hnb. left. congruence. }
    destruct n as [|n]; cbn [starLoop]; rewrite (Hk _ _ _ Hy); [reflexivity|].
    cbn [rmatch anyChar]. rewrite succ_neq.
    apply IH. intros E. apply Hnb. right. exact E.
Qed.

Lemma backtickValue_unfold c t pos :
  rmatch backtickValuePattern (c :: t) pos [] finalK
  = if N.eqb COLON c
    then starLoop (bodyOf ws) true openK (length t) t (S pos) []
    else None.
Proof. reflexivity. Qed.

Lemma openK_unfold x s p cs :
  openK (x :: s) p cs
  = if N.eqb BACKTICK x
    then starLoop (bodyOf anyChar) false (closeK (S p) s) (length s) s (S p) cs
    else None.
Proof. reflexivity. Qed.

Lemma openK_refuses c s p cs : isWhiteSpace c = true -> openK (c :: s) p cs = None.
Proof.
  intros H. rewrite openK_unfold.
  destruct (N.eqb_spec BACKTICK c); [subst; discriminate | reflexivity].
Qed.

Lemma closeK_wants_backtick from text s p cs :
  startsWith s [BACKTICK] = false -> closeK from text s p cs = None.
Proof.
  intros H. destruct s as [|y s]; [reflexivity|].
  unfold closeK. cbn [rmatch chr]. cbn [startsWith] in H.
  rewrite andb_true_r in H. rewrite N.eqb_sym. now rewrite H.
Qed.

(** Where the pattern cannot start, it does not match. *)
Lemma backtickValue_no_start s pos :
  siteStart s = false -> rmatch backtickValuePattern s pos [] finalK = None.
Proof.
  intros H. destruct s as [|c t]; [reflexivity|].
  rewrite backtickValue_unfold. cbn [siteStart] in H. rewrite N.eqb_sym.
  destruct (N.eqb c COLON); [|reflexivity]. cbn [andb] in H.
  rewrite (starLoop_ws openK openK_refuses) by lia.
  destruct (dropWhile isWhiteSpace t) as [|x u]; [reflexivity|].
  rewrite openK_unfold. cbn [startsWith] in H. rewrite andb_true_r in H.
  rewrite N.eqb_sym. now rewrite H.
Qed.

Lemma backtickValue_unclosed t pos w :
  ~ In BACKTICK t -> forallb isWhiteSpace w = true ->
  rmatch backtickValuePattern (COLON :: w ++ BACKTICK :: t) pos [] finalK = None.
Proof.
  intros Hnb Hw. rewrite backtickValue_unfold, N.eqb_refl.
  rewrite (starLoop_ws openK openK_refuses) by lia.
  rewrite dropWhile_app_all by assumption. cbn [dropWhile].
  change (isWhiteSpace BACKTICK) with false. cbv iota.
  rewrite openK_unfold, N.eqb_refl.
  apply starLoop_lazy_none; [|exact Hnb].
  intros s p cs. apply closeK_wants_backtick.
Qed.

Lemma dropWhile_split p (t : jsstring) :
  exists w, t = w ++ dropWhile p t /\ forallb p w = true.
Proof.
  induction t as [|x t (w & Hw & Hp)]; [exists []; auto|].
  cbn [dropWhile]. destruct (p x) eqn:E.
  - exists (x :: w). cbn [app forallb]. rewrite E, Hp. split; [f_equal; exact Hw | reflexivity].
  - exists []. auto.
Qed.

(** Where there is no backtick-delimited value after a colon, the pattern
    does not match. *)
Lemma backtickValue_no_site s pos :
  siteAt s = false -> rmatch backtickValuePattern s pos [] finalK = None.
Proof.
  intros H. destruct (siteStart s) eqn:Es; [|now apply backtickValue_no_start].
  destruct s as [|c t]; [discriminate|]. cbn [siteAt siteStart] in H, Es.
  apply andb_true_iff in Es. destruct Es as [Ec Es]. rewrite Ec in H. cbn [andb] in H.
  apply N.eqb_eq in Ec. subst c.
  destruct (dropWhile_split isWhiteSpace t) as (w & Ht & Hw).
  destruct (dropWhile isWhiteSpace t) as [|b u]; [discriminate|].
  cbn [startsWith] in Es. rewrite andb_true_r in Es. rewrite Es in H. cbn [andb] in H.
  apply N.eqb_eq in Es. subst b. rewrite Ht.
  apply backtickValue_unclosed; [|exact Hw].
  intros Hin. assert (Hex : existsb (N.eqb BACKTICK) u = true).
  { apply existsb_exists. exists BACKTICK. split; [exact Hin | apply N.eqb_refl]. }
  congruence.
Qed.

(** At a colon, white space and a backtick-delimited text without backtick,
    it matches up to the closing backtick and captures the interior. *)
Lemma backtickValue_match w c post pos :
  forallb isWhiteSpace w = true -> ~ In BACKTICK c ->
  rmatch backtickValuePattern (COLON :: w ++ BACKTICK :: c ++ BACKTICK :: post)
    pos [] finalK
  = Some (post, pos + length (COLON :: w ++ BACKTICK :: c ++ [BACKTICK]), [(1, c)]).
Proof.
  intros Hw Hnb. rewrite backtickValue_unfold, N.eqb_refl.
  rewrite (starLoop_ws openK openK_refuses) by lia.
  rewrite dropWhile_app_all by assumption. cbn [dropWhile].
  change (isWhiteSpace BACKTICK) with false. cbv iota.
  rewrite openK_unfold, N.eqb_refl.
  erewrite starLoop_lazy_stop;
    [reflexivity | intros s p cs; apply closeK_wants_backtick | exact Hnb
     | rewrite length_app; simpl; lia |].
  unfold closeK. cbn [rmatch chr]. rewrite N.eqb_refl. unfold finalK.
  f_equal. f_equal; [f_equal|].
  - repeat (rewrite !length_app; cbn [length]). lia.
  - f_equal. f_equal.
    match goal with |- firstn ?n _ = _ => replace n with (length c) by lia end.
    now rewrite firstn_app, firstn_all, Nat.sub_diag, app_nil_r.
Qed.

Lemma execFrom_unfold r s pos :
  execFrom r s pos
  = match rmatch r s pos [] finalK with
    | Some (s1, p1, c1) => Some ([], mkMatch pos (firstn (p1 - pos) s) c1, s1)
    | None =>
        match s with
        | [] => None
        | c :: t =>
            match execFrom r t (S pos) with
            | Some (gap, m, rest) => Some (c :: gap, m, rest)
            | None => None
            end
        end
    end.
Proof. destruct s; reflexivity. Qed.

Lemma execFrom_no_site s : forall pos,
  hasSite s = false -> execFrom backtickValuePattern s pos = None.
Proof.
  induction s as [|c t IH]; intros pos H; rewrite execFrom_unfold.
  - reflexivity.
  - cbn [hasSite] in H. apply orb_false_iff in H. destruct H as [H1 H2].
    rewrite backtickValue_no_site by exact H1. now rewrite IH.
Qed.

Lemma siteStart_before_colon l r :
  l <> [] -> siteStart (l ++ COLON :: r) = siteStart l.
Proof.
  destruct l as [|c t]; [contradiction|]. intros _. cbn [app siteStart]. f_equal.
  induction t as [|x t IH]; [reflexivity|].
  cbn [app dropWhile]. destruct (isWhiteSpace x); [exact IH | reflexivity].
Qed.

(** The search runs over a text without site start up to a colon. *)
Lemma execFrom_skip pre r : forall pos,
  hasSiteStart pre = false ->
  execFrom backtickValuePattern (pre ++ COLON :: r) pos
  = match execFrom backtickValuePattern (COLON :: r) (pos + length pre) with
    | Some (gap, m, rest) => Some (pre ++ gap, m, rest)
    | None => None
    end.
Proof.
  induction pre as [|c pre IH]; intros pos H.
  - cbn [app length]. rewrite Nat.add_0_r.
    destruct (execFrom backtickValuePattern (COLON :: r) pos) as [[[g m] rs]|]; reflexivity.
  - cbn [hasSiteStart] in H. apply orb_false_iff in H. destruct H as [H1 H2].
    cbn [app]. rewrite execFrom_unfold.
    change (c :: pre ++ COLON :: r) with ((c :: pre) ++ COLON :: r).
    rewrite backtickValue_no_start
      by (rewrite siteStart_before_colon; [exact H1 | discriminate]).
    cbn [app]. rewrite IH by exact H2. cbn [length].
    replace (S pos + length pre) with (pos + S (length pre)) by lia.
    destruct (execFrom backtickValuePattern (COLON :: r) _) as [[[g m] rs]|]; reflexivity.
Qed.

Lemma execFrom_site w c post pos :
  forallb isWhiteSpace w = true -> ~ In BACKTICK c ->
  execFrom backtickValuePattern (siteText w c ++ post) pos
  = Some ([], mkMatch pos (siteText w c) [(1, c)], post).
Proof.
  intros Hw Hc. rewrite execFrom_unfold. unfold siteText.
  replace ((COLON :: w ++ BACKTICK :: c ++ [BACKTICK]) ++ post)
    with (COLON :: w ++ BACKTICK :: c ++ BACKTICK :: post)
    by (cbn [app]; rewrite <- !app_assoc; cbn [app]; rewrite <- !app_assoc; reflexivity).
  rewrite backtickValue_match by assumption.
  f_equal. f_equal. f_equal. f_equal.
  match goal with |- firstn ?n _ = _ =>
    replace n with (length (COLON :: w ++ BACKTICK :: c ++ [BACKTICK])) by lia end.
  replace (COLON :: w ++ BACKTICK :: c ++ BACKTICK :: post)
    with ((COLON :: w ++ BACKTICK :: c ++ [BACKTICK]) ++ post)
    by (cbn [app]; rewrite <- !app_assoc; cbn [app]; rewrite <- !app_assoc; reflexivity).
  now rewrite firstn_app, firstn_all, Nat.sub_diag, app_nil_r.
Qed.

(** *** The inner replace *)

Lemma execFrom_class p s : forall pos,
  match execFrom (Chr p) s pos with
  | None => forallb (fun c => negb (p c)) s = true
  | Some (gap, m, rest) =>
      exists x, s = gap ++ x :: rest /\ p x = true /\ mText m = [x] /\
                forallb (fun c => negb (p c)) gap = true
  end.
Proof.
  induction s as [|c t IH]; intros pos; rewrite execFrom_unfold; cbn [rmatch].
  - reflexivity.
  - destruct (p c) eqn:E.
    + cbn [mText]. exists c. replace (S pos - pos) with 1 by lia.
      cbn [firstn app forallb]. repeat split; auto.
    + specialize (IH (S pos)).
      destruct (execFrom (Chr p) t (S pos)) as [[[g m] rs]|].
      * destruct IH as (x & Hs & Hp & Hm & Hg). exists x. cbn [forallb app].
        rewrite E. subst t. repeat split; auto.
      * cbn [forallb]. now rewrite E.
Qed.

Lemma flat_map_unmatched p (g : N -> jsstring) s :
  forallb (fun c => negb (p c)) s = true ->
  flat_map (fun c => if p c then g c else [c]) s = s.
Proof.
  induction s as [|c s IH]; cbn; [reflexivity|].
  intros H. apply andb_true_iff in H. destruct H as [H1 H2].
  apply negb_true_iff in H1. rewrite H1. cbn. f_equal. auto.
Qed.

Lemma segments_class p (f : rxmatch -> result jsstring) (g : N -> jsstring) :
  (forall m x, mText m = [x] -> f m = Ok (g x)) ->
  forall fuel s pos, length s < fuel ->
    (let (ms, tl) := segments fuel (Chr p) s pos in assemble f ms tl)
    = Ok (flat_map (fun c => if p c then g c else [c]) s).
Proof.
  intros Hf. induction fuel as [|fuel IH]; intros s pos Hlen; [lia|].
  cbn [segments]. pose proof (execFrom_class p s pos) as He.
  destruct (execFrom (Chr p) s pos) as [[[gap m] rest]|].
  - destruct He as (x & Hs & Hp & Hm & Hg). rewrite Hm.
    assert (Hr : length rest < fuel).
    { subst s. rewrite length_app in Hlen. cbn in Hlen. lia. }
    specialize (IH rest (mIndex m + length [x]) Hr).
    destruct (segments fuel (Chr p) rest _) as [ms tl].
    cbn [assemble]. rewrite (Hf m x Hm), IH. cbn [bind].
    subst s. rewrite flat_map_app. cbn [flat_map]. rewrite Hp.
    now rewrite (@flat_map_unmatched p g gap Hg).
  - cbn [assemble]. now rewrite flat_map_unmatched by exact He.
Qed.

Lemma escapeContent_eq content :
  replaceAll escapablePattern escapeReplacer content = Ok (escapeText content).
Proof.
  unfold replaceAll, escapablePattern, escapeText.
  apply (segments_class needsEscape escapeReplacer escapeChar).
  - intros m x Hm. unfold escapeReplacer. now rewrite Hm.
  - lia.
Qed.

(** *** The repair of a text *)

Lemma repairBackticks_no_site s :
  hasSite s = false -> repairBackticks s = Ok s.
Proof.
  intros H. unfold repairBackticks, replaceAll. cbn [segments].
  now rewrite execFrom_no_site.
Qed.

(** One site, after a text without site start and before one without: the
    site becomes a colon, a space and the escaped interior between quotes. *)
Lemma repairBackticks_site pre w c post :
  hasSiteStart pre = false -> forallb isWhiteSpace w = true ->
  ~ In BACKTICK c -> hasSite post = false ->
  repairBackticks (pre ++ siteText w c ++ post)
  = Ok (pre ++ (lit ": '" ++ escapeText c ++ lit "'") ++ post).
Proof.
  intros Hpre Hw Hc Hpost. unfold repairBackticks, replaceAll. cbn [segments].
  change (siteText w c ++ post) with (COLON :: (w ++ BACKTICK :: c ++ [BACKTICK]) ++ post).
  rewrite execFrom_skip by exact Hpre.
  change (COLON :: (w ++ BACKTICK :: c ++ [BACKTICK]) ++ post) with (siteText w c ++ post).
  rewrite execFrom_site by assumption. cbn [mText siteText].
  destruct (length (pre ++ siteText w c ++ post)) as [|fuel].
  - cbn [segments assemble]. unfold backtickReplacer. cbn [group mCaps getCap Nat.eqb defined bind].
    rewrite escapeContent_eq. cbn [bind]. now rewrite app_nil_r.
  - cbn [segments]. rewrite execFrom_no_site by exact Hpost.
    cbn [assemble]. unfold backtickReplacer. cbn [group mCaps getCap Nat.eqb defined bind].
    rewrite escapeContent_eq. cbn [bind]. now rewrite app_nil_r.
Qed.

(** ** Escaping and string literals *)

Lemma encodeChar_small :
  forallb (fun c => eqs (renderItem (encodeChar c)) (escapeUnit c)
                    && wfItem (encodeChar c)
                    && N.eqb (decodeItem (encodeChar c)) c)%bool
          (map N.of_nat (seq 0 160)) = true.
Proof. vm_compute. reflexivity. Qed.

Lemma encodeChar_spec c :
  renderItem (encodeChar c) = escapeUnit c /\
  wfItem (encodeChar c) = true /\
  decodeItem (encodeChar c) = c.
Proof.
  destruct (N.ltb_spec c 160) as [Hlt|Hge].
  - pose proof encodeChar_small as H. rewrite forallb_forall in H.
    specialize (H c). assert (Hin : In c (map N.of_nat (seq 0 160))).
    { apply in_map_iff. exists (N.to_nat c). split; [apply N2Nat.id|].
      apply in_seq. lia. }
    specialize (H Hin). apply andb_true_iff in H. destruct H as [H H3].
    apply andb_true_iff in H. destruct H as [H1 H2].
    apply eqs_eq in H1. apply N.eqb_eq in H3. auto.
  - assert (Hn : needsEscape c = false).
    { unfold needsEscape, inRange, DQUOTE, BACKSLASH.
      destruct (N.leb_spec c 31); [lia|]. destruct (N.leb_spec c 159); [lia|].
      destruct (N.eqb_spec c 34); [lia|]. destruct (N.eqb_spec c 92); [lia|].
      now rewrite !andb_false_r. }
    unfold encodeChar, escapeUnit, DQUOTE, BACKSLASH. rewrite Hn.
    destruct (N.eqb_spec c 34); [lia|]. destruct (N.eqb_spec c 92); [lia|].
    destruct (N.eqb_spec c 8); [lia|]. destruct (N.eqb_spec c 12); [lia|].
    destruct (N.eqb_spec c 10); [lia|]. destruct (N.eqb_spec c 13); [lia|].
    destruct (N.eqb_spec c 9); [lia|].
    cbn [renderItem wfItem decodeItem]. repeat split.
    unfold DQUOTE, BACKSLASH.
    destruct (N.leb_spec 32 c); [|lia].
    destruct (N.eqb_spec c 34); [lia|]. destruct (N.eqb_spec c 92); [lia|]. reflexivity.
Qed.

(** The escaped text is the body of a string literal that denotes the
    original text. *)
Lemma escapeText_literal c :
  flat_map renderItem (map encodeChar c) = escapeText c /\
  forallb wfItem (map encodeChar c) = true /\
  decodeString (map encodeChar c) = c.
Proof.
  unfold escapeText, decodeString. induction c as [|x c (IH1 & IH2 & IH3)]; [auto|].
  destruct (encodeChar_spec x) as (H1 & H2 & H3).
  cbn [map flat_map forallb]. rewrite H1, H2, H3, IH1, IH2, IH3. auto.
Qed.

(** ** Valid JSON through the whole of [extractJsonFromResponse] *)

Lemma extractJson_valid_bare w1 v w2 :
  allWs w1 = true -> allWs w2 = true ->
  wfValue v = true -> isContainer v = true -> hasSite (render v) = false ->
  extractJsonFromResponse (w1 ++ render v ++ w2) = Ok (render v).
Proof.
  intros H1 H2 Hwf Hc Hs. unfold extractJsonFromResponse.
  destruct (container_head v Hc) as (o & tl & Ho & Hr).
  destruct (container_last v Hc) as (c & hd & Hcl & Hr2).
  assert (Hst : stripFences (w1 ++ render v ++ w2) = render v).
  { apply (@stripFences_bare w1 (render v) w2 o tl hd c);
      auto using allWs_whitespace.
    - unfold isOpener in Ho. apply orb_true_iff in Ho.
      destruct Ho as [E|E]; apply N.eqb_eq in E; subst; reflexivity.
    - unfold isOpener in Ho. apply orb_true_iff in Ho.
      destruct Ho as [E|E]; apply N.eqb_eq in E; subst; discriminate.
    - unfold isCloser in Hcl. apply orb_true_iff in Hcl.
      destruct Hcl as [E|E]; apply N.eqb_eq in E; subst; reflexivity.
    - unfold isCloser in Hcl. apply orb_true_iff in Hcl.
      destruct Hcl as [E|E]; apply N.eqb_eq in E; subst; discriminate. }
  rewrite Hst, repairBackticks_no_site by exact Hs. cbn [bind].
  now apply locateJson_valid.
Qed.

Lemma extractJson_valid_fenced v :
  wfValue v = true -> isContainer v = true -> hasSite (render v) = false ->
  extractJsonFromResponse (fenced (render v)) = Ok (render v).
Proof.
  intros Hwf Hc Hs. unfold extractJsonFromResponse.
  rewrite stripFences_fenced by (apply tight_container; exact Hc).
  rewrite repairBackticks_no_site by exact Hs. cbn [bind].
  now apply locateJson_valid.
Qed.

(** ** C3 and C5: valid JSON, bare and fenced *)

(** C3, as amended.  For every valid JSON text that is an object or an array
    and in which no colon is followed by optional white space and a
    backtick-delimited text (a backtick with a later backtick, string
    values included), [extractJsonFromResponse] returns the text without
    its leading and trailing white space, which is what [trim] leaves of
    it. *)
Theorem C3_valid_container_unchanged w1 v w2 :
  allWs w1 = true -> allWs w2 = true ->
  wfValue v = true -> isContainer v = true -> hasSite (render v) = false ->
  extractJsonFromResponse (w1 ++ render v ++ w2) = Ok (render v) /\
  trim (w1 ++ render v ++ w2) = render v.
Proof.
  intros H1 H2 Hwf Hc Hs. split.
  - now apply extractJson_valid_bare.
  - apply trim_tight; auto using allWs_whitespace, tight_container.
Qed.

Lemma C3_witness :
  extractJsonFromResponse ([SPACE] ++ render ex_pair_tree ++ [LF])
  = Ok (render ex_pair_tree) /\
  trim ([SPACE] ++ render ex_pair_tree ++ [LF]) = render ex_pair_tree.
Proof.
  apply (@C3_valid_container_unchanged [SPACE] ex_pair_tree [LF]); reflexivity.
Defined.

Lemma ex_scalar_valid : validJson ex_scalar.
Proof.
  exists (denote ex_scalar_tree), [], ex_scalar_tree, [].
  repeat split; reflexivity.
Qed.

Lemma ex_site_in_string_valid :
  JSONparse ex_site_in_string (VObject [(lit "a", VString (lit "x: `b`"))]).
Proof.
  exists [], ex_site_in_string_tree, []. repeat split; reflexivity.
Qed.

(** The claim C3 as stated fails on a scalar: [42] is a valid JSON text
    without fence or backtick, and the extraction throws.  It also fails on
    an object whose only value is a proper JSON string that holds a
    backtick-delimited word after a colon: the repair rewrites the inside of
    the string. *)
Lemma C3_counterexample :
  (validJson ex_scalar /\ includes ex_scalar FENCE = false /\
   ~ In BACKTICK ex_scalar /\
   extractJsonFromResponse ex_scalar = Throw noJsonFound) /\
  (validJson ex_site_in_string /\ includes ex_site_in_string FENCE = false /\
   extractJsonFromResponse ex_site_in_string = Ok (lit "{'a': 'x: 'b''}") /\
   lit "{'a': 'x: 'b''}" <> trim ex_site_in_string).
Proof.
  split.
  - split; [exact ex_scalar_valid|]. split; [reflexivity|]. split.
    + intros [E|[E|[]]]; discriminate.
    + vm_compute. reflexivity.
  - split; [eexists; exact ex_site_in_string_valid|]. split; [reflexivity|]. split.
    + vm_compute. reflexivity.
    + vm_compute. discriminate.
Qed.

(** C5, as amended.  For every valid JSON object or array, written without
    surrounding white space, in which no colon is followed by optional white
    space and a backtick-delimited text (a backtick with a later backtick,
    string values included), [extractJsonFromResponse] of the text between
    a json-tagged fence and a closing fence returns the text. *)
Theorem C5_fenced_container v :
  wfValue v = true -> isContainer v = true -> hasSite (render v) = false ->
  extractJsonFromResponse (lit "```json" ++ [LF] ++ render v ++ [LF] ++ lit "```")
  = Ok (render v).
Proof. intros Hwf Hc Hs. now apply extractJson_valid_fenced. Qed.

Lemma C5_witness :
  extractJsonFromResponse
    (lit "```json" ++ [LF] ++ render ex_pair_tree ++ [LF] ++ lit "```")
  = Ok (render ex_pair_tree).
Proof. apply (@C5_fenced_container ex_pair_tree); reflexivity. Defined.

(** The claim C5 as stated fails on a scalar, where the extraction throws,
    on a text with leading white space, which is not returned unchanged, and
    on an object with a backtick-delimited word after a colon inside a
    string value, which the repair rewrites. *)
Lemma C5_counterexample :
  (validJson ex_scalar /\
   extractJsonFromResponse (fenced ex_scalar) = Throw noJsonFound) /\
  (validJson ex_padded /\
   extractJsonFromResponse (fenced ex_padded) = Ok (lit "{}") /\
   lit "{}" <> ex_padded) /\
  (validJson ex_site_in_string /\
   extractJsonFromResponse (fenced ex_site_in_string) = Ok (lit "{'a': 'x: 'b''}") /\
   lit "{'a': 'x: 'b''}" <> ex_site_in_string).
Proof.
  split; [split; [exact ex_scalar_valid | vm_compute; reflexivity]|].
  split.
  - split; [|split; [vm_compute; reflexivity | discriminate]].
    exists (denote (JObject [] [])), [SPACE], (JObject [] []), [].
    repeat split; reflexivity.
  - split; [eexists; exact ex_site_in_string_valid|].
    split; [vm_compute; reflexivity | vm_compute; discriminate].
Qed.

(** ** The span extractor never throws *)

Lemma tracks_total attrName : exists v, tracks attrName = Ok v.
Proof.
  unfold tracks, underscoresToSpaces.
  destruct (@replaceAll_total (chr UNDERSCORE) (fun _ => Ok [SPACE]) attrName) as [y Hy];
    [eauto|]. rewrite Hy. cbn [bind]. eauto.
Qed.

Section SpanTotality.
Variable toLowerCase : jsstring -> jsstring.

Lemma extractDescription_total spanName text :
  exists d, extractDescription spanName text = Ok d.
Proof.
  unfold extractDescription. destruct (indexOf text spanName =? -1)%Z; [eauto|].
  destruct (matchFirst colonDescriptionPattern _) as [m|] eqn:E1.
  { apply matchFirst_good in E1. destruct (goodMatch_group E1 eq_refl) as [v Hv].
    rewrite Hv. cbn. eauto. }
  destruct (matchFirst parenDescriptionPattern _) as [m|] eqn:E2; [eauto|].
  destruct (matchFirst dashDescriptionPattern _) as [m|] eqn:E3; [|eauto].
  apply matchFirst_good in E3. destruct (goodMatch_group E3 eq_refl) as [v Hv].
  rewrite Hv. cbn. eauto.
Qed.

Lemma addLabelledAttribute_total r attrs m :
  goodMatch r m -> definesGroup 1 r = true ->
  exists attrs', addLabelledAttribute attrs m = Ok attrs'.
Proof.
  intros Hg Hd. unfold addLabelledAttribute.
  destruct (goodMatch_group Hg Hd) as [v Hv]. rewrite Hv. cbn [defined bind].
  destruct (negb (includes v [DOT])); [|eauto].
  destruct (tracks_total v) as [x Hx]. rewrite Hx. cbn. eauto.
Qed.

Lemma addListedAttribute_total attrs attr :
  exists attrs', addListedAttribute attrs attr = Ok attrs'.
Proof.
  unfold addListedAttribute. destruct (trim attr) as [|c t]; [eauto|].
  destruct (negb (includes (c :: t) [DOT])); [|eauto].
  destruct (tracks_total (c :: t)) as [x Hx]. rewrite Hx. cbn. eauto.
Qed.

Lemma addBulletAttributes_total r attrs m :
  goodMatch r m -> definesGroup 1 r = true ->
  exists attrs', addBulletAttributes attrs m = Ok attrs'.
Proof.
  intros Hg Hd. unfold addBulletAttributes.
  destruct (goodMatch_group Hg Hd) as [v Hv]. rewrite Hv. cbn [defined bind].
  apply (@forEach_total _ _ (fun _ => True) _ _).
  - apply Forall_forall. auto.
  - intros st x _. apply addListedAttribute_total.
Qed.

Lemma addCommonAttribute_total r spanName attrs m :
  goodMatch r m -> definesGroup 1 r = true ->
  exists attrs', addCommonAttribute spanName attrs m = Ok attrs'.
Proof.
  intros Hg Hd. unfold addCommonAttribute.
  destruct (goodMatch_group Hg Hd) as [v Hv]. rewrite Hv. cbn [defined bind].
  destruct (_ || _ || _)%bool; [eauto|].
  destruct (existsb _ _); [|eauto].
  destruct (tracks_total v) as [x Hx]. rewrite Hx. cbn. eauto.
Qed.

Lemma commonAttributes_total spanName context a1 :
  exists attrs,
    (bulletMatches <- matchAll true bulletPattern context ;;
     attributes <- forEach bulletMatches a1 addBulletAttributes ;;
     forEach [backtickAttrPattern; boldAttrPattern] attributes
       (fun attributes pattern =>
          matches <- matchAll true pattern context ;;
          forEach matches attributes (addCommonAttribute spanName))) = Ok attrs.
Proof.
  destruct (matchAll_good bulletPattern context) as (l & Hl & Hgood).
  rewrite Hl. cbn [bind].
  destruct (@forEach_total _ _ _ _ addBulletAttributes Hgood
              (fun st x Hx => addBulletAttributes_total st Hx eq_refl) a1) as [a2 H2].
  rewrite H2. cbn [bind].
  apply (@forEach_total _ _ (fun p => p = backtickAttrPattern \/ p = boldAttrPattern) _ _).
  - constructor; [left; reflexivity | constructor; [right; reflexivity | constructor]].
  - intros st p Hp. destruct (matchAll_good p context) as (l' & Hl' & Hgood').
    rewrite Hl'. cbn [bind]. apply (@forEach_total _ _ _ _ _ Hgood'). intros st' x Hx.
    apply (addCommonAttribute_total spanName st' Hx).
    destruct Hp; subst; reflexivity.
Qed.

Lemma extractAttributes_total spanName text :
  exists attrs, extractAttributes spanName text = Ok attrs.
Proof.
  unfold extractAttributes. cbv zeta.
  destruct (indexOf text spanName =? -1)%Z; [eauto|].
  destruct (matchFirst attributesLinePattern _) as [m|] eqn:E.
  - apply matchFirst_good in E. destruct (goodMatch_group E eq_refl) as [v Hv].
    rewrite Hv. cbn [defined bind].
    destruct (matchAll_good backtickAttrPattern v) as (l & Hl & Hgood).
    rewrite Hl. cbn [bind].
    destruct (@forEach_total _ _ _ _ addLabelledAttribute Hgood
                (fun st x Hx => addLabelledAttribute_total st Hx eq_refl) []) as [a1 H1].
    rewrite H1. cbn [bind]. apply commonAttributes_total.
  - cbn [bind]. apply commonAttributes_total.
Qed.

Lemma codeBlockSpan_total text spans m :
  goodMatch codeBlockPattern m ->
  exists spans', codeBlockSpan toLowerCase text spans m = Ok spans'.
Proof.
  intros Hg. unfold codeBlockSpan.
  destruct (goodMatch_group Hg eq_refl) as [v Hv]. rewrite Hv. cbn [defined bind].
  destruct (negb (includes v [DOT])); [eauto|].
  destruct (extractDescription_total v text) as [d Hd]. rewrite Hd. cbn [bind].
  destruct (extractAttributes_total v text) as [a Ha]. rewrite Ha. cbn [bind]. eauto.
Qed.

Lemma explicitSpan_total text spans m :
  goodMatch explicitPattern m ->
  exists spans', explicitSpan toLowerCase text spans m = Ok spans'.
Proof.
  intros Hg. unfold explicitSpan.
  destruct (goodMatch_group Hg eq_refl) as [v Hv]. rewrite Hv. cbn [defined bind].
  destruct (negb (includes (toLowerCase v) [DOT])); [eauto|].
  destruct (existsb _ spans); [eauto|].
  destruct (extractDescription_total (toLowerCase v) text) as [d Hd]. rewrite Hd. cbn [bind].
  destruct (extractAttributes_total (toLowerCase v) text) as [a Ha]. rewrite Ha. cbn [bind].
  eauto.
Qed.

Lemma extractSpans_total text :
  exists spans, extractSpansFromText toLowerCase text = Ok spans.
Proof.
  unfold extractSpansFromText.
  destruct (matchAll_good codeBlockPattern text) as (l1 & Hl1 & Hg1). rewrite Hl1. cbn [bind].
  destruct (@forEach_total _ _ _ _ (codeBlockSpan toLowerCase text) Hg1
              (fun st x Hx => codeBlockSpan_total text st Hx) []) as [s1 H1].
  rewrite H1. cbn [bind].
  destruct (matchAll_good explicitPattern text) as (l2 & Hl2 & Hg2). rewrite Hl2. cbn [bind].
  apply (@forEach_total _ _ _ _ _ Hg2). intros st x Hx. now apply explicitSpan_total.
Qed.
End SpanTotality.

(** ** C9: totality of the span extractor *)

(** C9.  For every text, and whatever [toLowerCase] does, the extractor and
    its helpers return without throwing: no capture they read is undefined
    and every pattern given to [matchAll] is global.  When neither pattern
    matches, the result is the empty list. *)
Theorem C9_extractSpans_total (toLowerCase : jsstring -> jsstring) (text : jsstring) :
  (exists spans, extractSpansFromText toLowerCase text = Ok spans) /\
  (forall spanName, exists d, extractDescription spanName text = Ok d) /\
  (forall spanName, exists a, extractAttributes spanName text = Ok a) /\
  (matchAll true codeBlockPattern text = Ok [] ->
   matchAll true explicitPattern text = Ok [] ->
   extractSpansFromText toLowerCase text = Ok []).
Proof.
  split; [apply extractSpans_total|].
  split; [intros n; apply extractDescription_total|].
  split; [intros n; apply extractAttributes_total|].
  intros H1 H2. unfold extractSpansFromText. rewrite H1. cbn [bind forEach].
  rewrite H2. reflexivity.
Qed.

Lemma C9_witness :
  extractSpansFromText (map lowerAscii) ex_no_span = Ok [].
Proof.
  apply (proj2 (proj2 (proj2 (C9_extractSpans_total (map lowerAscii) ex_no_span))));
    vm_compute; reflexivity.
Defined.

(** ** C8: the PII keys are derived from the attributes *)

Lemma forEach_inv {A S} (I : S -> Prop) (l : list A) (body : S -> A -> result S) :
  (forall st x st', I st -> body st x = Ok st' -> I st') ->
  forall st r, I st -> forEach l st body = Ok r -> I r.
Proof.
  intros Hb. induction l as [|x l IH]; intros st r Hi H; cbn [forEach] in H.
  - inversion H; subst; exact Hi.
  - destruct (body st x) as [st'|e] eqn:E; cbn [bind] in H; [|discriminate].
    eapply IH; [|exact H]. eapply Hb; eauto.
Qed.

Section SpanPII.
Variable toLowerCase : jsstring -> jsstring.

Lemma codeBlockSpan_pii text spans m spans' :
  Forall (piiDerived toLowerCase) spans ->
  codeBlockSpan toLowerCase text spans m = Ok spans' ->
  Forall (piiDerived toLowerCase) spans'.
Proof.
  intros Hs. unfold codeBlockSpan.
  destruct (defined (group m 1)) as [v|e]; cbn [bind]; [|discriminate].
  destruct (negb (includes v [DOT])); [intros H; inversion H; subst; exact Hs|].
  destruct (extractDescription v text) as [d|e]; cbn [bind]; [|discriminate].
  destruct (extractAttributes v text) as [a|e]; cbn [bind]; [|discriminate].
  intros H; inversion H; subst. apply Forall_app. split; [exact Hs|].
  constructor; [reflexivity | constructor].
Qed.

Lemma explicitSpan_pii first text spans m spans' :
  (exists second, spans = first ++ second /\ Forall (fun s => pii s = []) second) ->
  explicitSpan toLowerCase text spans m = Ok spans' ->
  exists second, spans' = first ++ second /\ Forall (fun s => pii s = []) second.
Proof.
  intros Hs. unfold explicitSpan.
  destruct (defined (group m 1)) as [v|e]; cbn [bind]; [|discriminate].
  destruct (negb (includes (toLowerCase v) [DOT])); [intros H; inversion H; subst; exact Hs|].
  destruct (existsb _ spans); [intros H; inversion H; subst; exact Hs|].
  destruct (extractDescription (toLowerCase v) text) as [d|e]; cbn [bind]; [|discriminate].
  destruct (extractAttributes (toLowerCase v) text) as [a|e]; cbn [bind]; [|discriminate].
  intros H; inversion H; subst. destruct Hs as (second & -> & Hsec).
  eexists (second ++ [_]). split; [now rewrite app_assoc|].
  apply Forall_app. split; [exact Hsec|]. constructor; [reflexivity | constructor].
Qed.

Lemma extractSpans_passes text spans :
  extractSpansFromText toLowerCase text = Ok spans ->
  exists ms first second,
    matchAll true codeBlockPattern text = Ok ms /\
    forEach ms [] (codeBlockSpan toLowerCase text) = Ok first /\
    spans = first ++ second /\
    Forall (piiDerived toLowerCase) first /\
    Forall (fun s => pii s = []) second.
Proof.
  unfold extractSpansFromText. cbv zeta.
  destruct (matchAll true codeBlockPattern text) as [ms|e]; cbn [bind]; [|discriminate].
  destruct (forEach ms [] (codeBlockSpan toLowerCase text)) as [first|e] eqn:E1;
    cbn [bind]; [|discriminate].
  destruct (matchAll true explicitPattern text) as [ms2|e]; cbn [bind]; [|discriminate].
  intros H2.
  assert (H1 : Forall (piiDerived toLowerCase) first).
  { apply (@forEach_inv _ _ (Forall (piiDerived toLowerCase)) ms (codeBlockSpan toLowerCase text)
             (fun st x st' Hi Hb => @codeBlockSpan_pii text st x st' Hi Hb) [] first);
      [constructor | exact E1]. }
  destruct (@forEach_inv _ _
              (fun sp => exists second, sp = first ++ second /\
                                        Forall (fun s => pii s = []) second)
              ms2 (explicitSpan toLowerCase text)
              (fun st x st' Hi Hb => @explicitSpan_pii first text st x st' Hi Hb) first spans)
    as (second & Hsp & Hsec); [exists []; split; [now rewrite app_nil_r | constructor] | exact H2 |].
  exists ms, first, second. auto.
Qed.
End SpanPII.

(** C8.  Whatever the extractor returns is the spans of the first loop (the
    backtick pattern) followed by those of the second (the explicit
    mentions).  Each span of the first loop has as [pii.keys] exactly the keys
    of its [attributes], in the order of [Object.keys], whose lower-cased form
    contains one of the twenty keywords; each span of the second loop has no
    PII key; so in every span the PII keys are among the attribute keys. *)
Theorem C8_pii_keys_derived (toLowerCase : jsstring -> jsstring) (text : jsstring)
    (spans : list SpanDefinition) :
  extractSpansFromText toLowerCase text = Ok spans ->
  piiKeywords
  = map lit ["email"; "phone"; "address"; "ssn"; "card"; "password"; "token";
             "ip"; "street"; "city"; "zip"; "postal"; "credit"; "cvv";
             "billing"; "shipping_address"; "billing_address"; "name";
             "firstname"; "lastname"]%string /\
  exists ms first second,
    matchAll true codeBlockPattern text = Ok ms /\
    forEach ms [] (codeBlockSpan toLowerCase text) = Ok first /\
    spans = first ++ second /\
    Forall (fun s =>
              pii s = filter (fun k => existsb (includes (toLowerCase k)) piiKeywords)
                             (objectKeys (attributes s))) first /\
    Forall (fun s => pii s = []) second /\
    Forall (fun s => incl (pii s) (objectKeys (attributes s))) spans.
Proof.
  intros H. split; [reflexivity|].
  destruct (extractSpans_passes toLowerCase text H)
    as (ms & first & second & Hm & Hf & Hs & H1 & H2).
  exists ms, first, second. repeat split; auto.
  subst spans. apply Forall_app. split.
  - eapply Forall_impl; [|exact H1]. intros s Hd. unfold piiDerived in Hd.
    rewrite Hd. apply incl_filter.
  - eapply Forall_impl; [|exact H2]. intros s Hd. rewrite Hd. intros x [].
Qed.

Lemma C8_witness :
  exists s, extractSpansFromText (map lowerAscii) ex_pii = Ok [s] /\
            pii s = [lit "customer_email"] /\
            incl (pii s) (objectKeys (attributes s)).
Proof.
  assert (E : exists s, extractSpansFromText (map lowerAscii) ex_pii = Ok [s] /\
                        pii s = [lit "customer_email"]).
  { eexists. split; vm_compute; reflexivity. }
  destruct E as (s & E & Hp). exists s. split; [exact E|]. split; [exact Hp|].
  destruct (C8_pii_keys_derived (map lowerAscii) ex_pii E)
    as (_ & ms & first & second & _ & _ & _ & _ & _ & Hincl).
  inversion Hincl; subst. assumption.
Defined.

(** ** The extractor on ASCII texts *)

Lemma forEach_ext {A S} (l : list A) (b1 b2 : S -> A -> result S) :
  (forall st x, b1 st x = b2 st x) ->
  forall st, forEach l st b1 = forEach l st b2.
Proof.
  intros H. induction l as [|x l IH]; intros st; cbn [forEach]; [reflexivity|].
  rewrite H. destruct (b2 st x); cbn [bind]; auto.
Qed.

Section LowerCaseExt.
Variables f g : jsstring -> jsstring.
Hypothesis fg : forall s, f s = g s.

Lemma guessLayer_ext spanName context :
  guessLayer f spanName context = guessLayer g spanName context.
Proof. unfold guessLayer. now rewrite !fg. Qed.

Lemma detectPIIKeys_ext attrs : detectPIIKeys f attrs = detectPIIKeys g attrs.
Proof.
  unfold detectPIIKeys. apply filter_ext. intros k. unfold isPIIKey. now rewrite fg.
Qed.

Lemma codeBlockSpan_ext text spans m :
  codeBlockSpan f text spans m = codeBlockSpan g text spans m.
Proof.
  unfold codeBlockSpan. destruct (defined (group m 1)) as [v|e]; cbn [bind]; [|reflexivity].
  destruct (negb (includes v [DOT])); [reflexivity|].
  destruct (extractDescription v text); cbn [bind]; [|reflexivity].
  destruct (extractAttributes v text); cbn [bind]; [|reflexivity].
  now rewrite guessLayer_ext, detectPIIKeys_ext.
Qed.

Lemma explicitSpan_ext text spans m :
  explicitSpan f text spans m = explicitSpan g text spans m.
Proof.
  unfold explicitSpan. destruct (defined (group m 1)) as [v|e]; cbn [bind]; [|reflexivity].
  rewrite fg. destruct (negb (includes (g v) [DOT])); [reflexivity|].
  destruct (existsb _ spans); [reflexivity|].
  destruct (extractDescription (g v) text); cbn [bind]; [|reflexivity].
  destruct (extractAttributes (g v) text); cbn [bind]; [|reflexivity].
  now rewrite guessLayer_ext.
Qed.

Lemma extractSpans_ext text :
  extractSpansFromText f text = extractSpansFromText g text.
Proof.
  unfold extractSpansFromText. cbv zeta.
  destruct (matchAll true codeBlockPattern text) as [ms|e]; cbn [bind]; [|reflexivity].
  rewrite (forEach_ext ms (codeBlockSpan f text) (codeBlockSpan g text)
             (codeBlockSpan_ext text)).
  destruct (forEach ms [] (codeBlockSpan g text)); cbn [bind]; [|reflexivity].
  destruct (matchAll true explicitPattern text) as [ms2|e]; cbn [bind]; [|reflexivity].
  apply forEach_ext. apply explicitSpan_ext.
Qed.
End LowerCaseExt.

Lemma extractSpans_ascii toLowerCase text :
  lowersAscii toLowerCase ->
  extractSpansFromText toLowerCase text
  = extractSpansFromText (asciiFirst toLowerCase) text.
Proof.
  intros H. apply extractSpans_ext. intros s. unfold asciiFirst.
  destruct (isAsciiString s) eqn:E; [apply H; exact E | reflexivity].
Qed.

Lemma lowerAscii_lowers : lowersAscii (map lowerAscii).
Proof. intros s _. reflexivity. Qed.

(** ** C6: the basic case of the specification *)

(** C6, what the code does on the input of the claim.  The backtick pattern
    admits no underscore, so it does not match [checkout.validate_cart]; the
    explicit pattern then captures the name up to the underscore.  The one
    span returned is named [checkout.validate], not
    [checkout.validate_cart]. *)
Theorem C6_basic_case_actual (toLowerCase : jsstring -> jsstring) :
  lowersAscii toLowerCase ->
  extractSpansFromText toLowerCase ex_span = Ok [ex_span_found] /\
  matchAll true codeBlockPattern ex_span = Ok [] /\
  name ex_span_found <> lit "checkout.validate_cart".
Proof.
  intros H. split; [|split; [vm_compute; reflexivity | discriminate]].
  rewrite (extractSpans_ascii ex_span H). vm_compute. reflexivity.
Qed.

Lemma C6_witness :
  extractSpansFromText (map lowerAscii) ex_span = Ok [ex_span_found].
Proof. exact (proj1 (C6_basic_case_actual lowerAscii_lowers)). Defined.

(** ** C7: duplicates *)

(** C7, what the code does.  A name that the backtick pattern finds twice is
    returned twice: the first loop never looks at what it has already found.
    Only the second loop skips a name that is already in the list, as on the
    text that has the name once between backticks and once after the word
    span and a colon. *)
Theorem C7_duplicates_actual (toLowerCase : jsstring -> jsstring) :
  lowersAscii toLowerCase ->
  (exists s1 s2,
     extractSpansFromText toLowerCase ex_twice = Ok [s1; s2] /\
     name s1 = lit "cart.add" /\ name s2 = lit "cart.add") /\
  (exists s,
     extractSpansFromText toLowerCase ex_both_forms = Ok [s] /\
     name s = lit "payment.process").
Proof.
  intros H. split.
  - rewrite (extractSpans_ascii ex_twice H).
    eexists. eexists. split; [vm_compute; reflexivity|]. split; reflexivity.
  - rewrite (extractSpans_ascii ex_both_forms H).
    eexists. split; [vm_compute; reflexivity|]. reflexivity.
Qed.

Lemma C7_witness :
  exists s1 s2,
    extractSpansFromText (map lowerAscii) ex_twice = Ok [s1; s2] /\
    name s1 = lit "cart.add" /\ name s2 = lit "cart.add".
Proof. exact (proj1 (C7_duplicates_actual lowerAscii_lowers)). Defined.

(** ** C2: the repair of a backtick-delimited value *)

Lemma joinWith_cons sep l : forall x,
  joinWith sep (x :: l) = x ++ flat_map (fun y => sep ++ y) l.
Proof.
  induction l as [|z l IH]; intros x.
  - cbn. now rewrite app_nil_r.
  - change (joinWith sep (x :: z :: l)) with (x ++ sep ++ joinWith sep (z :: l)).
    rewrite IH. cbn [flat_map]. now rewrite <- !app_assoc.
Qed.

Lemma joinWith_middle sep l1 x l2 :
  joinWith sep (l1 ++ x :: l2)
  = flat_map (fun y => y ++ sep) l1 ++ x ++ flat_map (fun y => sep ++ y) l2.
Proof.
  induction l1 as [|y l1 IH].
  - cbn [app flat_map]. apply joinWith_cons.
  - cbn [app flat_map]. rewrite joinWith_cons.
    destruct l1 as [|y' l1].
    + cbn [app flat_map]. rewrite <- !app_assoc. reflexivity.
    + cbn [app] in IH |- *. rewrite joinWith_cons in IH. cbn [flat_map].
      rewrite <- !app_assoc. f_equal. f_equal.
      cbn [flat_map] in IH. rewrite <- !app_assoc in IH. rewrite <- IH.
      reflexivity.
Qed.

Lemma render_objectWith w0 ms1 h x wv ms2 :
  render (objectWith w0 ms1 h x wv ms2)
  = beforeValue w0 ms1 h ++ ([COLON] ++ afterColon h ++ render x) ++ afterValue wv ms2.
Proof.
  unfold objectWith, beforeValue, afterValue. rewrite render_object.
  rewrite map_app. cbn [map]. rewrite joinWith_middle.
  rewrite !flat_map_concat_map, !map_map. cbn [renderMember]. unfold renderHead.
  cbn [closerOf N.eqb LBRACE Pos.eqb]. rewrite <- !flat_map_concat_map.
  cbn [app]. rewrite <- !app_assoc. cbn [app]. reflexivity.
Qed.

Lemma wfValue_objectWith w0 ms1 h x wv ms2 :
  wfValue (objectWith w0 ms1 h x wv ms2)
  = (wfValue (objectWith w0 ms1 h JNull wv ms2) && wfValue x)%bool.
Proof.
  unfold objectWith. cbn [wfValue]. rewrite !forallb_app. cbn [forallb wfValue].
  destruct (allWs w0), (forallb _ ms1), (wfHead h), (wfValue x), (allWs wv),
    (forallb _ ms2); reflexivity.
Qed.

Lemma lastField_middle k x l1 l2 :
  Forall (fun kv => eqs k (fst kv) = false) l2 ->
  lastField k (l1 ++ (k, x) :: l2) = Some x.
Proof.
  intros H. induction l1 as [|[k' y] l1 IH]; cbn [app lastField].
  - assert (Hn : lastField k l2 = None).
    { induction H as [|[k2 y2] l2 Hk _ IH2]; [reflexivity|].
      cbn [lastField]. rewrite IH2. cbn [fst] in Hk. now rewrite Hk. }
    now rewrite Hn, eqs_refl.
  - now rewrite IH.
Qed.

Lemma wfValue_spaced w0 ms1 h x wv ms2 :
  wfValue (objectWith w0 ms1 h x wv ms2) = true ->
  wfValue (objectWith w0 ms1 (spaced h) x wv ms2) = true.
Proof.
  unfold objectWith. cbn [wfValue]. rewrite !forallb_app. cbn [forallb].
  intros H.
  apply andb_true_iff in H. destruct H as [Hw0 H].
  apply andb_true_iff in H. destruct H as [Hm1 H].
  apply andb_true_iff in H. destruct H as [Hm Hm2].
  apply andb_true_iff in Hm. destruct Hm as [Hm Hwv].
  apply andb_true_iff in Hm. destruct Hm as [Hh Hx].
  unfold wfHead in Hh.
  apply andb_true_iff in Hh. destruct Hh as [Hh _].
  apply andb_true_iff in Hh. destruct Hh as [Hh Hak].
  apply andb_true_iff in Hh. destruct Hh as [Hbk Hk].
  rewrite Hw0, Hm1, Hm2, Hwv, Hx.
  unfold wfHead. cbn [spaced beforeKey key afterKey afterColon].
  rewrite Hbk, Hk, Hak. reflexivity.
Qed.

(** C2, as amended.  Take a raw response that is a JSON object but for one
    member, whose value [c] stands between backticks after the colon and
    optional white space; [c] has no backtick (it may have quotes, newlines
    and any control character); before that member no colon is followed by
    optional white space and a backtick, and after it no colon is followed
    by optional white space and a backtick-delimited text.  Then the repair
    rewrites the colon, the white space and the delimited value to a colon,
    a space and the escaped value between double quotes;
    [extractJsonFromResponse] returns the whole repaired object; this text
    is valid JSON, and the member [JSON.parse] gives it under that key is the
    string [c] itself, provided no later member has the same key.  The
    escaping is that of [escapeChar]: the two-character escapes for the
    quote, the backslash and the five standard control characters, and
    [\u00XX] for the other code units of U+0000-U+001F and U+007F-U+009F. *)
Theorem C2_backtick_value_repaired
    (w1 w0 : jsstring) (ms1 : list (memberHead * jvalue * jsstring))
    (h : memberHead) (w c wv : jsstring)
    (ms2 : list (memberHead * jvalue * jsstring)) (w2 : jsstring) :
  let raw := beforeValue w0 ms1 h ++ siteText w c ++ afterValue wv ms2 in
  let repaired := objectWith w0 ms1 (spaced h) (JString (map encodeChar c)) wv ms2 in
  allWs w1 = true -> allWs w2 = true ->
  wfValue (objectWith w0 ms1 h JNull wv ms2) = true ->
  forallb isWhiteSpace w = true ->
  ~ In BACKTICK c ->
  hasSiteStart (beforeValue w0 ms1 h) = false ->
  hasSite (afterValue wv ms2) = false ->
  Forall (fun m => eqs (decodeString (key h))
                       (decodeString (key (fst (fst m)))) = false) ms2 ->
  repairBackticks raw
  = Ok (beforeValue w0 ms1 h ++ (lit ": '" ++ flat_map escapeUnit c ++ lit "'")
        ++ afterValue wv ms2) /\
  extractJsonFromResponse (w1 ++ raw ++ w2) = Ok (render repaired) /\
  JSONparse (render repaired) (denote repaired) /\
  field (decodeString (key h)) (denote repaired) = Some (VString c).
Proof.
  intros raw repaired H1 H2 Hwf Hw Hc Hpre Hpost Hkeys.
  destruct (escapeText_literal c) as (Hesc & Hitems & Hdec).
  assert (Hrep : repairBackticks raw
                 = Ok (beforeValue w0 ms1 h ++ (lit ": '" ++ escapeText c ++ lit "'")
                       ++ afterValue wv ms2))
    by (apply repairBackticks_site; assumption).
  assert (Hrender : render repaired
                    = beforeValue w0 ms1 h ++ (lit ": '" ++ escapeText c ++ lit "'")
                      ++ afterValue wv ms2).
  { unfold repaired. rewrite render_objectWith. cbn [spaced afterColon render].
    unfold renderString. rewrite Hesc.
    change (beforeValue w0 ms1 (spaced h)) with (beforeValue w0 ms1 h).
    f_equal. }
  assert (Hwfr : wfValue repaired = true).
  { unfold repaired. rewrite wfValue_objectWith. cbn [wfValue]. rewrite Hitems.
    rewrite andb_true_r. apply wfValue_spaced. exact Hwf. }
  split; [exact Hrep|]. split; [|split].
  - unfold extractJsonFromResponse.
    assert (Hst : stripFences (w1 ++ raw ++ w2) = raw).
    { eapply (@stripFences_bare w1 raw w2 LBRACE _ _ RBRACE);
        auto using allWs_whitespace; try discriminate; try reflexivity.
      unfold raw, afterValue. rewrite !app_assoc. reflexivity. }
    rewrite Hst, Hrep. cbn [bind]. rewrite <- Hrender.
    apply locateJson_valid; [exact Hwfr | reflexivity].
  - exists [], repaired, []. rewrite app_nil_r. repeat split; auto.
  - unfold repaired, objectWith. cbn [denote field]. rewrite map_app. cbn [map].
    cbn [spaced key].
    change (denote (JString (map encodeChar c)))
      with (VString (decodeString (map encodeChar c))).
    rewrite Hdec. apply lastField_middle.
    rewrite Forall_map. eapply Forall_impl; [|exact Hkeys].
    intros [[h' x'] w'] Hk. exact Hk.
Qed.

Lemma C2_witness :
  extractJsonFromResponse ex_code
  = Ok (lit "{'code': " ++ renderString (map encodeChar ex_code_interior) ++ lit "}") /\
  field (lit "code")
    (denote (objectWith [] [] (mkHead [] codeKey [] [SPACE])
               (JString (map encodeChar ex_code_interior)) [] []))
  = Some (VString ex_code_interior).
Proof.
  destruct (@C2_backtick_value_repaired [] [] [] (mkHead [] codeKey [] [SPACE])
              [SPACE] ex_code_interior [] [] [])
    as (_ & He & _ & Hf); try reflexivity.
  - intros H. vm_compute in H. repeat (destruct H as [H|H]; [discriminate|]). exact H.
  - constructor.
  - split; [exact He | exact Hf].
Defined.

(** The claim C2 as stated fails when another string of the object has a
    colon, white space and a backtick: with the code value properly quoted
    the text is valid JSON whose [code] member is the interior of the
    specification's example, with its quote and its newline; with the value
    between backticks the extraction throws. *)
Lemma C2_counterexample :
  (exists v, JSONparse ex_note_quoted v /\
             field (lit "code") v = Some (VString ex_code_interior)) /\
  In DQUOTE ex_code_interior /\ In LF ex_code_interior /\
  extractJsonFromResponse ex_note_site = Throw incompleteJson.
Proof.
  split; [|split; [|split]].
  - exists (denote (JObject []
              [(mkHead [] [Plain 110; Plain 111; Plain 116; Plain 101] [] [SPACE],
                JString (map Plain (lit "see: `x")), []);
               (mkHead [SPACE] codeKey [] [SPACE],
                JString (map encodeChar ex_code_interior), [])])).
    split; [|vm_compute; reflexivity].
    eexists [], _, []. repeat split; try reflexivity.
  - vm_compute. tauto.
  - vm_compute. tauto.
  - vm_compute. reflexivity.
Qed.

(** ** C10: the inline extraction of the plan against the shared routine *)

Lemma planJsonText_valid_bare w1 v w2 :
  allWs w1 = true -> allWs w2 = true ->
  wfValue v = true -> isContainer v = true ->
  planJsonText (w1 ++ render v ++ w2) = Ok (render v).
Proof.
  intros H1 H2 Hwf Hc. unfold planJsonText, planUnfence.
  rewrite trim_tight; auto using allWs_whitespace, tight_container.
  destruct (container_head v Hc) as (o & tl & Ho & Hr).
  replace (startsWith (render v) FENCE) with false.
  - cbn [bind]. rewrite planSkipProse_valid, planCutTail_valid by assumption.
    reflexivity.
  - rewrite Hr. symmetry. apply startsWith_head_neq.
    unfold isOpener in Ho. apply orb_true_iff in Ho.
    destruct Ho as [E|E]; apply N.eqb_eq in E; subst; discriminate.
Qed.

(** A lazy star of any code unit runs over a text at no point of which the
    continuation succeeds. *)
Lemma starLoop_lazy_skip R (k : jsstring -> nat -> captures -> option R) :
  forall c rest n pos caps x,
    (forall l1 y l2, c = l1 ++ y :: l2 ->
       k (y :: l2 ++ rest) (pos + length l1) caps = None) ->
    length c <= n ->
    k rest (pos + length c) caps = Some x ->
    starLoop (bodyOf anyChar) false k n (c ++ rest) pos caps = Some x.
Proof.
  induction c as [|y c IH]; intros rest n pos caps x Hfail Hn Hx.
  - cbn [length] in Hx. rewrite Nat.add_0_r in Hx.
    destruct n; cbn [app starLoop]; rewrite Hx; reflexivity.
  - destruct n as [|n]; [cbn in Hn; lia|]. cbn [length] in Hn.
    cbn [app starLoop].
    pose proof (Hfail [] y c eq_refl) as H0. cbn [length app] in H0.
    rewrite Nat.add_0_r in H0. rewrite H0.
    cbn [rmatch anyChar]. rewrite succ_neq. apply IH; [|lia|].
    + intros l1 z l2 E. specialize (Hfail (y :: l1) z l2).
      cbn [length app] in Hfail. rewrite <- Hfail by (now rewrite E).
      f_equal. lia.
    + rewrite <- Hx. f_equal. cbn [length]. lia.
Qed.

Lemma rmatch_seq R a b s p c (k : jsstring -> nat -> captures -> option R) :
  rmatch (Seq a b) s p c k
  = rmatch a s p c (fun s1 p1 c1 => rmatch b s1 p1 c1 k).
Proof. reflexivity. Qed.

Lemma word_wants_prefix R w : forall s p c (k : jsstring -> nat -> captures -> option R),
  startsWith s w = false -> rmatch (word w) s p c k = None.
Proof.
  induction w as [|x w IH]; intros s p c k H; [discriminate|].
  cbn [word]. rewrite rmatch_seq. cbn [rmatch chr].
  destruct s as [|y s]; [reflexivity|]. cbn [startsWith] in H.
  rewrite N.eqb_sym. destruct (N.eqb y x); [|reflexivity]. now apply IH.
Qed.

Lemma fenceCloseK_fails from text y r p c :
  startsWith (y :: r) FENCE = false ->
  startsWith r FENCE = false ->
  fenceCloseK from text (y :: r) p c = None.
Proof.
  intros Hy Hr. unfold fenceCloseK. rewrite rmatch_seq. cbn [rmatch opt chr].
  rewrite (word_wants_prefix FENCE (y :: r)) by exact Hy.
  destruct (N.eqb LF y); [|reflexivity].
  now rewrite word_wants_prefix.
Qed.

Lemma startsWith_fence_app l r :
  startsWith (l ++ LF :: r) FENCE = startsWith l FENCE.
Proof.
  destruct l as [|a [|b [|c l]]]; cbn; rewrite ?andb_false_r; reflexivity.
Qed.

Lemma indexOfFrom_found p s : forall i l1 l2,
  (0 <= i)%Z -> s = l1 ++ l2 -> startsWith l2 p = true ->
  (0 <= indexOfFrom s p i)%Z.
Proof.
  induction s as [|c t IH]; intros i l1 l2 Hi Hs Hp.
  - destruct l1; [|discriminate]. cbn [app] in Hs. subst l2.
    cbn [indexOfFrom]. now rewrite Hp.
  - cbn [indexOfFrom]. destruct (startsWith (c :: t) p) eqn:E; [exact Hi|].
    destruct l1 as [|x l1]; cbn [app] in Hs.
    + subst l2. congruence.
    + injection Hs as _ Ht. apply (IH (i + 1)%Z l1 l2); [lia | exact Ht | exact Hp].
Qed.

Lemma includes_inside p l1 l2 :
  startsWith l2 p = true -> includes (l1 ++ l2) p = true.
Proof.
  intros H. unfold includes, indexOf. apply Z.leb_le.
  now apply (@indexOfFrom_found p (l1 ++ l2) 0 l1 l2).
Qed.

Lemma fenceCloseK_end from text p c :
  fenceCloseK from text endFence p c
  = Some ([], p + 4, (1, firstn (p - from) text) :: c).
Proof.
  unfold fenceCloseK, finalK. cbn. do 3 f_equal. lia.
Qed.

Lemma rmatch_alt_first R a b s p c (k : jsstring -> nat -> captures -> option R) x :
  rmatch a s p c k = Some x -> rmatch (Alt a b) s p c k = Some x.
Proof. intros H. cbn [rmatch]. now rewrite H. Qed.

Lemma word_match R w : forall rest p c (k : jsstring -> nat -> captures -> option R),
  rmatch (word w) (w ++ rest) p c k = k rest (p + length w) c.
Proof.
  induction w as [|x w IH]; intros rest p c k.
  - cbn. now rewrite Nat.add_0_r.
  - cbn [word app length]. rewrite rmatch_seq. cbn [rmatch chr].
    rewrite N.eqb_refl, IH. f_equal. lia.
Qed.

Lemma starLoop_ws_step R (k : jsstring -> nat -> captures -> option R) n c t pos caps :
  isWhiteSpace c = true ->
  starLoop (bodyOf ws) true k (S n) (c :: t) pos caps
  = match starLoop (bodyOf ws) true k n t (S pos) caps with
    | Some x => Some x
    | None => k (c :: t) pos caps
    end.
Proof. intros H. cbn [starLoop rmatch ws]. rewrite H, succ_neq. reflexivity. Qed.

Lemma starLoop_ws_stop R (k : jsstring -> nat -> captures -> option R) n c t pos caps :
  isWhiteSpace c = false ->
  starLoop (bodyOf ws) true k n (c :: t) pos caps = k (c :: t) pos caps.
Proof. intros H. destruct n; cbn [starLoop rmatch ws]; rewrite ?H; reflexivity. Qed.

Lemma fencedBlock_match T o tl :
  T = o :: tl -> isWhiteSpace o = false -> includes T FENCE = false ->
  exists m, matchFirst fencedBlockPattern (fenced T) = Some m /\
            group m 1 = Some T.
Proof.
  intros HT Ho Hnb.
  assert (Hk : fenceBodyK (T ++ endFence) 8 []
               = Some ([], 8 + length T + 4, [(1, T)])).
  { unfold fenceBodyK. rewrite HT at 1. rewrite rmatch_seq. cbn [app rmatch opt chr].
    replace (N.eqb LF o) with false
      by (symmetry; apply N.eqb_neq; intros E; subst o; discriminate).
    change (o :: tl ++ endFence) with ((o :: tl) ++ endFence). rewrite <- HT.
    change (starLoop (bodyOf anyChar) false (fenceCloseK 8 (T ++ endFence))
              (length (T ++ endFence)) (T ++ endFence) 8 []
            = Some ([], 8 + length T + 4, [(1, T)])).
    apply starLoop_lazy_skip.
    - intros l1 y l2 E. apply fenceCloseK_fails.
      + change (y :: l2 ++ endFence) with ((y :: l2) ++ LF :: FENCE).
        rewrite startsWith_fence_app.
        destruct (startsWith (y :: l2) FENCE) eqn:Ey; [|reflexivity].
        rewrite E, (includes_inside FENCE l1 (y :: l2) Ey) in Hnb. discriminate.
      + change (l2 ++ endFence) with (l2 ++ LF :: FENCE).
        rewrite startsWith_fence_app.
        destruct (startsWith l2 FENCE) eqn:Ey; [|reflexivity].
        replace (l1 ++ y :: l2) with ((l1 ++ [y]) ++ l2) in E
          by (rewrite <- app_assoc; reflexivity).
        rewrite E, (includes_inside FENCE (l1 ++ [y]) l2 Ey) in Hnb. discriminate.
    - rewrite length_app. lia.
    - rewrite fenceCloseK_end. do 3 f_equal.
      replace (8 + length T - 8) with (length T) by lia.
      now rewrite firstn_app, firstn_all, Nat.sub_diag, app_nil_r. }
  assert (Hin : starLoop (bodyOf ws) true fenceBodyK (length (LF :: T ++ endFence))
                  (LF :: T ++ endFence) 7 []
                = Some ([], 8 + length T + 4, [(1, T)])).
  { cbn [length]. rewrite starLoop_ws_step by reflexivity.
    rewrite HT at 1 2. cbn [app]. rewrite starLoop_ws_stop by exact Ho.
    change (o :: tl ++ endFence) with ((o :: tl) ++ endFence). rewrite <- HT.
    now rewrite Hk. }
  assert (Hm : rmatch fencedBlockPattern (fenced T) 0 [] finalK
               = Some ([], 8 + length T + 4, [(1, T)])).
  { unfold fencedBlockPattern. rewrite rmatch_seq.
    change (fenced T) with (FENCE ++ (lit "json" ++ LF :: T ++ endFence)).
    rewrite word_match, rmatch_seq. apply rmatch_alt_first.
    rewrite word_match. exact Hin. }
  unfold matchFirst. rewrite execFrom_unfold, Hm. eexists. split; reflexivity.
Qed.

Lemma planJsonText_valid_fenced v :
  wfValue v = true -> isContainer v = true -> includes (render v) FENCE = false ->
  planJsonText (fenced (render v)) = Ok (render v).
Proof.
  intros Hwf Hc Hnb. unfold planJsonText, planUnfence.
  assert (Htr : trim (fenced (render v)) = fenced (render v)).
  { pose proof (@trim_tight [] (fenced (render v)) [] eq_refl eq_refl) as H.
    rewrite app_nil_r in H. apply H. split.
    - exists BACKTICK. eexists. split; reflexivity.
    - exists (jsonFence ++ render v ++ [LF; BACKTICK; BACKTICK]), BACKTICK.
      split; [|reflexivity]. unfold fenced. rewrite <- !app_assoc. reflexivity. }
  rewrite Htr. change (startsWith (fenced (render v)) FENCE) with true. cbv iota.
  destruct (tight_container v Hc) as [(o & tl & Hr & Ho) _].
  destruct (fencedBlock_match Hr Ho Hnb) as (m & Hm & Hg).
  rewrite Hm, Hg. cbn [defined bind].
  pose proof (@trim_tight [] (render v) [] eq_refl eq_refl (tight_container v Hc)) as Ht.
  rewrite app_nil_r in Ht. cbn [app] in Ht. rewrite Ht.
  now rewrite planSkipProse_valid, planCutTail_valid.
Qed.

(** C10, as amended.  The inline extraction of [generateInstrumentationPlan]
    is a routine of its own; it agrees with [extractJsonFromResponse] on the
    replies that are a valid JSON object or array in which no colon is
    followed by optional white space and a backtick-delimited text: on such
    a reply with white space around it, and on such a reply without a run
    of three backticks between a json-tagged fence and a closing fence,
    both give the text of the object or array. *)
Theorem C10_plan_agrees_on_valid_json w1 v w2 :
  allWs w1 = true -> allWs w2 = true ->
  wfValue v = true -> isContainer v = true -> hasSite (render v) = false ->
  (planJsonText (w1 ++ render v ++ w2) = Ok (render v) /\
   extractJsonFromResponse (w1 ++ render v ++ w2) = Ok (render v)) /\
  (includes (render v) FENCE = false ->
   planJsonText (fenced (render v)) = Ok (render v) /\
   extractJsonFromResponse (fenced (render v)) = Ok (render v)).
Proof.
  intros H1 H2 Hwf Hc Hs. split; [split|].
  - now apply planJsonText_valid_bare.
  - now apply extractJson_valid_bare.
  - intros Hnb. split.
    + now apply planJsonText_valid_fenced.
    + now apply extractJson_valid_fenced.
Qed.

Lemma C10_witness :
  planJsonText ([SPACE] ++ render ex_pair_tree ++ [LF])
  = extractJsonFromResponse ([SPACE] ++ render ex_pair_tree ++ [LF]) /\
  planJsonText (fenced (render ex_pair_tree))
  = extractJsonFromResponse (fenced (render ex_pair_tree)).
Proof.
  destruct (@C10_plan_agrees_on_valid_json [SPACE] ex_pair_tree [LF])
    as [[Ha Hb] Hf]; try reflexivity.
  split; [now rewrite Ha, Hb|].
  destruct Hf as [Hc Hd].
  - reflexivity.
  - now rewrite Hc, Hd.
Defined.

(** The claim C10 as stated fails: on the reply with a backtick-delimited
    value the inline extraction leaves the backticks where the shared
    routine writes a JSON string, and on a brace closed by a bracket the
    inline extraction, which has one counter for both, returns the text where
    the shared routine throws. *)
Lemma C10_counterexample :
  (planJsonText ex_code = Ok ex_code /\
   extractJsonFromResponse ex_code
   = Ok (lit "{'code': " ++ renderString (map encodeChar ex_code_interior) ++ lit "}") /\
   planJsonText ex_code <> extractJsonFromResponse ex_code) /\
  (planJsonText ex_mismatched = Ok ex_mismatched /\
   extractJsonFromResponse ex_mismatched = Throw incompleteJson).
Proof.
  split; [split; [|split]|split]; try (vm_compute; reflexivity).
  vm_compute. discriminate.
Qed.

(** ** Instances of C1 and C4 *)

Lemma C1_witness : extractJsonFromResponse ex_prose = Throw noJsonFound.
Proof.
  destruct (proj1 C1_extractJson_fails_exactly ex_prose) as (cleaned & Hc & Hno & _).
  apply Hno. vm_compute in Hc. injection Hc as <-.
  split; intros H; vm_compute in H;
    repeat (destruct H as [H|H]; [discriminate|]); exact H.
Defined.


(** ** Prose around a JSON text *)

Lemma dropWhile_app_stop p (t y : jsstring) b u :
  dropWhile p t = b :: u -> dropWhile p (t ++ y) = b :: u ++ y.
Proof.
  induction t as [|c t IH]; cbn [dropWhile app]; [discriminate|].
  destruct (p c) eqn:E.
  - exact IH.
  - intros H. injection H as <- <-. reflexivity.
Qed.

Lemma siteAt_app s y : siteAt s = true -> siteAt (s ++ y) = true.
Proof.
  destruct s as [|c t]; [discriminate|]. cbn [siteAt app].
  intros H. apply andb_true_iff in H. destruct H as [Hc H]. rewrite Hc. cbn [andb].
  destruct (dropWhile isWhiteSpace t) as [|b u] eqn:E; [discriminate|].
  rewrite (dropWhile_app_stop _ _ y E).
  apply andb_true_iff in H. destruct H as [Hb Hu]. rewrite Hb. cbn [andb].
  rewrite existsb_app, Hu. reflexivity.
Qed.

Lemma hasSite_app_r x s : hasSite (x ++ s) = false -> hasSite s = false.
Proof.
  induction x as [|c x IH]; cbn [app]; [auto|].
  cbn [hasSite]. intros H. apply orb_false_iff in H. apply IH, H.
Qed.

Lemma hasSite_app_l s y : hasSite (s ++ y) = false -> hasSite s = false.
Proof.
  induction s as [|c s IH]; [reflexivity|].
  change ((c :: s) ++ y) with (c :: (s ++ y)).
  cbn [hasSite]. intros H. apply orb_false_iff in H. destruct H as [H1 H2].
  rewrite (IH H2), orb_false_r.
  destruct (siteAt (c :: s)) eqn:E; [|reflexivity].
  apply (siteAt_app _ y) in E. cbn [app] in E. congruence.
Qed.


Lemma dropWhile_before p a R o r :
  R = o :: r -> p o = false ->
  exists x a', a = x ++ a' /\ dropWhile p (a ++ R) = a' ++ R.
Proof.
  intros HR Ho. induction a as [|c a IH].
  - exists [], []. split; [reflexivity|]. cbn [app]. rewrite HR. cbn [dropWhile].
    now rewrite Ho.
  - cbn [app dropWhile]. destruct (p c) eqn:E.
    + destruct IH as (x & a' & Ha & Hd). exists (c :: x), a'.
      split; [now rewrite Ha | exact Hd].
    + exists [], (c :: a). split; reflexivity.
Qed.

Lemma around_trimStart pre T post s o tl :
  T = o :: tl -> isWhiteSpace o = false ->
  aroundText pre T post s -> aroundText pre T post (trimStart s).
Proof.
  intros HT Ho (x & pre' & post' & y & Hp & Hq & Hs). subst s.
  destruct (@dropWhile_before isWhiteSpace pre' (T ++ post') o (tl ++ post'))
    as (x' & a' & Ha & Hd); [now rewrite HT | exact Ho |].
  exists (x ++ x'), a', post', y. unfold trimStart. rewrite Hd.
  split; [|split]; auto. now rewrite Hp, Ha, app_assoc.
Qed.

Lemma around_trimEnd pre T post s hd c :
  T = hd ++ [c] -> isWhiteSpace c = false ->
  aroundText pre T post s -> aroundText pre T post (trimEnd s).
Proof.
  intros HT Hc (x & pre' & post' & y & Hp & Hq & Hs). subst s.
  unfold trimEnd. rewrite !rev_app_distr, <- app_assoc.
  destruct (@dropWhile_before isWhiteSpace (rev post') (rev T ++ rev pre') c
              (rev hd ++ rev pre'))
    as (x' & a' & Ha & Hd); [now rewrite HT, rev_app_distr | exact Hc |].
  rewrite Hd. exists x, pre', (rev a'), (rev x' ++ y).
  split; [exact Hp|]. split.
  - rewrite Hq, app_assoc. f_equal.
    rewrite <- rev_app_distr, <- Ha. now rewrite rev_involutive.
  - rewrite !rev_app_distr, !rev_involutive, <- app_assoc. reflexivity.
Qed.

Lemma startsWith_before p : forall a o r,
  ~ In o p -> startsWith (a ++ o :: r) p = true -> exists a', a = p ++ a'.
Proof.
  induction p as [|x p IH]; intros a o r Hn H.
  - exists a. reflexivity.
  - destruct a as [|c a]; cbn [app startsWith] in H.
    + apply andb_true_iff in H. destruct H as [H _]. apply N.eqb_eq in H.
      exfalso. apply Hn. now left.
    + apply andb_true_iff in H. destruct H as [Hc H]. apply N.eqb_eq in Hc. subst c.
      destruct (IH a o r) as (a' & Ha); [intros Hi; apply Hn; now right | exact H |].
      exists a'. now rewrite Ha.
Qed.

Lemma around_dropPrefix pre T post s p o tl :
  T = o :: tl -> ~ In o p -> startsWith s p = true ->
  aroundText pre T post s -> aroundText pre T post (substringFrom s (len p)).
Proof.
  intros HT Hn Hsw (x & pre' & post' & y & Hp & Hq & Hs). subst s.
  rewrite HT in Hsw. change ((o :: tl) ++ post') with (o :: tl ++ post') in Hsw.
  destruct (@startsWith_before p pre' o (tl ++ post') Hn Hsw) as (a' & Ha).
  exists (x ++ p), a', post', y. split; [|split]; auto.
  - now rewrite Hp, Ha, app_assoc.
  - rewrite Ha, <- app_assoc. apply substringFrom_app.
Qed.

Lemma around_dropSuffix pre T post s p hd c :
  T = hd ++ [c] -> ~ In c p -> p <> [] -> endsWith s p = true ->
  aroundText pre T post s -> aroundText pre T post (slice s 0 (- len p)).
Proof.
  intros HT Hn Hne Hew (x & pre' & post' & y & Hp & Hq & Hs). subst s.
  unfold endsWith in Hew. rewrite !rev_app_distr, <- app_assoc in Hew.
  rewrite HT, rev_app_distr in Hew. cbn [rev app] in Hew.
  destruct (@startsWith_before (rev p) (rev post') c (rev hd ++ rev pre'))
    as (a' & Ha); [rewrite <- in_rev; exact Hn | exact Hew |].
  assert (Hpost : post' = rev a' ++ p).
  { rewrite <- (rev_involutive post'), Ha, rev_app_distr. now rewrite rev_involutive. }
  exists x, pre', (rev a'), (p ++ y). split; [exact Hp|]. split.
  - now rewrite Hq, Hpost, app_assoc.
  - rewrite Hpost. rewrite !app_assoc. rewrite slice_drop_end by exact Hne.
    reflexivity.
Qed.

Lemma stripFences_around pre T post o tl hd c :
  T = o :: tl -> isOpener o = true -> T = hd ++ [c] -> isCloser c = true ->
  aroundText pre T post (stripFences (pre ++ T ++ post)).
Proof.
  intros HT Ho HT' Hc.
  assert (Hwo : isWhiteSpace o = false /\ ~ In o (lit "```json") /\ ~ In o (lit "```")).
  { unfold isOpener in Ho. apply orb_true_iff in Ho.
    destruct Ho as [E|E]; apply N.eqb_eq in E; subst o;
      (split; [reflexivity|]); split; intros H; cbn in H;
      repeat (destruct H as [H|H]; [discriminate|]); exact H. }
  assert (Hwc : isWhiteSpace c = false /\ ~ In c (lit "```")).
  { unfold isCloser in Hc. apply orb_true_iff in Hc.
    destruct Hc as [E|E]; apply N.eqb_eq in E; subst c;
      (split; [reflexivity|]); intros H; cbn in H;
      repeat (destruct H as [H|H]; [discriminate|]); exact H. }
  destruct Hwo as (Hwo & Hj & Hf). destruct Hwc as (Hwc & Hcf).
  assert (Htrim : forall s, aroundText pre T post s -> aroundText pre T post (trim s)).
  { intros s Hs. unfold trim. eapply around_trimEnd; eauto.
    eapply around_trimStart; eauto. }
  unfold stripFences. apply Htrim.
  assert (H0 : aroundText pre T post (trim (pre ++ T ++ post))).
  { apply Htrim. exists [], pre, post, []. rewrite app_nil_r. auto. }
  set (s0 := trim (pre ++ T ++ post)) in *.
  assert (H1 : aroundText pre T post
                 (if startsWith s0 (lit "```json") then substringFrom s0 7
                  else if startsWith s0 (lit "```") then substringFrom s0 3
                  else s0)).
  { destruct (startsWith s0 (lit "```json")) eqn:E1.
    - apply (@around_dropPrefix pre T post s0 (lit "```json") o tl); auto.
    - destruct (startsWith s0 (lit "```")) eqn:E2; [|exact H0].
      apply (@around_dropPrefix pre T post s0 (lit "```") o tl); auto. }
  set (s1 := if startsWith s0 (lit "```json") then _ else _) in *.
  destruct (endsWith s1 (lit "```")) eqn:E3; [|exact H1].
  apply (@around_dropSuffix pre T post s1 (lit "```") hd c); auto. discriminate.
Qed.

Lemma fromStartToken_skip pre o r :
  ~ In LBRACE pre -> ~ In LBRACKET pre -> isOpener o = true ->
  fromStartToken (pre ++ o :: r) = o :: r.
Proof.
  intros H1 H2 Ho. induction pre as [|c pre IH]; cbn [app fromStartToken].
  - unfold isOpener in Ho. now rewrite Ho.
  - destruct (N.eqb_spec c LBRACE) as [E|E]; [exfalso; apply H1; now left|].
    destruct (N.eqb_spec c LBRACKET) as [E'|E']; [exfalso; apply H2; now left|].
    cbn [orb]. apply IH; intros H; [apply H1 | apply H2]; now right.
Qed.

Lemma jsonStart_skip pre o r :
  ~ In LBRACE pre -> ~ In LBRACKET pre -> isOpener o = true ->
  jsonStart (pre ++ o :: r) = len pre.
Proof.
  intros H1 H2 Ho.
  destruct (@jsonStartFrom_spec (pre ++ o :: r) 0 ltac:(lia)) as (pre0 & Hs & _ & _ & Hj).
  change (jsonStartFrom (pre ++ o :: r) 0) with (jsonStart (pre ++ o :: r)) in Hj.
  rewrite (@fromStartToken_skip pre o r H1 H2 Ho) in Hs, Hj.
  apply app_inv_tail in Hs. subst pre0. rewrite Hj. lia.
Qed.

Lemma locateJson_around pre v post :
  wfValue v = true -> isContainer v = true ->
  ~ In LBRACE pre -> ~ In LBRACKET pre ->
  locateJson (pre ++ render v ++ post) = Ok (render v).
Proof.
  intros Hwf Hc H1 H2. destruct (container_head v Hc) as (o & tl & Ho & Hr).
  assert (Hj : jsonStart (pre ++ render v ++ post) = len pre).
  { rewrite Hr. change ((o :: tl) ++ post) with (o :: tl ++ post).
    now apply jsonStart_skip. }
  unfold locateJson. rewrite Hj.
  assert (Hlen : (0 < len (render v))%Z) by (rewrite Hr; unfold len; cbn [length]; lia).
  assert (Hp : (0 <= len pre)%Z) by (unfold len; lia).
  destruct (Z.eqb_spec (len pre) (-1)); [lia|].
  rewrite substringFrom_app, (scanLoop_container v (len pre) post Hwf Hc).
  destruct (Z.eqb_spec (len pre + len (render v) - 1) (-1)); [lia|].
  replace (len pre + len (render v) - 1 + 1)%Z with (len pre + len (render v))%Z by lia.
  now rewrite substring_middle.
Qed.

Lemma notIn_suffix (c : N) x pre' : ~ In c (x ++ pre') -> ~ In c pre'.
Proof. intros H Hi. apply H, in_or_app. now right. Qed.

(** X1.  A reply that holds a valid JSON object or array somewhere, with no brace
    or bracket before it, gives that object or array, whatever text, fence
    or tag surrounds it, provided the reply has no colon followed by optional
    white space and a backtick-delimited text. *)
Theorem extractJson_ignores_surrounding_text pre v post :
  wfValue v = true -> isContainer v = true ->
  ~ In LBRACE pre -> ~ In LBRACKET pre ->
  hasSite (pre ++ render v ++ post) = false ->
  extractJsonFromResponse (pre ++ render v ++ post) = Ok (render v).
Proof.
  intros Hwf Hc H1 H2 Hs.
  destruct (container_head v Hc) as (o & tl & Ho & Hr).
  destruct (container_last v Hc) as (c & hd & Hcl & Hr').
  destruct (@stripFences_around pre (render v) post o tl hd c Hr Ho Hr' Hcl)
    as (x & pre' & post' & y & Hp & Hq & Hst).
  unfold extractJsonFromResponse. rewrite Hst.
  rewrite repairBackticks_no_site.
  - cbn [bind]. apply locateJson_around; auto; apply (@notIn_suffix _ x); now rewrite <- Hp.
  - rewrite Hp, Hq in Hs. rewrite <- app_assoc in Hs. apply hasSite_app_r in Hs.
    rewrite !app_assoc in Hs. apply hasSite_app_l in Hs.
    now rewrite <- app_assoc in Hs.
Qed.

Lemma extractJson_ignores_surrounding_text_witness :
  extractJsonFromResponse (ex_before_fenced ++ render ex_pair_tree ++ ex_after_fenced)
  = Ok (render ex_pair_tree).
Proof.
  apply (@extractJson_ignores_surrounding_text ex_before_fenced ex_pair_tree
           ex_after_fenced).
  - vm_compute. reflexivity.
  - vm_compute. reflexivity.
  - intros H. vm_compute in H. repeat (destruct H as [H|H]; [discriminate|]). exact H.
  - intros H. vm_compute in H. repeat (destruct H as [H|H]; [discriminate|]). exact H.
  - vm_compute. reflexivity.
Defined.

Lemma indexOfFrom_skip pre s x : forall i,
  ~ In x pre -> indexOfFrom (pre ++ s) [x] i = indexOfFrom s [x] (i + len pre).
Proof.
  induction pre as [|c pre IH]; intros i H.
  - cbn [app]. f_equal. unfold len. cbn [length]. lia.
  - cbn [app]. rewrite indexOfFrom_cons.
    destruct (N.eqb_spec c x) as [E|E]; [exfalso; apply H; now left|].
    rewrite IH by (intros Hi; apply H; now right). f_equal. rewrite len_cons. lia.
Qed.

Lemma planJsonStart_skip pre o r :
  ~ In LBRACE pre -> ~ In LBRACKET pre -> isOpener o = true ->
  planJsonStart (pre ++ o :: r) = Some (len pre).
Proof.
  intros H1 H2 Ho. unfold planJsonStart, indexOf.
  rewrite !indexOfFrom_skip by assumption. rewrite !indexOfFrom_cons.
  assert (Hp : (0 <= len pre)%Z) by (unfold len; lia).
  unfold isOpener in Ho. apply orb_true_iff in Ho. destruct Ho as [E|E];
    apply N.eqb_eq in E; subst o.
  - rewrite N.eqb_refl. change (N.eqb LBRACE LBRACKET) with false. cbv iota.
    destruct (Z.leb_spec 0 (0 + len pre)); [|lia].
    destruct (indexOfFrom_range r LBRACKET (0 + len pre + 1)) as [E|E].
    + rewrite E. cbn. f_equal; lia.
    + destruct (Z.leb_spec 0 (indexOfFrom r [LBRACKET] (0 + len pre + 1))); [|lia].
      f_equal; lia.
  - rewrite N.eqb_refl. change (N.eqb LBRACKET LBRACE) with false. cbv iota.
    destruct (Z.leb_spec 0 (0 + len pre)); [|lia].
    destruct (indexOfFrom_range r LBRACE (0 + len pre + 1)) as [E|E].
    + rewrite E. cbn. f_equal; lia.
    + destruct (Z.leb_spec 0 (indexOfFrom r [LBRACE] (0 + len pre + 1))); [|lia].
      f_equal; lia.
Qed.

Lemma planSkipProse_around pre o r :
  ~ In LBRACE pre -> ~ In LBRACKET pre -> isOpener o = true ->
  planSkipProse (pre ++ o :: r) = o :: r.
Proof.
  intros H1 H2 Ho. unfold planSkipProse.
  destruct pre as [|c pre].
  - cbn [app startsWith]. rewrite !andb_true_r.
    unfold isOpener in Ho. apply orb_true_iff in Ho.
    destruct Ho as [E|E]; rewrite E; cbn [negb andb]; rewrite ?andb_false_r; reflexivity.
  - rewrite (@planJsonStart_skip (c :: pre) o r H1 H2 Ho).
    assert (Hp : (0 <= len (c :: pre))%Z) by (unfold len; lia).
    destruct (Z.leb_spec 0 (len (c :: pre))); [|lia].
    rewrite substringFrom_app.
    change ((c :: pre) ++ o :: r) with (c :: pre ++ o :: r).
    cbn [startsWith]. rewrite !andb_true_r.
    destruct (N.eqb_spec c LBRACE) as [E|E]; [exfalso; apply H1; now left|].
    destruct (N.eqb_spec c LBRACKET) as [E'|E']; [exfalso; apply H2; now left|].
    reflexivity.
Qed.

Lemma planCutTail_around v post :
  wfValue v = true -> isContainer v = true ->
  planCutTail (render v ++ post) = render v.
Proof.
  intros Hwf Hc. unfold planCutTail.
  rewrite (planScanLoop_container v 0 post Hwf Hc).
  destruct (container_head v Hc) as (o & tl & Ho & Hr).
  destruct (container_last v Hc) as (c & hd & Hcl & Hr').
  assert (Hlen : (2 <= len (render v))%Z).
  { destruct hd as [|h hd].
    - rewrite Hr in Hr'. cbn [app] in Hr'. injection Hr' as -> _.
      exfalso. unfold isOpener in Ho. unfold isCloser in Hcl.
      apply orb_true_iff in Ho. apply orb_true_iff in Hcl.
      destruct Ho as [E|E]; apply N.eqb_eq in E; subst c;
        destruct Hcl as [E|E]; discriminate.
    - rewrite Hr'. unfold len. rewrite length_app. cbn [length]. lia. }
  destruct (Z.ltb_spec 0 (0 + len (render v) - 1)); [|lia].
  replace (0 + len (render v) - 1 + 1)%Z with (0 + len (render v))%Z by lia.
  pose proof (substring_middle [] (render v) post) as H0.
  cbn [app] in H0. change (len []) with 0%Z in H0. exact H0.
Qed.

Lemma dropWhile_app_head p (a R : jsstring) o r :
  R = o :: r -> p o = false -> dropWhile p (a ++ R) = dropWhile p a ++ R.
Proof.
  intros HR Ho. induction a as [|c a IH]; cbn [app dropWhile].
  - rewrite HR. cbn [dropWhile]. now rewrite Ho.
  - destruct (p c); [exact IH | reflexivity].
Qed.

Lemma trim_around_tight pre T post :
  tight T -> trim (pre ++ T ++ post) = trimStart pre ++ T ++ trimEnd post.
Proof.
  intros [(a & m & Ha & Hna) (hd & l & Hl & Hnl)].
  unfold trim, trimStart.
  rewrite (@dropWhile_app_head isWhiteSpace pre (T ++ post) a (m ++ post))
    by (rewrite ?Ha; auto).
  unfold trimEnd. rewrite !rev_app_distr, <- app_assoc.
  rewrite (@dropWhile_app_head isWhiteSpace (rev post)
             (rev T ++ rev (dropWhile isWhiteSpace pre)) l
             (rev hd ++ rev (dropWhile isWhiteSpace pre)))
    by (rewrite ?Hl, ?rev_app_distr; auto).
  rewrite !rev_app_distr, !rev_involutive, <- app_assoc. reflexivity.
Qed.

Lemma startsWith_fence_before p o r :
  o <> BACKTICK -> startsWith (p ++ o :: r) FENCE = startsWith p FENCE.
Proof.
  intros Ho. assert (E : N.eqb o BACKTICK = false) by now apply N.eqb_neq.
  unfold BACKTICK in E.
  destruct p as [|a [|b [|c p]]]; cbn; rewrite ?E, ?andb_false_r; reflexivity.
Qed.

(** X5.  The inline extraction of the plan gives the valid JSON object or array of
    a reply whatever text stands before it (without brace or bracket, and not
    opening with a fence) and after it. *)
Theorem plan_ignores_surrounding_text pre v post :
  wfValue v = true -> isContainer v = true ->
  ~ In LBRACE pre -> ~ In LBRACKET pre ->
  startsWith (trimStart pre) FENCE = false ->
  planJsonText (pre ++ render v ++ post) = Ok (render v).
Proof.
  intros Hwf Hc H1 H2 Hf.
  destruct (container_head v Hc) as (o & tl & Ho & Hr).
  assert (Hbo : o <> BACKTICK).
  { unfold isOpener in Ho. apply orb_true_iff in Ho.
    destruct Ho as [E|E]; apply N.eqb_eq in E; subst o; discriminate. }
  unfold planJsonText, planUnfence.
  rewrite (trim_around_tight pre post (tight_container v Hc)).
  assert (Hnf : startsWith (trimStart pre ++ render v ++ trimEnd post) FENCE = false).
  { rewrite Hr. change ((o :: tl) ++ trimEnd post) with (o :: tl ++ trimEnd post).
    now rewrite startsWith_fence_before. }
  rewrite Hnf. cbn [bind]. f_equal.
  assert (Hsub : forall x, ~ In x pre -> ~ In x (trimStart pre)).
  { intros x Hx. unfold trimStart. clear -Hx. induction pre as [|c pre IH]; [exact Hx|].
    cbn [dropWhile]. destruct (isWhiteSpace c); [|exact Hx].
    apply IH. intros Hi. apply Hx. now right. }
  rewrite Hr. change ((o :: tl) ++ trimEnd post) with (o :: tl ++ trimEnd post).
  rewrite planSkipProse_around by auto.
  change (o :: tl ++ trimEnd post) with ((o :: tl) ++ trimEnd post).
  rewrite <- Hr. now apply planCutTail_around.
Qed.

Lemma plan_ignores_surrounding_text_witness :
  planJsonText (ex_before ++ render ex_pair_tree ++ ex_after)
  = Ok (render ex_pair_tree).
Proof.
  apply (@plan_ignores_surrounding_text ex_before ex_pair_tree ex_after).
  - vm_compute. reflexivity.
  - vm_compute. reflexivity.
  - intros H. vm_compute in H. repeat (destruct H as [H|H]; [discriminate|]). exact H.
  - intros H. vm_compute in H. repeat (destruct H as [H|H]; [discriminate|]). exact H.
  - vm_compute. reflexivity.
Defined.

Lemma word_eol_length R w : forall s p c (k : jsstring -> nat -> captures -> option R),
  length s <> length w -> rmatch (Seq (word w) Eol) s p c k = None.
Proof.
  induction w as [|x w IH]; intros s p c k H.
  - cbn [word]. rewrite rmatch_seq. cbn [rmatch]. destruct s; [cbn in H; lia | reflexivity].
  - cbn [word]. rewrite rmatch_seq. rewrite rmatch_seq. cbn [rmatch chr].
    destruct s as [|y s]; [reflexivity|].
    destruct (N.eqb x y); [|reflexivity].
    specialize (IH s (S p) c k). rewrite rmatch_seq in IH. apply IH.
    cbn [length] in H. lia.
Qed.

Lemma word_eol_exact R w p c (k : jsstring -> nat -> captures -> option R) :
  rmatch (Seq (word w) Eol) w p c k = k [] (p + length w) c.
Proof.
  rewrite rmatch_seq.
  pose proof (@word_match R w [] p c (fun s1 p1 c1 => rmatch Eol s1 p1 c1 k)) as H.
  rewrite app_nil_r in H. rewrite H. reflexivity.
Qed.

Lemma rmatch_opt_chr R x s p c (k : jsstring -> nat -> captures -> option R) :
  rmatch (opt (chr x)) s p c k
  = match s with
    | y :: t =>
        if N.eqb x y then
          match k t (S p) c with Some r => Some r | None => k s p c end
        else k s p c
    | [] => k s p c
    end.
Proof.
  cbn [opt rmatch chr]. destruct s as [|y t]; [reflexivity|].
  destruct (N.eqb x y); reflexivity.
Qed.

Lemma execFrom_trailingFence d : forall pos,
  exists gap m, execFrom trailingFencePattern (d ++ FENCE) pos = Some (gap, m, [])
                /\ (gap = d \/ d = gap ++ [LF]).
Proof.
  induction d as [|y d IH]; intros pos.
  - exists []. eexists. split; [|now left].
    cbn [app]. rewrite execFrom_unfold.
    unfold trailingFencePattern. rewrite rmatch_seq, rmatch_opt_chr.
    change FENCE with [BACKTICK; BACKTICK; BACKTICK] at 1.
    change (N.eqb LF BACKTICK) with false. cbv iota.
    change [BACKTICK; BACKTICK; BACKTICK] with FENCE.
    rewrite word_eol_exact. reflexivity.
  - change ((y :: d) ++ FENCE) with (y :: d ++ FENCE). rewrite execFrom_unfold.
    unfold trailingFencePattern at 1. rewrite rmatch_seq, rmatch_opt_chr.
    destruct (N.eqb_spec LF y) as [E|E].
    + subst y. destruct d as [|z d].
      * exists []. eexists. split; [|now right].
        cbn [app]. rewrite word_eol_exact. reflexivity.
      * rewrite (@word_eol_length _ FENCE ((z :: d) ++ FENCE))
          by (rewrite length_app; cbn; lia).
        rewrite (@word_eol_length _ FENCE (LF :: (z :: d) ++ FENCE))
          by (cbn [length]; rewrite length_app; cbn; lia).
        destruct (IH (S pos)) as (gap & m & He & Hg). rewrite He.
        exists (LF :: gap), m. split; [reflexivity|].
        destruct Hg as [Hg|Hg]; [left | right]; now rewrite Hg.
    + rewrite (@word_eol_length _ FENCE (y :: d ++ FENCE))
        by (cbn [length]; rewrite length_app; cbn; lia).
      destruct (IH (S pos)) as (gap & m & He & Hg). rewrite He.
      exists (y :: gap), m. split; [reflexivity|].
      destruct Hg as [Hg|Hg]; [left | right]; now rewrite Hg.
Qed.

Lemma trim_drop_newline r : trim (r ++ [LF]) = trim r.
Proof.
  unfold trim, trimStart, trimEnd.
  destruct (forallb isWhiteSpace r) eqn:E.
  - pose proof (@dropWhile_app_all isWhiteSpace r [LF] E) as H1.
    pose proof (@dropWhile_app_all isWhiteSpace r [] E) as H2.
    rewrite app_nil_r in H2. rewrite H1, H2. reflexivity.
  - assert (H : exists b u, dropWhile isWhiteSpace r = b :: u).
    { clear -E. induction r as [|c r IH]; [discriminate|]. cbn [forallb] in E.
      cbn [dropWhile]. destruct (isWhiteSpace c); [apply IH, E | eauto]. }
    destruct H as (b & u & H). rewrite (dropWhile_app_stop _ _ [LF] H), H.
    change (b :: u ++ [LF]) with ((b :: u) ++ [LF]).
    rewrite rev_app_distr. cbn [rev app dropWhile].
    change (isWhiteSpace LF) with true. cbv iota. reflexivity.
Qed.

(** Removing the closing fence at the end of a text leaves the text before
    it, up to a final newline. *)
Lemma removeTrailingFence d :
  exists r, removeFirst trailingFencePattern (d ++ FENCE) = Ok r /\ trim r = trim d.
Proof.
  unfold removeFirst, replaceFirst.
  destruct (execFrom_trailingFence d 0) as (gap & m & He & Hg). rewrite He.
  cbn [bind app]. exists (gap ++ []). rewrite app_nil_r. split; [reflexivity|].
  destruct Hg as [Hg|Hg]; rewrite Hg; [reflexivity | now rewrite trim_drop_newline].
Qed.

Lemma removeCodeFence tag rest :
  In tag codeTags ->
  removeFirst codeFencePattern (FENCE ++ tag ++ LF :: rest) = Ok rest.
Proof.
  intros H. repeat (destruct H as [H|H]; [subst tag; vm_compute; reflexivity|]).
  destruct H.
Qed.

Lemma removeJsonFence tag rest :
  In tag [[]; lit "json"] ->
  removeFirst openingFencePattern (FENCE ++ tag ++ LF :: rest) = Ok rest.
Proof.
  intros H. repeat (destruct H as [H|H]; [subst tag; vm_compute; reflexivity|]).
  destruct H.
Qed.

Lemma trim_fenced_block w1 tag d w2 :
  forallb isWhiteSpace w1 = true -> forallb isWhiteSpace w2 = true ->
  trim (w1 ++ (FENCE ++ tag ++ LF :: d ++ FENCE) ++ w2)
  = FENCE ++ tag ++ LF :: d ++ FENCE.
Proof.
  intros H1 H2. apply trim_tight; auto. split.
  - exists BACKTICK. eexists. split; reflexivity.
  - exists (FENCE ++ tag ++ LF :: d ++ [BACKTICK; BACKTICK]), BACKTICK.
    split; [|reflexivity].
    rewrite <- !app_assoc. cbn [app]. rewrite <- !app_assoc. reflexivity.
Qed.

(** X8.  The code of a reply that is a fenced block with one of the tags
    [typescript], [ts], [javascript], [js] or none, with white space around
    it: the text between the line of the opening fence and the closing fence,
    trimmed, whatever that text is. *)
Theorem apiServiceCode_unfences w1 tag d w2 :
  forallb isWhiteSpace w1 = true -> forallb isWhiteSpace w2 = true ->
  In tag codeTags ->
  apiServiceCode (w1 ++ (FENCE ++ tag ++ LF :: d ++ FENCE) ++ w2) = Ok (trim d).
Proof.
  intros H1 H2 Ht. unfold apiServiceCode. rewrite trim_fenced_block by assumption.
  change (startsWith (FENCE ++ tag ++ LF :: d ++ FENCE) FENCE) with true. cbv iota.
  rewrite removeCodeFence by exact Ht. cbn [bind].
  destruct (removeTrailingFence d) as (r & Hr & Htr). rewrite Hr. cbn [bind].
  now rewrite Htr.
Qed.

Lemma apiServiceCode_unfences_witness :
  apiServiceCode (lit "```ts" ++ LF :: lit "export const api = `x`;" ++ LF :: lit "```")
  = Ok (lit "export const api = `x`;").
Proof.
  apply (@apiServiceCode_unfences [] (lit "ts") (lit "export const api = `x`;" ++ [LF]) []).
  - reflexivity.
  - reflexivity.
  - right. right. left. reflexivity.
Defined.

(** X10.  The same for the text that [generateCustomFeatures] parses, with the tag
    [json] or none. *)
Theorem customFeaturesJsonText_unfences w1 tag d w2 :
  forallb isWhiteSpace w1 = true -> forallb isWhiteSpace w2 = true ->
  In tag [[]; lit "json"] ->
  customFeaturesJsonText (w1 ++ (FENCE ++ tag ++ LF :: d ++ FENCE) ++ w2)
  = Ok (trim d).
Proof.
  intros H1 H2 Ht. unfold customFeaturesJsonText.
  rewrite trim_fenced_block by assumption.
  change (startsWith (FENCE ++ tag ++ LF :: d ++ FENCE) FENCE) with true. cbv iota.
  rewrite removeJsonFence by exact Ht. cbn [bind].
  destruct (removeTrailingFence d) as (r & Hr & Htr). rewrite Hr. cbn [bind].
  now rewrite Htr.
Qed.

Lemma customFeaturesJsonText_unfences_witness :
  customFeaturesJsonText (lit "```json" ++ LF :: lit "[1, 2]" ++ LF :: lit "```")
  = Ok (lit "[1, 2]").
Proof.
  apply (@customFeaturesJsonText_unfences [] (lit "json") (lit "[1, 2]" ++ [LF]) []).
  - reflexivity.
  - reflexivity.
  - right. left. reflexivity.
Defined.

Lemma word_prefix R w s p c (k : jsstring -> nat -> captures -> option R) :
  rmatch (word w) s p c k
  = if startsWith s w then k (skipn (length w) s) (p + length w) c else None.
Proof.
  destruct (startsWith s w) eqn:E.
  - assert (Hs : s = w ++ skipn (length w) s).
    { clear -E. revert s E. induction w as [|x w IH]; intros s E; [reflexivity|].
      destruct s as [|y s]; [discriminate|]. cbn [startsWith] in E.
      apply andb_true_iff in E. destruct E as [E1 E2]. apply N.eqb_eq in E1. subst y.
      cbn [length skipn app]. f_equal. now apply IH. }
    rewrite Hs at 1. apply word_match.
  - now apply word_wants_prefix.
Qed.

Lemma trim_cons_newline x : trim (LF :: x) = trim x.
Proof. reflexivity. Qed.

Lemma startsWith_app_l : forall (t s y : jsstring),
  startsWith s t = true -> startsWith (s ++ y) t = true.
Proof.
  induction t as [|x t IH]; intros s y H; [reflexivity|].
  destruct s as [|c s]; [discriminate|]. cbn [startsWith app] in *.
  apply andb_true_iff in H. destruct H as [H1 H2]. rewrite H1. cbn [andb]. now apply IH.
Qed.

Lemma startsWith_app_other : forall (t s y : jsstring),
  (forall c, In c t -> ~ In c y) ->
  startsWith (s ++ y) t = startsWith s t.
Proof.
  induction t as [|x t IH]; intros s y H; [reflexivity|].
  destruct s as [|c s].
  - cbn [app]. destruct y as [|b y]; [reflexivity|]. cbn [startsWith].
    destruct (N.eqb_spec b x) as [E|E]; [|reflexivity].
    exfalso. apply (H x); [now left | left; exact E].
  - cbn [app startsWith]. f_equal. apply IH. intros c0 Hc. apply H. now right.
Qed.

Lemma rmatch_bol_start R s c (k : jsstring -> nat -> captures -> option R) :
  rmatch Bol s 0 c k = k s 0 c.
Proof. reflexivity. Qed.

(** What the opening pattern removes: the fence, the first alternative that
    starts the rest, and a newline. *)
Lemma removeCodeFence_any s :
  exists r, removeFirst codeFencePattern (FENCE ++ s) = Ok r /\
    (r = match find (startsWith s) (tl codeTags) with
         | Some t => skipn (length t) s
         | None => s
         end \/
     LF :: r = match find (startsWith s) (tl codeTags) with
               | Some t => skipn (length t) s
               | None => s
               end).
Proof.
  unfold removeFirst, replaceFirst. rewrite execFrom_unfold.
  unfold codeFencePattern. rewrite rmatch_seq, rmatch_bol_start.
  rewrite rmatch_seq, word_match, rmatch_seq.
  match goal with
  | |- context [rmatch (opt (Alt _ _)) s _ [] ?k] => set (K := k)
  end.
  assert (HK : forall s1 p1 c1, exists r p2,
             K s1 p1 c1 = Some (r, p2, c1) /\ (r = s1 \/ LF :: r = s1)).
  { intros s1 p1 c1. unfold K. rewrite rmatch_opt_chr.
    destruct s1 as [|y t]; [exists [], p1; split; [reflexivity | now left]|].
    destruct (N.eqb_spec LF y) as [E|E].
    - subst y. exists t, (S p1). split; [reflexivity | now right].
    - exists (y :: t), p1. split; [reflexivity | now left]. }
  cbn [codeTags tl find].
  assert (Hm : exists r p2,
             rmatch (opt (Alt (word (lit "typescript")) (Alt (word (lit "ts"))
                       (Alt (word (lit "javascript")) (word (lit "js"))))))
               s (0 + length FENCE) [] K = Some (r, p2, []) /\
             (r = (if startsWith s (lit "typescript") then skipn 10 s
                   else if startsWith s (lit "ts") then skipn 2 s
                   else if startsWith s (lit "javascript") then skipn 10 s
                   else if startsWith s (lit "js") then skipn 2 s else s)
              \/ LF :: r = (if startsWith s (lit "typescript") then skipn 10 s
                   else if startsWith s (lit "ts") then skipn 2 s
                   else if startsWith s (lit "javascript") then skipn 10 s
                   else if startsWith s (lit "js") then skipn 2 s else s))).
  { cbn [opt rmatch]. rewrite !word_prefix.
    destruct (startsWith s (lit "typescript")).
    { destruct (HK (skipn (length (lit "typescript")) s)
                  (0 + length FENCE + length (lit "typescript")) [])
        as (r & p2 & Hr & Ho). rewrite Hr. exists r, p2. split; [reflexivity | exact Ho]. }
    destruct (startsWith s (lit "ts")).
    { destruct (HK (skipn (length (lit "ts")) s)
                  (0 + length FENCE + length (lit "ts")) [])
        as (r & p2 & Hr & Ho). rewrite Hr. exists r, p2. split; [reflexivity | exact Ho]. }
    destruct (startsWith s (lit "javascript")).
    { destruct (HK (skipn (length (lit "javascript")) s)
                  (0 + length FENCE + length (lit "javascript")) [])
        as (r & p2 & Hr & Ho). rewrite Hr. exists r, p2. split; [reflexivity | exact Ho]. }
    destruct (startsWith s (lit "js")).
    { destruct (HK (skipn (length (lit "js")) s)
                  (0 + length FENCE + length (lit "js")) [])
        as (r & p2 & Hr & Ho). rewrite Hr. exists r, p2. split; [reflexivity | exact Ho]. }
    destruct (HK s (0 + length FENCE) []) as (r & p2 & Hr & Ho). rewrite Hr. exists r, p2. split; [reflexivity | exact Ho]. }
  destruct Hm as (r & p2 & Hr & Ho). rewrite Hr. cbn [bind app].
  exists r. split; [reflexivity|].
  destruct (startsWith s (lit "typescript")); [exact Ho|].
  destruct (startsWith s (lit "ts")); [exact Ho|].
  destruct (startsWith s (lit "javascript")); [exact Ho|].
  destruct (startsWith s (lit "js")); exact Ho.
Qed.

Lemma skipn_startsWith_app : forall (t s y : jsstring),
  startsWith s t = true -> skipn (length t) (s ++ y) = skipn (length t) s ++ y.
Proof.
  induction t as [|x t IH]; intros s y H; [reflexivity|].
  destruct s as [|c s]; [discriminate|]. cbn [startsWith] in H.
  apply andb_true_iff in H. destruct H as [_ H]. cbn [length app skipn]. now apply IH.
Qed.

Lemma afterCodeTag_app body :
  match find (startsWith (body ++ FENCE)) (tl codeTags) with
  | Some t => skipn (length t) (body ++ FENCE)
  | None => body ++ FENCE
  end = afterCodeTag body ++ FENCE.
Proof.
  unfold afterCodeTag. cbn [codeTags tl find].
  rewrite !(fun t H => @startsWith_app_other t body FENCE H);
    try (intros c Hc Hf; cbn in Hc, Hf;
         repeat (destruct Hf as [Hf|Hf]; [subst c;
           repeat (destruct Hc as [Hc|Hc]; [discriminate|]); exact Hc|]);
         exact Hf).
  destruct (startsWith body (lit "typescript")) eqn:E1;
    [now apply skipn_startsWith_app|].
  destruct (startsWith body (lit "ts")) eqn:E2; [now apply skipn_startsWith_app|].
  destruct (startsWith body (lit "javascript")) eqn:E3;
    [now apply skipn_startsWith_app|].
  destruct (startsWith body (lit "js")) eqn:E4; [now apply skipn_startsWith_app|].
  reflexivity.
Qed.

(** X9.  The language tag is matched by prefix, in the order [typescript], [ts],
    [javascript], [js]: of a fenced reply, [generateApiService] returns what
    follows the first of these that starts the text after the opening fence,
    trimmed.  A tag outside the list, such as [python], stays as the first
    line of the code, and [tsx] or [jsx] leave their [x]. *)
Theorem apiServiceCode_tag_by_prefix w1 body w2 :
  forallb isWhiteSpace w1 = true -> forallb isWhiteSpace w2 = true ->
  apiServiceCode (w1 ++ (FENCE ++ body ++ FENCE) ++ w2)
  = Ok (trim (afterCodeTag body)).
Proof.
  intros H1 H2. unfold apiServiceCode.
  assert (Ht : trim (w1 ++ (FENCE ++ body ++ FENCE) ++ w2) = FENCE ++ body ++ FENCE).
  { apply trim_tight; auto. split.
    - exists BACKTICK. eexists. split; reflexivity.
    - exists (FENCE ++ body ++ [BACKTICK; BACKTICK]), BACKTICK.
      split; [|reflexivity]. rewrite <- !app_assoc. reflexivity. }
  rewrite Ht. change (startsWith (FENCE ++ body ++ FENCE) FENCE) with true. cbv iota.
  destruct (removeCodeFence_any (body ++ FENCE)) as (r & Hr & Ho).
  rewrite Hr. cbn [bind].
  assert (Hx : exists x, r = x ++ FENCE /\ trim x = trim (afterCodeTag body)).
  { destruct Ho as [Ho|Ho]; rewrite afterCodeTag_app in Ho.
    - exists (afterCodeTag body). auto.
    - revert Ho. destruct (afterCodeTag body) as [|c x']; intros Ho;
      [change ([] ++ FENCE) with [BACKTICK; BACKTICK; BACKTICK] in Ho; discriminate|].
      cbn [app] in Ho. injection Ho as <- ->. exists x'. split; reflexivity. }
  destruct Hx as (x & -> & Hx).
  destruct (removeTrailingFence x) as (r' & Hr' & Htr). rewrite Hr'. cbn [bind].
  now rewrite Htr, Hx.
Qed.

Lemma apiServiceCode_tag_by_prefix_witness :
  apiServiceCode (lit "```tsx" ++ LF :: lit "export default App;" ++ LF :: lit "```")
  = Ok (lit "x" ++ LF :: lit "export default App;").
Proof.
  apply (@apiServiceCode_tag_by_prefix []
           (lit "tsx" ++ LF :: lit "export default App;" ++ [LF]) []); reflexivity.
Defined.

Section Soundness.
Variable R : Type.
Variable Q : nat -> jsstring -> Prop.

Lemma starLoop_sound a greedy :
  (forall s pos caps k x,
      capturesSatisfy Q caps -> rmatch a s pos caps k = Some x ->
      @matchSound R Q a s pos k x) ->
  forall n s pos caps k x,
    capturesSatisfy Q caps ->
    starLoop (fun s0 p0 c0 k0 => rmatch a s0 p0 c0 k0) greedy k n s pos caps = Some x ->
    @matchSound R Q (Star greedy a) s pos k x.
Proof.
  intros IHa n. induction n as [|n IHn]; intros s pos caps k x Hc H.
  - cbn [starLoop] in H.
    assert (Hk : k s pos caps = Some x).
    { destruct greedy; [assumption|]. destruct (k s pos caps); [assumption | discriminate]. }
    exists [], s, caps. cbn [app length]. rewrite Nat.add_0_r.
    repeat split; auto. constructor.
  - cbn [starLoop] in H.
    assert (Hcases :
      k s pos caps = Some x \/
      rmatch a s pos caps
        (fun s1 p1 c1 => if Nat.eqb p1 pos then None
           else starLoop (fun s0 p0 c0 k0 => rmatch a s0 p0 c0 k0) greedy k n s1 p1 c1) = Some x).
    { destruct greedy.
      - destruct (rmatch a s pos caps _) eqn:E; [right; congruence | left; assumption].
      - destruct (k s pos caps) eqn:E; [left; congruence | right; assumption]. }
    destruct Hcases as [Hk | Hm].
    + exists [], s, caps. cbn [app length]. rewrite Nat.add_0_r.
      repeat split; auto. constructor.
    + apply IHa in Hm; [|exact Hc]. destruct Hm as (u & s1 & c1 & Hs & Hl & Hc1 & Hk).
      destruct (Nat.eqb (pos + length u) pos); [discriminate|].
      apply IHn in Hk; [|exact Hc1].
      destruct Hk as (u2 & s2 & c2 & Hs2 & Hl2 & Hc2 & Hk2).
      exists (u ++ u2), s2, c2. rewrite length_app, Nat.add_assoc, Hs, Hs2, app_assoc.
      repeat split; auto. now constructor.
Qed.

Lemma rmatch_sound r : groupsSatisfy Q r ->
  forall s pos caps k x,
    capturesSatisfy Q caps -> rmatch r s pos caps k = Some x ->
    @matchSound R Q r s pos k x.
Proof.
  induction r as [|p|a IHa b IHb|a IHa b IHb|g a IHa|j a IHa| |];
    intros Hg s pos caps k x Hc H; cbn [rmatch] in H.
  - exists [], s, caps. cbn [app length]. rewrite Nat.add_0_r.
    repeat split; auto. constructor.
  - destruct s as [|c s']; [discriminate|]. destruct (p c) eqn:E; [|discriminate].
    exists [c], s', caps. cbn [app length]. replace (pos + 1) with (S pos) by lia.
    repeat split; auto. now constructor.
  - destruct Hg as [Hga Hgb].
    apply (IHa Hga) in H; [|exact Hc]. destruct H as (u & s1 & c1 & Hs & Hl & Hc1 & Hk).
    apply (IHb Hgb) in Hk; [|exact Hc1].
    destruct Hk as (u2 & s2 & c2 & Hs2 & Hl2 & Hc2 & Hk2).
    exists (u ++ u2), s2, c2. rewrite length_app, Nat.add_assoc, Hs, Hs2, app_assoc.
    repeat split; auto. now constructor.
  - destruct Hg as [Hga Hgb]. destruct (rmatch a s pos caps k) eqn:E.
    + injection H as ->. apply (IHa Hga) in E; [|exact Hc].
      destruct E as (u & s1 & c1 & Hs & Hl & Hc1 & Hk).
      exists u, s1, c1. repeat split; auto. now apply lang_alt_l.
    + apply (IHb Hgb) in H; [|exact Hc].
      destruct H as (u & s1 & c1 & Hs & Hl & Hc1 & Hk).
      exists u, s1, c1. repeat split; auto. now apply lang_alt_r.
  - eapply starLoop_sound; eauto.
  - destruct Hg as [Hq Hga].
    apply (IHa Hga) in H; [|exact Hc]. destruct H as (u & s1 & c1 & Hs & Hl & Hc1 & Hk).
    replace (pos + length u - pos) with (length u) in Hk by lia.
    rewrite Hs, firstn_app, Nat.sub_diag, firstn_all in Hk.
    cbn [firstn] in Hk. rewrite app_nil_r in Hk.
    exists u, s1, ((j, u) :: c1). repeat split; auto.
    + now constructor.
    + intros i v. cbn [getCap]. destruct (Nat.eqb_spec i j) as [->|_].
      * intros E. injection E as <-. now apply Hq.
      * apply Hc1.
  - destruct (Nat.eqb pos 0); [|discriminate].
    exists [], s, caps. cbn [app length]. rewrite Nat.add_0_r.
    repeat split; auto. constructor.
  - destruct s; [|discriminate].
    exists [], [], caps. cbn [app length]. rewrite Nat.add_0_r.
    repeat split; auto. constructor.
Qed.
End Soundness.

(** What the search guarantees of a match it finds. *)
Lemma execFrom_sound Q r : groupsSatisfy Q r ->
  forall s pos gap m rest,
    execFrom r s pos = Some (gap, m, rest) ->
    lang r (mText m) /\ capturesSatisfy Q (mCaps m).
Proof.
  intros Hg. induction s as [|c t IH]; intros pos gap m rest H;
    rewrite execFrom_unfold in H.
  - destruct (rmatch r [] pos [] _) as [[[s1 p1] c1]|] eqn:E; [|discriminate].
    injection H as <- <- <-. apply (@rmatch_sound _ Q r Hg) in E; [|intros i v; discriminate].
    destruct E as (u & s2 & c2 & Hs & Hl & Hc & Hk). injection Hk as <- <- <-.
    cbn [mText mCaps]. replace (pos + length u - pos) with (length u) by lia.
    rewrite Hs, firstn_app, Nat.sub_diag, firstn_all. cbn [firstn].
    rewrite app_nil_r. auto.
  - destruct (rmatch r (c :: t) pos [] _) as [[[s1 p1] c1]|] eqn:E.
    + injection H as <- <- <-. apply (@rmatch_sound _ Q r Hg) in E; [|intros i v; discriminate].
      destruct E as (u & s2 & c2 & Hs & Hl & Hc & Hk). injection Hk as <- <- <-.
      cbn [mText mCaps]. replace (pos + length u - pos) with (length u) by lia.
      rewrite Hs, firstn_app, Nat.sub_diag, firstn_all. cbn [firstn].
      rewrite app_nil_r. auto.
    + destruct (execFrom r t (S pos)) as [[[g m'] rest']|] eqn:E2; [|discriminate].
      injection H as <- <- <-. eapply IH; eauto.
Qed.

Lemma segments_sound Q r : groupsSatisfy Q r ->
  forall fuel s pos,
    Forall (fun gm => lang r (mText (snd gm)) /\ capturesSatisfy Q (mCaps (snd gm)))
           (fst (segments fuel r s pos)).
Proof.
  intros Hg. induction fuel as [|fuel IH]; intros s pos; cbn [segments]; [constructor|].
  destruct (execFrom r s pos) as [[[gap m] rest]|] eqn:E; [|constructor].
  apply (@execFrom_sound Q r Hg) in E.
  destruct (mText m) as [|c0 t0] eqn:Em.
  - destruct rest as [|c rest'].
    + cbn [fst]. constructor; [cbn [snd]; rewrite Em; exact E | constructor].
    + specialize (IH rest' (S (mIndex m))).
      destruct (segments fuel r rest' (S (mIndex m))) as [ms tl].
      cbn [fst] in IH. destruct ms as [|[g m'] ms']; cbn [fst].
      * constructor; [cbn [snd]; rewrite Em; exact E | constructor].
      * inversion IH; subst. constructor; [cbn [snd]; rewrite Em; exact E|].
        constructor; assumption.
  - specialize (IH rest (mIndex m + length (c0 :: t0))).
    destruct (segments fuel r rest _) as [ms tl]. cbn [fst] in *.
    constructor; [cbn [snd]; rewrite Em; exact E | assumption].
Qed.

Lemma matchAll_sound Q r s l : groupsSatisfy Q r ->
  matchAll true r s = Ok l ->
  Forall (fun m => lang r (mText m) /\ capturesSatisfy Q (mCaps m)) l.
Proof.
  intros Hg H.
  assert (E : l = map snd (fst (segments (S (length s)) r s 0)))
    by (unfold matchAll in H; congruence).
  rewrite E, Forall_map. exact (@segments_sound Q r Hg (S (length s)) s 0).
Qed.

Lemma matchFirst_sound Q r s m : groupsSatisfy Q r ->
  matchFirst r s = Some m -> lang r (mText m) /\ capturesSatisfy Q (mCaps m).
Proof.
  intros Hg. unfold matchFirst.
  destruct (execFrom r s 0) as [[[g m'] rest]|] eqn:E; [|discriminate].
  intros H. injection H as <-. eapply execFrom_sound; eauto.
Qed.

(** ** Span names *)

Lemma lang_chr_inv p v : lang (Chr p) v -> exists c, v = [c] /\ p c = true.
Proof. intros H. inversion H; subst. eauto. Qed.

Lemma lang_seq_inv a b v :
  lang (Seq a b) v -> exists u w, v = u ++ w /\ lang a u /\ lang b w.
Proof. intros H. inversion H; subst. eauto. Qed.

Lemma lang_star_chr g p v : lang (Star g (Chr p)) v -> forallb p v = true.
Proof.
  intros H. remember (Star g (Chr p)) as r eqn:Er.
  induction H as [| | | | | |g' a' u w Hu IHu Hw IHw| | |]; try discriminate;
    [reflexivity|].
  injection Er as -> ->. rewrite forallb_app, (IHw eq_refl).
  apply lang_chr_inv in Hu. destruct Hu as (c & -> & Hc). cbn. now rewrite Hc.
Qed.

Lemma lang_plus_chr g p v :
  lang (plus g (Chr p)) v -> v <> [] /\ forallb p v = true.
Proof.
  unfold plus. intros H. apply lang_seq_inv in H. destruct H as (u & w & -> & Hu & Hw).
  apply lang_chr_inv in Hu. destruct Hu as (c & -> & Hc).
  apply lang_star_chr in Hw. cbn [app forallb].
  rewrite Hc, Hw. split; [discriminate | reflexivity].
Qed.

Lemma lang_dot_part v :
  lang (Seq (chr DOT) (plus true (Chr isAlpha))) v ->
  exists seg, v = DOT :: seg /\ seg <> [] /\ forallb isAlpha seg = true.
Proof.
  intros H. apply lang_seq_inv in H. destruct H as (u & w & -> & Hu & Hw).
  apply lang_chr_inv in Hu. destruct Hu as (c & -> & Hc).
  apply N.eqb_eq in Hc. subst c. apply lang_plus_chr in Hw.
  exists w. split; [reflexivity | exact Hw].
Qed.

Lemma lang_star_parts g v :
  lang (Star g (Seq (chr DOT) (plus true (Chr isAlpha)))) v ->
  exists segs, v = flat_map (fun seg => DOT :: seg) segs /\
    Forall (fun seg => seg <> [] /\ forallb isAlpha seg = true) segs.
Proof.
  intros H. remember (Star g (Seq (chr DOT) (plus true (Chr isAlpha)))) as r eqn:Er.
  induction H as [| | | | | |g' a' u w Hu IHu Hw IHw| | |]; try discriminate.
  - exists []. split; [reflexivity | constructor].
  - injection Er as -> ->. destruct (IHw eq_refl) as (segs & -> & Hs).
    apply lang_dot_part in Hu. destruct Hu as (seg & -> & Hseg).
    exists (seg :: segs). split; [reflexivity|]. constructor; assumption.
Qed.

Lemma lang_spanNameBody ic v :
  lang (spanNameBody ic) v ->
  exists head segs,
    v = spanNameOf head segs /\ head <> [] /\
    forallb (if ic then isAlpha else isLower) head = true /\
    segs <> [] /\
    Forall (fun seg => seg <> [] /\ forallb isAlpha seg = true) segs.
Proof.
  unfold spanNameBody. intros H.
  apply lang_seq_inv in H. destruct H as (head & w & -> & Hh & Hw).
  apply lang_plus_chr in Hh. destruct Hh as [Hh1 Hh2].
  unfold plus in Hw. apply lang_seq_inv in Hw. destruct Hw as (u & w' & -> & Hu & Hw).
  apply lang_dot_part in Hu. destruct Hu as (seg & -> & Hseg).
  apply lang_star_parts in Hw. destruct Hw as (segs & -> & Hs).
  exists head, (seg :: segs). repeat split; auto; try discriminate.
Qed.

Lemma splitChar_cons_dot t :
  splitChar DOT (DOT :: t) = ([], fst (splitChar DOT t) :: snd (splitChar DOT t)).
Proof. cbn [splitChar]. destruct (splitChar DOT t). reflexivity. Qed.

Lemma splitChar_letters h t :
  forallb isAlpha h = true ->
  splitChar DOT (h ++ t) = (h ++ fst (splitChar DOT t), snd (splitChar DOT t)).
Proof.
  induction h as [|c h IH]; intros H.
  - cbn [app]. now destruct (splitChar DOT t).
  - cbn [forallb] in H. apply andb_true_iff in H. destruct H as [Hc Hh].
    cbn [app splitChar]. rewrite (IH Hh). cbn [fst snd].
    destruct (N.eqb_spec c DOT) as [E|E]; [subst c; discriminate | reflexivity].
Qed.

Lemma splitChar_parts segs :
  Forall (fun seg => seg <> [] /\ forallb isAlpha seg = true) segs ->
  segs <> [] ->
  splitChar DOT (flat_map (fun seg => DOT :: seg) segs) = ([], segs).
Proof.
  induction segs as [|seg segs IH]; intros H Hne; [contradiction|].
  inversion H as [|? ? [_ Hseg] Hrest]; subst.
  cbn [flat_map app]. rewrite splitChar_cons_dot, splitChar_letters by exact Hseg.
  cbn [fst snd]. destruct segs as [|seg' segs'].
  - cbn. now rewrite app_nil_r.
  - rewrite IH by (auto; discriminate). cbn [fst snd]. now rewrite app_nil_r.
Qed.

Lemma lower_isAlpha h : forallb isLower h = true -> forallb isAlpha h = true.
Proof.
  rewrite !forallb_forall. intros H c Hc. unfold isAlpha. now rewrite (H c Hc).
Qed.

Lemma splitChar_spanName head segs :
  forallb isAlpha head = true ->
  segs <> [] ->
  Forall (fun seg => seg <> [] /\ forallb isAlpha seg = true) segs ->
  splitChar DOT (spanNameOf head segs) = (head, segs).
Proof.
  intros Hh Hne Hs. unfold spanNameOf.
  rewrite splitChar_letters by exact Hh. rewrite splitChar_parts by assumption.
  cbn [fst snd]. now rewrite app_nil_r.
Qed.

Lemma includes_dot_spanName head segs :
  segs <> [] -> includes (spanNameOf head segs) [DOT] = true.
Proof.
  intros Hne. destruct segs as [|seg segs]; [contradiction|].
  unfold spanNameOf. cbn [flat_map]. apply includes_inside. cbn [app startsWith].
  now rewrite N.eqb_refl.
Qed.

Lemma forEach_inv_on {A S} (P : A -> Prop) (I : S -> Prop) (l : list A)
    (body : S -> A -> result S) :
  Forall P l ->
  (forall st x st', P x -> I st -> body st x = Ok st' -> I st') ->
  forall st r, I st -> forEach l st body = Ok r -> I r.
Proof.
  intros Hl Hb. induction Hl as [|x l Hx Hl IH]; intros st r Hi H; cbn [forEach] in H.
  - injection H as <-. exact Hi.
  - destruct (body st x) as [st'|e] eqn:E; cbn [bind] in H; [|discriminate].
    eapply IH; [|exact H]. eapply Hb; eauto.
Qed.

Lemma lowerAscii_alpha c : isAlpha c = true -> isLower (lowerAscii c) = true.
Proof.
  unfold isAlpha, lowerAscii, isLower, isUpper, inRange. intros H.
  destruct (N.leb_spec 65 c), (N.leb_spec c 90), (N.leb_spec 97 c), (N.leb_spec c 122);
    cbn in *; try discriminate;
    repeat match goal with
           | |- context [N.leb ?a ?b] => destruct (N.leb_spec a b)
           end; cbn; try reflexivity; lia.
Qed.

Lemma alpha_ascii c : isAlpha c = true -> N.ltb c 128 = true.
Proof.
  unfold isAlpha, isLower, isUpper, inRange. intros H. apply N.ltb_lt.
  destruct (N.leb_spec 65 c), (N.leb_spec c 90), (N.leb_spec 97 c), (N.leb_spec c 122);
    cbn in *; try discriminate; lia.
Qed.

Lemma map_lower_letters h :
  forallb isAlpha h = true -> forallb isLower (map lowerAscii h) = true.
Proof.
  induction h as [|c h IH]; [reflexivity|]. cbn [forallb map]. intros H.
  apply andb_true_iff in H. destruct H as [Hc Hh].
  now rewrite (lowerAscii_alpha _ Hc), (IH Hh).
Qed.

Lemma spanName_lowered head segs :
  forallb isAlpha head = true ->
  Forall (fun seg => seg <> [] /\ forallb isAlpha seg = true) segs ->
  isAsciiString (spanNameOf head segs) = true /\
  map lowerAscii (spanNameOf head segs)
  = spanNameOf (map lowerAscii head) (map (map lowerAscii) segs) /\
  Forall (fun seg => seg <> [] /\ forallb isAlpha seg = true)
         (map (map lowerAscii) segs).
Proof.
  intros Hh Hs. unfold spanNameOf, isAsciiString.
  rewrite forallb_app, map_app.
  assert (Ha : forall l, forallb isAlpha l = true -> forallb (fun c => N.ltb c 128) l = true).
  { intros l. rewrite !forallb_forall. intros H c Hc. apply alpha_ascii. auto. }
  rewrite (Ha head Hh). cbn [andb].
  induction Hs as [|seg segs [Hne Hseg] Hs IH].
  - repeat split; constructor.
  - destruct IH as (IH1 & IH2 & IH3). cbn [flat_map map].
    rewrite forallb_app. cbn [forallb]. rewrite (Ha seg Hseg), IH1.
    split; [reflexivity|]. split.
    + rewrite map_app. cbn [map]. apply app_inv_head in IH2. rewrite IH2.
      reflexivity.
    + constructor; [|exact IH3]. split.
      * destruct seg; [contradiction | discriminate].
      * apply lower_isAlpha, map_lower_letters, Hseg.
Qed.

Section SpanNames.
Variable toLowerCase : jsstring -> jsstring.
Hypothesis Hlower : lowersAscii toLowerCase.

Lemma group_one m : group m 1 = getCap 1 (mCaps m).
Proof. reflexivity. Qed.

Lemma codeBlockSpan_wellFormed text spans m spans' :
  capturesSatisfy (fun _ v => lang (spanNameBody false) v) (mCaps m) ->
  Forall wellFormedSpan spans ->
  codeBlockSpan toLowerCase text spans m = Ok spans' ->
  Forall wellFormedSpan spans'.
Proof.
  intros Hm Hs. unfold codeBlockSpan. rewrite group_one.
  destruct (getCap 1 (mCaps m)) as [v|] eqn:Ev; cbn [defined bind]; [|discriminate].
  apply Hm in Ev. apply lang_spanNameBody in Ev.
  destruct Ev as (head & segs & -> & Hh1 & Hh2 & Hne & Hsegs).
  destruct (negb _); [intros H; injection H as <-; exact Hs|].
  destruct (extractDescription _ text) as [d|e]; cbn [bind]; [|discriminate].
  destruct (extractAttributes _ text) as [a|e]; cbn [bind]; [|discriminate].
  intros H; injection H as <-. apply Forall_app. split; [exact Hs|].
  constructor; [|constructor]. exists head, segs. cbn [name op].
  rewrite splitChar_spanName by (auto using lower_isAlpha). cbn [fst].
  repeat split; auto.
Qed.

Lemma explicitSpan_wellFormed text spans m spans' :
  capturesSatisfy (fun _ v => lang (spanNameBody true) v) (mCaps m) ->
  Forall wellFormedSpan spans ->
  explicitSpan toLowerCase text spans m = Ok spans' ->
  Forall wellFormedSpan spans'.
Proof.
  intros Hm Hs. unfold explicitSpan. rewrite group_one.
  destruct (getCap 1 (mCaps m)) as [v|] eqn:Ev; cbn [defined bind]; [|discriminate].
  apply Hm in Ev. apply lang_spanNameBody in Ev.
  destruct Ev as (head & segs & -> & Hh1 & Hh2 & Hne & Hsegs).
  destruct (spanName_lowered head Hh2 Hsegs) as (Hascii & Hmap & Hsegs').
  rewrite (Hlower _ Hascii), Hmap.
  destruct (negb _); [intros H; injection H as <-; exact Hs|].
  destruct (existsb _ spans); [intros H; injection H as <-; exact Hs|].
  destruct (extractDescription _ text) as [d|e]; cbn [bind]; [|discriminate].
  destruct (extractAttributes _ text) as [a|e]; cbn [bind]; [|discriminate].
  intros H; injection H as <-. apply Forall_app. split; [exact Hs|].
  constructor; [|constructor].
  exists (map lowerAscii head), (map (map lowerAscii) segs). cbn [name op].
  assert (Hl : forallb isLower (map lowerAscii head) = true)
    by now apply map_lower_letters.
  rewrite splitChar_spanName; auto using lower_isAlpha.
  - cbn [fst]. repeat split; auto.
    + destruct head; [contradiction | discriminate].
    + destruct segs; [contradiction | discriminate].
  - destruct segs; [contradiction | discriminate].
Qed.

Lemma extractSpans_wellFormed text spans :
  extractSpansFromText toLowerCase text = Ok spans -> Forall wellFormedSpan spans.
Proof.
  unfold extractSpansFromText. cbv zeta.
  destruct (matchAll true codeBlockPattern text) as [ms|e] eqn:E1; cbn [bind];
    [|discriminate].
  destruct (forEach ms [] (codeBlockSpan toLowerCase text)) as [first|e] eqn:E2;
    cbn [bind]; [|discriminate].
  destruct (matchAll true explicitPattern text) as [ms2|e] eqn:E3; cbn [bind];
    [|discriminate].
  intros E4.
  assert (G1 : groupsSatisfy (fun _ v => lang (spanNameBody false) v) codeBlockPattern)
    by (cbn; tauto).
  assert (G2 : groupsSatisfy (fun _ v => lang (spanNameBody true) v) explicitPattern)
    by (cbn; tauto).
  pose proof (matchAll_sound _ G1 E1) as S1.
  pose proof (matchAll_sound _ G2 E3) as S2.
  assert (H1 : Forall wellFormedSpan first).
  { eapply (@forEach_inv_on _ _ _ (Forall wellFormedSpan) ms); [exact S1| |constructor|exact E2].
    intros st x st' [_ Hx] Hi Hb. eapply codeBlockSpan_wellFormed; eauto. }
  eapply (@forEach_inv_on _ _ _ (Forall wellFormedSpan) ms2); [exact S2| |exact H1|exact E4].
  intros st x st' [_ Hx] Hi Hb. eapply explicitSpan_wellFormed; eauto.
Qed.
End SpanNames.

(** X11.  Whatever the text, every span that [extractSpansFromText] returns has a
    name made of a first part of lower-case letters followed by one or more
    parts of letters, each after a dot, and its operation is the first part:
    the name and the operation are never empty, and the test for a dot never
    rejects a match.  ([toLowerCase] is assumed to lower ASCII strings unit
    by unit.) *)
Theorem extractSpans_names_wellFormed (toLowerCase : jsstring -> jsstring)
    (text : jsstring) :
  lowersAscii toLowerCase ->
  exists spans,
    extractSpansFromText toLowerCase text = Ok spans /\
    Forall wellFormedSpan spans /\
    Forall (fun s => name s <> [] /\ op s <> [] /\
                     includes (name s) [DOT] = true) spans.
Proof.
  intros Hl. destruct (extractSpans_total toLowerCase text) as [spans Hs].
  exists spans. split; [exact Hs|].
  pose proof (extractSpans_wellFormed Hl text Hs) as Hw. split; [exact Hw|].
  eapply Forall_impl; [|exact Hw].
  intros s (head & segs & Hn & Ho & Hh & _ & Hne & _). rewrite Hn, Ho.
  split; [|split; [exact Hh | now apply includes_dot_spanName]].
  unfold spanNameOf. destruct head; [contradiction | discriminate].
Qed.

Lemma extractSpans_names_wellFormed_witness :
  exists spans,
    extractSpansFromText (map lowerAscii) ex_both_forms = Ok spans /\
    Forall wellFormedSpan spans /\
    Forall (fun s => name s <> [] /\ op s <> [] /\
                     includes (name s) [DOT] = true) spans.
Proof.
  exact (@extractSpans_names_wellFormed (map lowerAscii) ex_both_forms
           lowerAscii_lowers).
Defined.

(** ** The second loop never repeats a name *)

Section SecondLoop.
Variable toLowerCase : jsstring -> jsstring.

Lemma existsb_name_absent spans n :
  existsb (fun s => eqs (name s) n) spans = false -> ~ In n (map name spans).
Proof.
  induction spans as [|s spans IH]; cbn [existsb map]; [intros _ []|].
  intros H. apply orb_false_iff in H. destruct H as [H1 H2].
  intros [E|E]; [|now apply IH]. rewrite E, eqs_refl in H1. discriminate.
Qed.

Lemma explicitSpan_distinct first text spans m spans' :
  (exists second, spans = first ++ second /\ NoDup (map name second) /\
                  forall s, In s second -> ~ In (name s) (map name first)) ->
  explicitSpan toLowerCase text spans m = Ok spans' ->
  exists second, spans' = first ++ second /\ NoDup (map name second) /\
                 forall s, In s second -> ~ In (name s) (map name first).
Proof.
  intros Hs. unfold explicitSpan.
  destruct (defined (group m 1)) as [v|e]; cbn [bind]; [|discriminate].
  destruct (negb (includes (toLowerCase v) [DOT])); [intros H; injection H as <-; exact Hs|].
  destruct (existsb _ spans) eqn:Ex; [intros H; injection H as <-; exact Hs|].
  destruct (extractDescription (toLowerCase v) text) as [d|e]; cbn [bind]; [|discriminate].
  destruct (extractAttributes (toLowerCase v) text) as [a|e]; cbn [bind]; [|discriminate].
  intros H; injection H as <-. destruct Hs as (second & -> & Hnd & Hfirst).
  apply existsb_name_absent in Ex. rewrite map_app in Ex.
  eexists (second ++ [_]). split; [now rewrite app_assoc|]. split.
  - rewrite map_app. cbn [map name]. apply NoDup_app_remove_l with (l := []).
    cbn [app]. apply NoDup_Add with (a := toLowerCase v) (l := map name second).
    + clear. induction (map name second) as [|x l IH]; cbn [app]; constructor; exact IH.
    + split; [exact Hnd|]. intros Hi. apply Ex, in_or_app. now right.
  - intros s Hi. apply in_app_or in Hi. destruct Hi as [Hi|[<-|[]]]; [now apply Hfirst|].
    cbn [name]. intros Hi. apply Ex, in_or_app. now left.
Qed.
End SecondLoop.

(** X12.  The spans of the second loop (the word span, then a colon or a backtick,
    then a name) have names that differ from one another and from every name
    of the first loop: two spans of a result share a name only if both come
    from the backtick pattern. *)
Theorem extractSpans_second_loop_distinct (toLowerCase : jsstring -> jsstring)
    (text : jsstring) :
  exists ms first second,
    matchAll true codeBlockPattern text = Ok ms /\
    forEach ms [] (codeBlockSpan toLowerCase text) = Ok first /\
    extractSpansFromText toLowerCase text = Ok (first ++ second) /\
    NoDup (map name second) /\
    (forall s, In s second -> ~ In (name s) (map name first)).
Proof.
  destruct (extractSpans_total toLowerCase text) as [spans Hs].
  pose proof Hs as H. unfold extractSpansFromText in H. cbv zeta in H.
  destruct (matchAll true codeBlockPattern text) as [ms|e]; cbn [bind] in H;
    [|discriminate].
  destruct (forEach ms [] (codeBlockSpan toLowerCase text)) as [first|e] eqn:E1;
    cbn [bind] in H; [|discriminate].
  destruct (matchAll true explicitPattern text) as [ms2|e]; cbn [bind] in H;
    [|discriminate].
  destruct (@forEach_inv _ _
              (fun sp => exists second, sp = first ++ second /\
                           NoDup (map name second) /\
                           forall s, In s second -> ~ In (name s) (map name first))
              ms2 (explicitSpan toLowerCase text)
              (fun st x st' Hi Hb => @explicitSpan_distinct toLowerCase first text st x st' Hi Hb)
              first spans)
    as (second & Hsp & Hnd & Hf); [|exact H|].
  - exists []. split; [now rewrite app_nil_r|]. split; [constructor | intros s []].
  - exists ms, first, second. subst spans. auto.
Qed.

(** ** The attributes the extractor writes *)

Lemma tracks_value k : tracks k = Ok (lit "Tracks " ++ map underscoreToSpace k).
Proof.
  unfold tracks, underscoresToSpaces, replaceAll, chr.
  rewrite (@segments_class (N.eqb UNDERSCORE) (fun _ => Ok [SPACE]) (fun _ => [SPACE]))
    by (auto; lia).
  cbn [bind]. do 2 f_equal. induction k as [|c k IH]; [reflexivity|].
  cbn [flat_map map]. rewrite IH. unfold underscoreToSpace at 2.
  rewrite (N.eqb_sym c). now destruct (N.eqb UNDERSCORE c).
Qed.

Lemma updateProp_entries o k v :
  Forall generatedEntry o -> generatedEntry (k, v) ->
  Forall generatedEntry (updateProp o k v).
Proof.
  intros Ho Hk. induction Ho as [|[k' v'] o Hx Ho IH]; cbn [updateProp].
  - constructor; [exact Hk | constructor].
  - destruct (eqs k k') eqn:E.
    + apply eqs_eq in E. subst k'. constructor; assumption.
    + constructor; assumption.
Qed.

Lemma setProp_entries o k v :
  Forall generatedEntry o -> generatedEntry (k, v) ->
  Forall generatedEntry (setProp o k v).
Proof.
  intros Ho Hk. unfold setProp. destruct (eqs k (lit "__proto__")); [exact Ho|].
  now apply updateProp_entries.
Qed.

Lemma addLabelledAttribute_entries attrs m attrs' :
  capturesSatisfy (fun _ v => v <> []) (mCaps m) ->
  Forall generatedEntry attrs ->
  addLabelledAttribute attrs m = Ok attrs' -> Forall generatedEntry attrs'.
Proof.
  intros Hm Ha. unfold addLabelledAttribute. rewrite group_one.
  destruct (getCap 1 (mCaps m)) as [v|] eqn:Ev; cbn [defined bind]; [|discriminate].
  apply Hm in Ev.
  destruct (includes v [DOT]) eqn:Ed; cbn [negb]; [intros H; injection H as <-; exact Ha|].
  rewrite tracks_value. cbn [bind]. intros H; injection H as <-.
  apply setProp_entries; [exact Ha|]. repeat split; auto.
Qed.

Lemma addListedAttribute_entries attrs attr attrs' :
  Forall generatedEntry attrs ->
  addListedAttribute attrs attr = Ok attrs' -> Forall generatedEntry attrs'.
Proof.
  intros Ha. unfold addListedAttribute.
  destruct (trim attr) as [|c t]; [intros H; injection H as <-; exact Ha|].
  destruct (includes (c :: t) [DOT]) eqn:Ed; cbn [negb];
    [intros H; injection H as <-; exact Ha|].
  rewrite tracks_value. cbn [bind]. intros H; injection H as <-.
  apply setProp_entries; [exact Ha|]. repeat split; auto. discriminate.
Qed.

Lemma addBulletAttributes_entries attrs m attrs' :
  Forall generatedEntry attrs ->
  addBulletAttributes attrs m = Ok attrs' -> Forall generatedEntry attrs'.
Proof.
  intros Ha. unfold addBulletAttributes.
  destruct (defined (group m 1)) as [v|e]; cbn [bind]; [|discriminate].
  apply (@forEach_inv _ _ (Forall generatedEntry)); [|exact Ha].
  intros st x st' Hi Hb. eapply addListedAttribute_entries; eauto.
Qed.

Lemma addCommonAttribute_entries spanName attrs m attrs' :
  capturesSatisfy (fun _ v => v <> []) (mCaps m) ->
  Forall generatedEntry attrs ->
  addCommonAttribute spanName attrs m = Ok attrs' -> Forall generatedEntry attrs'.
Proof.
  intros Hm Ha. unfold addCommonAttribute. rewrite group_one.
  destruct (getCap 1 (mCaps m)) as [v|] eqn:Ev; cbn [defined bind]; [|discriminate].
  apply Hm in Ev.
  destruct (includes v [DOT]) eqn:Ed; cbn [orb]; [intros H; injection H as <-; exact Ha|].
  destruct (eqs v spanName || truthyProp attrs v)%bool;
    [intros H; injection H as <-; exact Ha|].
  destruct (existsb _ _); [|intros H; injection H as <-; exact Ha].
  rewrite tracks_value. cbn [bind]. intros H; injection H as <-.
  apply setProp_entries; [exact Ha|]. repeat split; auto.
Qed.

Lemma attrName_nonempty r :
  r = backtickAttrPattern \/ r = boldAttrPattern ->
  groupsSatisfy (fun _ v => v <> []) r.
Proof.
  intros [-> | ->]; cbn; repeat split; auto;
    intros u Hu; apply (@lang_plus_chr true isAttrChar u Hu).
Qed.

Lemma commonAttributes_entries spanName context a1 attrs :
  Forall generatedEntry a1 ->
  (bulletMatches <- matchAll true bulletPattern context ;;
   attributes <- forEach bulletMatches a1 addBulletAttributes ;;
   forEach [backtickAttrPattern; boldAttrPattern] attributes
     (fun attributes pattern =>
        matches <- matchAll true pattern context ;;
        forEach matches attributes (addCommonAttribute spanName))) = Ok attrs ->
  Forall generatedEntry attrs.
Proof.
  intros Ha.
  destruct (matchAll true bulletPattern context) as [l|e]; cbn [bind]; [|discriminate].
  destruct (forEach l a1 addBulletAttributes) as [a2|e] eqn:E2; cbn [bind];
    [|discriminate].
  assert (H2 : Forall generatedEntry a2).
  { eapply (@forEach_inv _ _ (Forall generatedEntry)); [|exact Ha|exact E2].
    intros st x st' Hi Hb. eapply addBulletAttributes_entries; eauto. }
  apply (@forEach_inv_on _ _
           (fun p => p = backtickAttrPattern \/ p = boldAttrPattern)
           (Forall generatedEntry)); [| |exact H2].
  - constructor; [now left | constructor; [now right | constructor]].
  - intros st p st' Hp Hi.
    destruct (matchAll true p context) as [l'|e] eqn:E; cbn [bind]; [|discriminate].
    pose proof (matchAll_sound _ (attrName_nonempty Hp) E) as Hs.
    apply (@forEach_inv_on _ _ _ (Forall generatedEntry) l' _ Hs); [|exact Hi].
    intros st0 x st0' [_ Hx] Hi0 Hb. eapply addCommonAttribute_entries; eauto.
Qed.

Lemma extractAttributes_entries spanName text attrs :
  extractAttributes spanName text = Ok attrs -> Forall generatedEntry attrs.
Proof.
  unfold extractAttributes. cbv zeta.
  destruct (indexOf text spanName =? -1)%Z; [intros H; injection H as <-; constructor|].
  destruct (matchFirst attributesLinePattern _) as [m|].
  - destruct (defined (group m 1)) as [v|e]; cbn [bind]; [|discriminate].
    destruct (matchAll true backtickAttrPattern v) as [l|e] eqn:E; cbn [bind];
      [|discriminate].
    match goal with
    | |- context [@forEach ?A ?S l ?a ?b] =>
        destruct (@forEach A S l a b) as [a1|e] eqn:E1; cbn [bind]; [|discriminate]
    end.
    apply commonAttributes_entries.
    pose proof (matchAll_sound _ (attrName_nonempty (or_introl eq_refl)) E) as Hs.
    eapply (@forEach_inv_on _ _ _ (Forall generatedEntry) l _ Hs); [|constructor|exact E1].
    intros st0 x st0' [_ Hx] Hi0 Hb. eapply addLabelledAttribute_entries; eauto.
  - cbn [bind]. apply commonAttributes_entries. constructor.
Qed.

(** X13.  Every entry of the attributes object that [extractAttributes] returns,
    whichever of its three patterns found the key, has a key that is not
    empty and has no dot, and as its description the word Tracks followed by
    the key with its underscores turned into spaces: no description is ever
    taken from the text. *)
Theorem extractAttributes_generated (spanName text : jsstring) :
  exists attrs,
    extractAttributes spanName text = Ok attrs /\ Forall generatedEntry attrs.
Proof.
  destruct (extractAttributes_total spanName text) as [attrs H].
  exists attrs. split; [exact H | now apply (extractAttributes_entries spanName text)].
Qed.

(** ** The windows of the helpers *)

Lemma startsWith_length : forall (p s : jsstring),
  startsWith s p = true -> length p <= length s.
Proof.
  induction p as [|x p IH]; intros s H; [cbn; lia|].
  destruct s as [|c s]; [discriminate|]. cbn [startsWith] in H.
  apply andb_true_iff in H. destruct H as [_ H]. apply IH in H. cbn [length]. lia.
Qed.

Lemma startsWith_app_inside : forall (p s y : jsstring),
  length p <= length s -> startsWith (s ++ y) p = startsWith s p.
Proof.
  induction p as [|x p IH]; intros s y H; [reflexivity|].
  destruct s as [|c s]; [cbn in H; lia|]. cbn [app startsWith]. f_equal.
  apply IH. cbn [length] in H. lia.
Qed.

Lemma indexOfFrom_fits p : forall s i,
  (0 <= i)%Z -> (0 <= indexOfFrom s p i)%Z ->
  (indexOfFrom s p i - i + len p <= len s)%Z.
Proof.
  induction s as [|c t IH]; intros i Hi H; cbn [indexOfFrom] in *.
  - destruct (startsWith [] p) eqn:E; [|lia]. apply startsWith_length in E.
    unfold len. cbn [length] in *. lia.
  - destruct (startsWith (c :: t) p) eqn:E.
    + apply startsWith_length in E. unfold len. lia.
    + specialize (IH (i + 1)%Z ltac:(lia) H). rewrite len_cons. lia.
Qed.

Lemma indexOfFrom_lower p : forall s i,
  indexOfFrom s p i = (-1)%Z \/ (i <= indexOfFrom s p i)%Z.
Proof.
  induction s as [|c t IH]; intros i; cbn [indexOfFrom].
  - destruct (startsWith [] p); [right; lia | left; reflexivity].
  - destruct (startsWith (c :: t) p); [right; lia|].
    destruct (IH (i + 1)%Z); [left; assumption | right; lia].
Qed.

Lemma indexOfFrom_app_found p y : forall s i,
  (0 <= i)%Z -> (0 <= indexOfFrom s p i)%Z ->
  indexOfFrom (s ++ y) p i = indexOfFrom s p i.
Proof.
  induction s as [|c t IH]; intros i Hi H.
  - cbn [indexOfFrom] in H. destruct (startsWith [] p) eqn:E; [|lia].
    destruct p; [|discriminate]. cbn [app]. destruct y; reflexivity.
  - pose proof (indexOfFrom_fits p (c :: t) Hi H) as Hfit.
    change ((c :: t) ++ y) with (c :: t ++ y). cbn [indexOfFrom] in *.
    destruct (startsWith (c :: t) p) eqn:E.
    + change (c :: t ++ y) with ((c :: t) ++ y).
      rewrite startsWith_app_l by exact E. reflexivity.
    + assert (Hlen : length p <= length (c :: t)).
      { pose proof (indexOfFrom_lower p t (i + 1)) as Hr. unfold len in Hfit.
        destruct Hr as [Hr|Hr]; lia. }
      change (c :: t ++ y) with ((c :: t) ++ y).
      rewrite startsWith_app_inside by exact Hlen. rewrite E.
      apply IH; [lia | exact H].
Qed.

Lemma indexOfFrom_split p : forall s i,
  (0 <= indexOfFrom s p i)%Z -> (0 <= i)%Z ->
  exists pre rest, s = pre ++ rest /\ len pre = (indexOfFrom s p i - i)%Z /\
                   startsWith rest p = true.
Proof.
  induction s as [|c t IH]; intros i H Hi; cbn [indexOfFrom] in *.
  - destruct (startsWith [] p) eqn:E; [|lia].
    exists [], []. repeat split; auto. unfold len. cbn. lia.
  - destruct (startsWith (c :: t) p) eqn:E.
    + exists [], (c :: t). repeat split; auto. unfold len. cbn. lia.
    + destruct (IH (i + 1)%Z H ltac:(lia)) as (pre & rest & -> & Hl & Hs).
      exists (c :: pre), rest. repeat split; auto. rewrite len_cons. lia.
Qed.

Lemma substring_window pre rest w :
  substring (pre ++ rest) (len pre) (len pre + Z.of_nat w) = firstn w rest.
Proof.
  unfold substring, clampIndex. rewrite len_app. unfold len.
  replace (Z.max 0 (Z.min (Z.of_nat (length pre))
                      (Z.of_nat (length pre) + Z.of_nat (length rest))))
    with (Z.of_nat (length pre)) by lia.
  set (hi := Z.max 0 (Z.min (Z.of_nat (length pre) + Z.of_nat w)
                        (Z.of_nat (length pre) + Z.of_nat (length rest)))).
  assert (Hhi : hi = (Z.of_nat (length pre) + Z.of_nat (Nat.min w (length rest)))%Z)
    by (unfold hi; lia).
  rewrite Hhi, Z.min_l, Z.max_r by lia.
  replace (Z.to_nat (Z.of_nat (length pre) + Z.of_nat (Nat.min w (length rest))
                     - Z.of_nat (length pre))) with (Nat.min w (length rest)) by lia.
  rewrite Nat2Z.id, skipn_app, skipn_all, Nat.sub_diag. cbn [skipn app].
  destruct (Nat.le_ge_cases w (length rest)) as [Hle|Hge].
  - now rewrite Nat.min_l.
  - rewrite Nat.min_r by exact Hge. now rewrite !firstn_all2.
Qed.

Lemma startsWith_firstn : forall (p s : jsstring) w,
  length p <= w -> startsWith s p = true -> startsWith (firstn w s) p = true.
Proof.
  induction p as [|x p IH]; intros s w Hw H; [reflexivity|].
  destruct s as [|c s]; [discriminate|]. destruct w as [|w]; [cbn in Hw; lia|].
  cbn [firstn startsWith] in *. apply andb_true_iff in H. destruct H as [H1 H2].
  rewrite H1. cbn [andb]. apply IH; [cbn [length] in Hw; lia | exact H2].
Qed.

(** The window of [w] code units from the first occurrence of [spanName]:
    where it starts in the text, and that it holds the whole name and is its
    own window. *)
Lemma window_spec spanName text w :
  (0 <= indexOf text spanName)%Z -> length spanName <= w ->
  let window := substring text (indexOf text spanName)
                  (indexOf text spanName + Z.of_nat w) in
  indexOf window spanName = 0%Z /\
  substring window 0 (0 + Z.of_nat w) = window.
Proof.
  intros Hi Hw window.
  destruct (@indexOfFrom_split spanName text 0 Hi ltac:(lia)) as (pre & rest & Ht & Hl & Hs).
  fold (indexOf text spanName) in Hl. rewrite Z.sub_0_r in Hl.
  assert (Hwin : window = firstn w rest).
  { unfold window. rewrite <- Hl. rewrite Ht. apply substring_window. }
  split.
  - rewrite Hwin. unfold indexOf.
    destruct (firstn w rest) as [|c t] eqn:E; cbn [indexOfFrom];
      rewrite <- ?E; rewrite (startsWith_firstn _ _ Hw Hs); reflexivity.
  - rewrite Hwin. pose proof (@substring_window [] (firstn w rest) w) as H.
    cbn [app] in H. change (len []) with 0%Z in H. rewrite H.
    apply firstn_all2. rewrite length_firstn. lia.
Qed.

(** X14.  Attributes and description are read from one window of the text: the
    400, respectively 300, code units from the first occurrence of the span
    name.  The text before and after the window has no influence on them. *)
Theorem helpers_read_one_window (spanName text : jsstring) :
  (0 <= indexOf text spanName)%Z ->
  (length spanName <= 400 ->
   extractAttributes spanName text
   = extractAttributes spanName
       (substring text (indexOf text spanName) (indexOf text spanName + 400))) /\
  (length spanName <= 300 ->
   extractDescription spanName text
   = extractDescription spanName
       (substring text (indexOf text spanName) (indexOf text spanName + 300))).
Proof.
  intros Hi. split; intros Hlen.
  - destruct (window_spec spanName text Hi Hlen) as [H0 Hw].
    change (Z.of_nat 400) with 400%Z in H0, Hw.
    unfold extractAttributes. cbv zeta. rewrite H0, Hw.
    destruct (Z.eqb_spec (indexOf text spanName) (-1)); [lia|]. reflexivity.
  - destruct (window_spec spanName text Hi Hlen) as [H0 Hw].
    change (Z.of_nat 300) with 300%Z in H0, Hw.
    unfold extractDescription. cbv zeta. rewrite H0, Hw.
    destruct (Z.eqb_spec (indexOf text spanName) (-1)); [lia|]. reflexivity.
Qed.

Lemma helpers_read_one_window_witness :
  extractAttributes (lit "cart.add") ex_twice
  = extractAttributes (lit "cart.add")
      (substring ex_twice (indexOf ex_twice (lit "cart.add"))
         (indexOf ex_twice (lit "cart.add") + 400)) /\
  extractDescription (lit "cart.add") ex_twice
  = extractDescription (lit "cart.add")
      (substring ex_twice (indexOf ex_twice (lit "cart.add"))
         (indexOf ex_twice (lit "cart.add") + 300)).
Proof.
  assert (Hi : (0 <= indexOf ex_twice (lit "cart.add"))%Z)
    by (vm_compute; discriminate).
  destruct (@helpers_read_one_window (lit "cart.add") ex_twice Hi) as [Ha Hd].
  split; [apply Ha | apply Hd]; vm_compute; lia.
Defined.

(** ** The layer of a span *)

Lemma includes_segment x mid y w :
  includes mid w = true -> includes (x ++ mid ++ y) w = true.
Proof.
  unfold includes, indexOf. intros H. apply Z.leb_le in H.
  destruct (@indexOfFrom_split w mid 0 H ltac:(lia)) as (pre & rest & -> & _ & Hs).
  replace (x ++ (pre ++ rest) ++ y) with ((x ++ pre) ++ (rest ++ y))
    by (rewrite <- !app_assoc; reflexivity).
  apply (@includes_inside w (x ++ pre) (rest ++ y)). now apply startsWith_app_l.
Qed.

Lemma includes_substring s a b w :
  includes (substring s a b) w = true -> includes s w = true.
Proof.
  unfold substring. set (n := Z.to_nat _). set (m := Z.to_nat _). intros H.
  rewrite <- (firstn_skipn m s). rewrite <- (firstn_skipn n (skipn m s)).
  now apply includes_segment.
Qed.

(** X15.  A span is put in the front end only if one of the six front-end words
    occurs in the lower-cased text; neither the back-end words nor the name
    or its operation ever decide the layer. *)
Theorem guessLayer_backend_without_frontend_word
    (toLowerCase : jsstring -> jsstring) (spanName context : jsstring) :
  (forall w, In w frontendWords -> includes (toLowerCase context) w = false) ->
  guessLayer toLowerCase spanName context = backend.
Proof.
  intros H. unfold guessLayer. cbv zeta.
  match goal with
  | |- (if existsb ?f frontendWords then _ else _) = _ =>
      destruct (existsb f frontendWords) eqn:E
  end.
  - apply existsb_exists in E. destruct E as (w & Hw & Hi).
    apply includes_substring in Hi. rewrite (H w Hw) in Hi. discriminate.
  - destruct (_ || _)%bool; [reflexivity|]. destruct (existsb _ backendOps); reflexivity.
Qed.

Lemma guessLayer_backend_without_frontend_word_witness :
  guessLayer (map lowerAscii) (lit "ui.render") (lit "Add `ui.render` to the page.")
  = backend.
Proof.
  apply guessLayer_backend_without_frontend_word.
  intros w Hw. cbn in Hw.
  repeat (destruct Hw as [Hw|Hw]; [subst w; vm_compute; reflexivity|]). destruct Hw.
Defined.

(** ** The inline extraction never throws *)



(** ** A fence that is never closed *)

Lemma lang_word w u : lang (word w) u -> u = w.
Proof.
  revert u. induction w as [|x w IH]; intros u H; cbn [word] in H.
  - inversion H. reflexivity.
  - apply lang_seq_inv in H. destruct H as (a & b & -> & Ha & Hb).
    apply lang_chr_inv in Ha. destruct Ha as (c & -> & Hc). apply N.eqb_eq in Hc.
    subst c. now rewrite (IH b Hb).
Qed.

Lemma lang_seq_ends a b (w : jsstring) :
  (forall u, lang b u -> exists m, u = m ++ w) ->
  forall u, lang (Seq a b) u -> exists m, u = m ++ w.
Proof.
  intros Hb u H. apply lang_seq_inv in H. destruct H as (x & y & -> & _ & Hy).
  destruct (Hb y Hy) as (m & ->). exists (x ++ m). now rewrite app_assoc.
Qed.

Lemma lang_fencedBlock u :
  lang fencedBlockPattern u -> exists mid, u = FENCE ++ mid ++ FENCE.
Proof.
  unfold fencedBlockPattern. intros H.
  apply lang_seq_inv in H. destruct H as (x & y & -> & Hx & Hy).
  apply lang_word in Hx. subst x.
  assert (He : exists m, y = m ++ FENCE).
  { revert y Hy. do 5 apply lang_seq_ends.
    intros u Hu. apply lang_word in Hu. exists []. now rewrite Hu. }
  destruct He as (m & ->). now exists m.
Qed.

Lemma lang_closingFence u :
  lang closingFencePattern u -> exists a b, u = a ++ FENCE ++ b.
Proof.
  unfold closingFencePattern. intros H.
  apply lang_seq_inv in H. destruct H as (x & y & -> & _ & Hy).
  apply lang_seq_inv in Hy. destruct Hy as (f & z & -> & Hf & _).
  apply lang_word in Hf. subst f. now exists x, z.
Qed.

Lemma execFrom_lang r : forall s pos gap m rest,
  execFrom r s pos = Some (gap, m, rest) ->
  s = gap ++ mText m ++ rest /\ lang r (mText m).
Proof.
  intros s pos gap m rest H. split.
  - now apply execFrom_inv in H.
  - assert (G : groupsSatisfy (fun _ _ => True) r).
    { clear. induction r; cbn; auto. }
    now apply (@execFrom_sound _ r G) in H.
Qed.

Lemma includes_fence_inside a b : includes (a ++ FENCE ++ b) FENCE = true.
Proof. apply includes_inside. apply startsWith_app. Qed.

Lemma matchFirst_fencedBlock_none text :
  includes (tl text) FENCE = false -> matchFirst fencedBlockPattern text = None.
Proof.
  intros H. unfold matchFirst.
  destruct (execFrom fencedBlockPattern text 0) as [[[gap m] rest]|] eqn:E;
    [|reflexivity].
  apply execFrom_lang in E. destruct E as [Ht Hl].
  apply lang_fencedBlock in Hl. destruct Hl as (mid & Hm). rewrite Hm in Ht.
  exfalso. rewrite Ht in H. destruct gap as [|c gap]; cbn [app tl] in H.
  - change (FENCE ++ mid ++ FENCE) with ([BACKTICK] ++ ([BACKTICK; BACKTICK] ++ mid) ++ FENCE) in H.
    cbn [app tl] in H.
    replace (BACKTICK :: BACKTICK :: (mid ++ FENCE) ++ rest)
      with (([BACKTICK; BACKTICK] ++ mid) ++ FENCE ++ rest) in H
      by (cbn [app]; now rewrite <- app_assoc).
    now rewrite includes_fence_inside in H.
  - rewrite <- app_assoc in H. now rewrite includes_fence_inside in H.
Qed.

Lemma removeFirst_closingFence_none s :
  includes s FENCE = false -> removeFirst closingFencePattern s = Ok s.
Proof.
  intros H. unfold removeFirst, replaceFirst.
  destruct (execFrom closingFencePattern s 0) as [[[gap m] rest]|] eqn:E;
    [|reflexivity].
  apply execFrom_lang in E. destruct E as [Ht Hl].
  apply lang_closingFence in Hl. destruct Hl as (a & b & Hm). rewrite Hm in Ht.
  exfalso. rewrite Ht in H.
  replace (gap ++ (a ++ FENCE ++ b) ++ rest) with ((gap ++ a) ++ FENCE ++ (b ++ rest)) in H
    by (rewrite <- !app_assoc; reflexivity).
  now rewrite includes_fence_inside in H.
Qed.

Lemma indexOfFrom_absent_shift p : forall s i j,
  indexOfFrom s p i = (-1)%Z -> (0 <= i)%Z -> (0 <= j)%Z ->
  indexOfFrom s p j = (-1)%Z.
Proof.
  induction s as [|c t IH]; intros i j H Hi Hj; cbn [indexOfFrom] in *.
  - destruct (startsWith [] p); [lia | reflexivity].
  - destruct (startsWith (c :: t) p); [lia|].
    apply (IH (i + 1)%Z); [exact H | lia | lia].
Qed.

Lemma includes_false_iff s p : includes s p = false <-> indexOf s p = (-1)%Z.
Proof.
  unfold includes, indexOf. split; intros H.
  - apply Z.leb_gt in H. destruct (indexOfFrom_lower p s 0); [assumption | lia].
  - rewrite H. reflexivity.
Qed.

Lemma indexOfFrom_fence_lines T : forall x i j k,
  indexOfFrom x FENCE i = (-1)%Z -> indexOfFrom T FENCE j = (-1)%Z ->
  (0 <= i)%Z -> (0 <= j)%Z -> (0 <= k)%Z ->
  indexOfFrom (x ++ LF :: T) FENCE k = (-1)%Z.
Proof.
  induction x as [|c x IH]; intros i j k Hx HT Hi Hj Hk.
  - cbn [app indexOfFrom]. change (startsWith (LF :: T) FENCE) with false. cbv iota.
    apply (@indexOfFrom_absent_shift FENCE T j); [exact HT | lia | lia].
  - change ((c :: x) ++ LF :: T) with (c :: x ++ LF :: T).
    cbn [indexOfFrom] in *.
    change (c :: x ++ LF :: T) with ((c :: x) ++ LF :: T).
    rewrite startsWith_fence_app.
    destruct (startsWith (c :: x) FENCE); [lia|].
    apply (IH (i + 1)%Z j (k + 1)%Z); auto; lia.
Qed.

Lemma includes_fence_lines x T :
  includes x FENCE = false -> includes T FENCE = false ->
  includes (x ++ LF :: T) FENCE = false.
Proof.
  rewrite !includes_false_iff. unfold indexOf. intros Hx HT.
  apply (@indexOfFrom_fence_lines T x 0 0 0); auto; lia.
Qed.

(** X6.  A fenced reply that is cut off before its closing fence: Method 1 finds
    no block, and the fallback, which removes the opening fence with its tag
    [json], leaves the valid JSON object or array that follows. *)
Theorem planJsonText_unclosed_fence w1 tag v w2 :
  forallb isWhiteSpace w1 = true -> forallb isWhiteSpace w2 = true ->
  In tag [[]; lit "json"] ->
  wfValue v = true -> isContainer v = true ->
  includes (render v) FENCE = false ->
  matchFirst fencedBlockPattern (FENCE ++ tag ++ LF :: render v) = None /\
  planJsonText (w1 ++ (FENCE ++ tag ++ LF :: render v) ++ w2) = Ok (render v).
Proof.
  intros H1 H2 Ht Hwf Hc Hf.
  destruct (container_last v Hc) as (c & hd & Hcl & Hr).
  assert (Hwc : isWhiteSpace c = false).
  { unfold isCloser in Hcl. apply orb_true_iff in Hcl.
    destruct Hcl as [E|E]; apply N.eqb_eq in E; subst c; reflexivity. }
  assert (Hnone : matchFirst fencedBlockPattern (FENCE ++ tag ++ LF :: render v) = None).
  { apply matchFirst_fencedBlock_none.
    change (tl (FENCE ++ tag ++ LF :: render v))
      with (([BACKTICK; BACKTICK] ++ tag) ++ LF :: render v).
    apply includes_fence_lines; [|exact Hf].
    destruct Ht as [<-|[<-|[]]]; reflexivity. }
  split; [exact Hnone|].
  unfold planJsonText, planUnfence. cbv zeta.
  assert (Htrim : trim (w1 ++ (FENCE ++ tag ++ LF :: render v) ++ w2)
                  = FENCE ++ tag ++ LF :: render v).
  { apply trim_tight; auto. split.
    - exists BACKTICK. eexists. split; reflexivity.
    - exists (FENCE ++ tag ++ LF :: hd), c. split; [|exact Hwc].
      rewrite Hr, <- !app_assoc. reflexivity. }
  rewrite Htrim.
  change (startsWith (FENCE ++ tag ++ LF :: render v) FENCE) with true. cbv iota.
  rewrite Hnone.
  fold (removeFirst openingFencePattern (FENCE ++ tag ++ LF :: render v)).
  rewrite removeJsonFence by exact Ht. cbn [bind].
  fold (removeFirst closingFencePattern (render v)).
  rewrite removeFirst_closingFence_none by exact Hf. cbn [bind].
  pose proof (@trim_tight [] (render v) [] eq_refl eq_refl (tight_container v Hc)) as Htt.
  rewrite app_nil_r in Htt. cbn [app] in Htt. rewrite Htt.
  now rewrite planSkipProse_valid, planCutTail_valid.
Qed.

Lemma planJsonText_unclosed_fence_witness :
  planJsonText (lit "```json" ++ LF :: render ex_pair_tree) = Ok (render ex_pair_tree).
Proof.
  apply (proj2 (@planJsonText_unclosed_fence [] (lit "json") ex_pair_tree []
                  eq_refl eq_refl (or_intror (or_introl eq_refl)) eq_refl eq_refl
                  eq_refl)).
Defined.

(** ** The spans added by [chat] *)

Lemma existsb_eqs_in n l : existsb (eqs n) l = true <-> In n l.
Proof.
  rewrite existsb_exists. split.
  - intros (x & Hx & E). apply eqs_eq in E. now subst.
  - intros H. exists n. split; [exact H | apply eqs_refl].
Qed.

Lemma newSpans_fresh projectSpans extractedSpans s :
  In s (newSpans projectSpans extractedSpans) ->
  In s extractedSpans /\ ~ In (name s) (map name projectSpans).
Proof.
  unfold newSpans. intros H. apply filter_In in H. destruct H as [Hi Hn].
  split; [exact Hi|]. intros Hin. apply existsb_eqs_in in Hin.
  rewrite Hin in Hn. discriminate.
Qed.

Lemma filter_none {A} (f : A -> bool) l :
  (forall x, In x l -> f x = false) -> filter f l = [].
Proof.
  induction l as [|x l IH]; intros H; [reflexivity|]. cbn [filter].
  rewrite (H x (or_introl eq_refl)). apply IH. intros y Hy. apply H. now right.
Qed.

Lemma newSpans_again projectSpans extractedSpans :
  newSpans (projectSpans ++ newSpans projectSpans extractedSpans) extractedSpans = [].
Proof.
  unfold newSpans at 1. cbv zeta. apply filter_none. intros s Hs.
  apply negb_false_iff. apply existsb_eqs_in. rewrite map_app. apply in_or_app.
  destruct (existsb (eqs (name s)) (map name projectSpans)) eqn:E.
  - left. now apply existsb_eqs_in.
  - right. apply in_map. unfold newSpans. apply filter_In. split; [exact Hs|].
    now rewrite E.
Qed.

(** X16.  What [chat] does to the spans of the project: it keeps them, in order,
    and adds after them spans of the reply whose names the project did not
    have; and reading the same reply once more adds nothing. *)
Theorem chatSpans_adds_once (toLowerCase : jsstring -> jsstring)
    (projectSpans : list SpanDefinition) (response : jsstring) :
  exists added,
    chatSpans toLowerCase projectSpans response = Ok (projectSpans ++ added) /\
    (forall s, In s added -> ~ In (name s) (map name projectSpans)) /\
    chatSpans toLowerCase (projectSpans ++ added) response
    = Ok (projectSpans ++ added).
Proof.
  destruct (extractSpans_total toLowerCase response) as [ex Hex].
  exists (newSpans projectSpans ex). unfold chatSpans. rewrite Hex. cbn [bind].
  cbv zeta. rewrite newSpans_again.
  assert (Hsame : (if (0 <? len_spans ex)%Z
                   then if (0 <? len_spans (newSpans projectSpans ex))%Z
                        then Ok (projectSpans ++ newSpans projectSpans ex)
                        else Ok projectSpans
                   else Ok projectSpans)
                  = Ok (projectSpans ++ newSpans projectSpans ex)).
  { destruct ex as [|x ex]; [cbn; now rewrite app_nil_r|].
    change (0 <? len_spans (x :: ex))%Z with true. cbv iota.
    destruct (newSpans projectSpans (x :: ex)) as [|y l];
      [cbn; now rewrite app_nil_r | reflexivity]. }
  split; [exact Hsame|]. split.
  - intros s Hs. now apply newSpans_fresh in Hs.
  - change (0 <? len_spans [])%Z with false. cbv iota.
    destruct (0 <? len_spans ex)%Z; reflexivity.
Qed.

(** ** The replacement of a backtick-delimited value *)

(** X4.  Whatever the delimited text is (quotes, backslashes, newlines, control
    characters, any code unit), what the repair writes in place of the match
    is a colon, a space and a JSON string literal, and [JSON.parse] reads
    that literal back as the very text. *)
Theorem backtickReplacer_round_trip (m : rxmatch) (content : jsstring) :
  group m 1 = Some content ->
  exists literal,
    backtickReplacer m = Ok (lit ": " ++ literal) /\
    JSONparse literal (VString content).
Proof.
  intros Hg. destruct (escapeText_literal content) as (Hesc & Hwf & Hdec).
  exists ([DQUOTE] ++ escapeText content ++ [DQUOTE]). split.
  - unfold backtickReplacer. rewrite Hg. cbn [defined bind].
    rewrite escapeContent_eq. cbn [bind]. reflexivity.
  - exists [], (JString (map encodeChar content)), [].
    repeat split; auto.
    + cbn [render]. unfold renderString. rewrite Hesc, app_nil_r. reflexivity.
    + cbn [denote]. now rewrite Hdec.
Qed.

Lemma backtickReplacer_round_trip_witness :
  exists literal,
    backtickReplacer (mkMatch 0 (lit ": `a'b`") [(1, lit "a'b")])
    = Ok (lit ": " ++ literal) /\
    JSONparse literal (VString (lit "a'b")).
Proof.
  apply (@backtickReplacer_round_trip
           (mkMatch 0 (lit ": `a'b`") [(1, lit "a'b")]) (lit "a'b")).
  reflexivity.
Defined.

(** ** Function names for extracted spans *)

Lemma dots_to_underscores n :
  replaceAll (chr DOT) (fun _ => Ok [UNDERSCORE]) n
  = Ok (map (fun c => if N.eqb c DOT then UNDERSCORE else c) n).
Proof.
  unfold replaceAll, chr.
  rewrite (@segments_class (N.eqb DOT) (fun _ => Ok [UNDERSCORE]) (fun _ => [UNDERSCORE]))
    by (auto; lia).
  f_equal. induction n as [|c n IH]; [reflexivity|].
  cbn [flat_map map]. rewrite IH. rewrite (N.eqb_sym c). now destruct (N.eqb DOT c).
Qed.

Lemma wellFormed_chars s :
  wellFormedSpan s ->
  forallb (fun c => (isAlpha c || N.eqb c DOT)%bool) (name s) = true.
Proof.
  intros (head & segs & -> & _ & _ & Hh & _ & Hs). unfold spanNameOf.
  rewrite forallb_app. apply andb_true_iff. split.
  - rewrite forallb_forall in *. intros c Hc. unfold isAlpha. now rewrite (Hh c Hc).
  - induction Hs as [|seg segs [_ Hseg] Hs IH]; [reflexivity|].
    cbn [flat_map]. change (DOT :: seg) with ([DOT] ++ seg). rewrite !forallb_app.
    rewrite IH, andb_true_r. cbn [forallb]. rewrite N.eqb_refl, orb_true_r.
    cbn [andb]. rewrite forallb_forall in *. intros c Hc. now rewrite (Hseg c Hc).
Qed.

Lemma dots_injective : forall a b : jsstring,
  forallb (fun c => (isAlpha c || N.eqb c DOT)%bool) a = true ->
  forallb (fun c => (isAlpha c || N.eqb c DOT)%bool) b = true ->
  map (fun c => if N.eqb c DOT then UNDERSCORE else c) a
  = map (fun c => if N.eqb c DOT then UNDERSCORE else c) b ->
  a = b.
Proof.
  induction a as [|x a IH]; intros [|y b] Ha Hb E; try discriminate; [reflexivity|].
  cbn [forallb map] in *. apply andb_true_iff in Ha, Hb.
  destruct Ha as [Hx Ha], Hb as [Hy Hb]. injection E as E1 E2.
  f_equal; [|now apply IH].
  destruct (N.eqb_spec x DOT) as [Ex|Ex], (N.eqb_spec y DOT) as [Ey|Ey].
  - congruence.
  - exfalso. rewrite <- E1 in Hy. discriminate.
  - exfalso. rewrite E1 in Hx. discriminate.
  - exact E1.
Qed.

(** X17.  The name of the tracing function that the generator writes for a span
    of the extractor is [trace_] followed by letters and underscores, and two
    extracted spans get the same function name only if they have the same
    span name. *)
Theorem traceFunctionName_of_extracted (toLowerCase : jsstring -> jsstring)
    (text : jsstring) :
  lowersAscii toLowerCase ->
  exists spans,
    extractSpansFromText toLowerCase text = Ok spans /\
    Forall (fun s => exists f, traceFunctionName s = Ok (lit "trace_" ++ f) /\
                               forallb isIdentifierChar f = true) spans /\
    (forall s s', In s spans -> In s' spans ->
       traceFunctionName s = traceFunctionName s' -> name s = name s').
Proof.
  intros Hl. destruct (extractSpans_total toLowerCase text) as [spans Hs].
  exists spans. split; [exact Hs|].
  pose proof (extractSpans_wellFormed Hl text Hs) as Hw.
  rewrite Forall_forall in Hw. split.
  - apply Forall_forall. intros s Hi. unfold traceFunctionName.
    rewrite dots_to_underscores. cbn [bind]. eexists. split; [reflexivity|].
    pose proof (wellFormed_chars (Hw s Hi)) as Hc.
    rewrite forallb_forall in *. intros c Hin. apply in_map_iff in Hin.
    destruct Hin as (x & <- & Hx). specialize (Hc x Hx). unfold isIdentifierChar.
    destruct (N.eqb_spec x DOT); [reflexivity|].
    rewrite orb_false_r in Hc. now rewrite Hc.
  - intros s s' Hi Hi'. unfold traceFunctionName. rewrite !dots_to_underscores.
    cbn [bind]. intros E. injection E as E.
    apply dots_injective; auto using wellFormed_chars.
Qed.

Lemma traceFunctionName_of_extracted_witness :
  exists spans,
    extractSpansFromText (map lowerAscii) ex_both_forms = Ok spans /\
    Forall (fun s => exists f, traceFunctionName s = Ok (lit "trace_" ++ f) /\
                               forallb isIdentifierChar f = true) spans /\
    (forall s s', In s spans -> In s' spans ->
       traceFunctionName s = traceFunctionName s' -> name s = name s').
Proof.
  exact (@traceFunctionName_of_extracted (map lowerAscii) ex_both_forms
           lowerAscii_lowers).
Defined.

(** ** The repair of a text with several delimited values *)

Lemma segments_sites sites tail :
  Forall closedSite sites -> hasSite tail = false ->
  forall fuel pos, length (proseWithSites sites ++ tail) < fuel ->
    (let (ms, tl) := segments fuel backtickValuePattern
                       (proseWithSites sites ++ tail) pos in
     assemble backtickReplacer ms tl)
    = Ok (repairedProse sites ++ tail).
Proof.
  intros Hs Ht. induction Hs as [|[[a w] c] sites (Ha & Hw & Hc) Hs IH];
    intros fuel pos Hlen.
  - destruct fuel as [|fuel]; [lia|]. cbn [proseWithSites flat_map app segments].
    now rewrite execFrom_no_site.
  - destruct fuel as [|fuel]; [lia|].
    cbn [proseWithSites repairedProse flat_map] in *.
    fold (proseWithSites sites) in *. fold (repairedProse sites).
    rewrite <- !app_assoc in *. cbn [segments].
    change (siteText w c ++ proseWithSites sites ++ tail)
      with (COLON :: (w ++ BACKTICK :: c ++ [BACKTICK]) ++ proseWithSites sites ++ tail).
    rewrite execFrom_skip by exact Ha.
    change (COLON :: (w ++ BACKTICK :: c ++ [BACKTICK]) ++ proseWithSites sites ++ tail)
      with (siteText w c ++ proseWithSites sites ++ tail).
    rewrite execFrom_site by assumption. cbn [mText mIndex].
    assert (Hne : exists x t, siteText w c = x :: t) by (eexists; eexists; reflexivity).
    destruct Hne as (x & t & Hne). rewrite Hne at 1.
    specialize (IH fuel (pos + length a + length (siteText w c))).
    assert (Hl : length (proseWithSites sites ++ tail) < fuel).
    { rewrite !length_app in Hlen. rewrite Hne in Hlen. cbn [length] in Hlen.
      rewrite length_app. lia. }
    specialize (IH Hl).
    destruct (segments fuel backtickValuePattern (proseWithSites sites ++ tail) _)
      as [ms tl].
    cbn [assemble]. unfold backtickReplacer at 1.
    cbn [group mCaps getCap Nat.eqb defined bind].
    rewrite escapeContent_eq. cbn [bind]. rewrite IH. cbn [bind].
    rewrite <- !app_assoc. reflexivity.
Qed.

Lemma repairBackticks_sites sites tail :
  Forall closedSite sites -> hasSite tail = false ->
  repairBackticks (proseWithSites sites ++ tail) = Ok (repairedProse sites ++ tail).
Proof.
  intros Hs Ht. unfold repairBackticks, replaceAll.
  apply segments_sites; auto.
Qed.

Lemma stripFences_keeps_front P post a r hd c :
  P = a :: r -> isWhiteSpace a = false -> a <> BACKTICK ->
  P = hd ++ [c] -> isCloser c = true ->
  exists post' y, post = post' ++ y /\ stripFences (P ++ post) = P ++ post'.
Proof.
  intros HP Hwa Hba HP' Hc.
  assert (Hwc : isWhiteSpace c = false /\ ~ In c (lit "```")).
  { unfold isCloser in Hc. apply orb_true_iff in Hc.
    destruct Hc as [E|E]; apply N.eqb_eq in E; subst c;
      (split; [reflexivity|]); intros H; cbn in H;
      repeat (destruct H as [H|H]; [discriminate|]); exact H. }
  destruct Hwc as [Hwc Hcf].
  assert (Htrim : forall s, aroundText [] P post s -> aroundText [] P post (trim s)).
  { intros s Hs. unfold trim. eapply around_trimEnd; eauto.
    eapply around_trimStart; eauto. }
  assert (Hres : aroundText [] P post (stripFences (P ++ post))).
  { unfold stripFences. apply Htrim.
    assert (H0 : aroundText [] P post (trim (P ++ post))).
    { apply Htrim. exists [], [], post, [].
      repeat split; cbn [app]; rewrite ?app_nil_r; reflexivity. }
    set (s0 := trim (P ++ post)) in *.
    assert (Hs0 : exists t, s0 = a :: t).
    { destruct H0 as (x & pre' & post' & y & Hp & _ & Hs).
      symmetry in Hp. apply app_eq_nil in Hp. destruct Hp as [_ ->].
      rewrite Hs, HP. eexists. reflexivity. }
    destruct Hs0 as (t & Hs0).
    replace (startsWith s0 (lit "```json")) with false
      by (rewrite Hs0; symmetry; apply startsWith_head_neq; exact Hba).
    replace (startsWith s0 (lit "```")) with false
      by (rewrite Hs0; symmetry; apply startsWith_head_neq; exact Hba).
    destruct (endsWith s0 (lit "```")) eqn:E3; [|exact H0].
    apply (@around_dropSuffix [] P post s0 (lit "```") hd c HP' Hcf);
      [discriminate | exact E3 | exact H0]. }
  destruct Hres as (x & pre' & post' & y & Hp & Hq & Hs).
  symmetry in Hp. apply app_eq_nil in Hp. destruct Hp as [_ ->].
  exists post', y. split; [exact Hq | exact Hs].
Qed.

Lemma escapeUnit_small :
  forallb (fun c => forallb (fun x => (N.eqb x c
                                       || negb (N.eqb x LBRACE || N.eqb x LBRACKET))%bool)
                            (escapeUnit c))
          (map N.of_nat (seq 0 160)) = true.
Proof. vm_compute. reflexivity. Qed.

Lemma escapeUnit_opener o c :
  isOpener o = true -> In o (escapeUnit c) -> o = c.
Proof.
  intros Ho Hi. destruct (N.ltb_spec c 160) as [Hlt|Hge].
  - pose proof escapeUnit_small as H. rewrite forallb_forall in H.
    assert (Hin : In c (map N.of_nat (seq 0 160))).
    { apply in_map_iff. exists (N.to_nat c). split; [apply N2Nat.id|].
      apply in_seq. lia. }
    specialize (H c Hin). rewrite forallb_forall in H. specialize (H o Hi).
    apply orb_true_iff in H. destruct H as [H|H]; [now apply N.eqb_eq in H|].
    unfold isOpener in Ho. rewrite Ho in H. discriminate.
  - assert (Hn : needsEscape c = false).
    { unfold needsEscape, inRange, DQUOTE, BACKSLASH.
      destruct (N.leb_spec c 31); [lia|]. destruct (N.leb_spec c 159); [lia|].
      destruct (N.eqb_spec c 34); [lia|]. destruct (N.eqb_spec c 92); [lia|].
      now rewrite !andb_false_r. }
    unfold escapeUnit in Hi. rewrite Hn in Hi. destruct Hi as [E|[]]. now symmetry.
Qed.

Lemma escapeText_opener o c :
  isOpener o = true -> ~ In o c -> ~ In o (escapeText c).
Proof.
  intros Ho Hc Hi. unfold escapeText in Hi. apply in_flat_map in Hi.
  destruct Hi as (x & Hx & Hi). apply (@escapeUnit_opener o x Ho) in Hi. subst x.
  contradiction.
Qed.

Lemma repairedProse_opener o sites :
  isOpener o = true -> ~ In o (proseWithSites sites) ->
  ~ In o (repairedProse sites).
Proof.
  intros Ho. induction sites as [|[[a w] c] sites IH]; [auto|].
  cbn [proseWithSites repairedProse flat_map]. fold (proseWithSites sites).
  fold (repairedProse sites). intros Hn Hi.
  assert (Ha : ~ In o a) by (intros H; apply Hn; apply in_or_app; left;
                             apply in_or_app; now left).
  assert (Hc : ~ In o c).
  { intros H. apply Hn. apply in_or_app. left. apply in_or_app. right.
    unfold siteText. right. apply in_or_app. right. right. apply in_or_app. now left. }
  assert (Hr : ~ In o (proseWithSites sites))
    by (intros H; apply Hn; apply in_or_app; now right).
  apply in_app_or in Hi. destruct Hi as [Hi|Hi]; [|now apply IH].
  apply in_app_or in Hi. destruct Hi as [Hi|Hi]; [contradiction|].
  apply in_app_or in Hi. destruct Hi as [Hi|Hi].
  - unfold isOpener in Ho. apply orb_true_iff in Ho.
    destruct Ho as [E|E]; apply N.eqb_eq in E; subst o; cbn in Hi;
      repeat (destruct Hi as [Hi|Hi]; [discriminate|]); exact Hi.
  - apply in_app_or in Hi. destruct Hi as [Hi|Hi].
    + now apply (@escapeText_opener o c Ho Hc).
    + unfold isOpener in Ho. apply orb_true_iff in Ho.
      destruct Ho as [E|E]; apply N.eqb_eq in E; subst o; cbn in Hi;
        repeat (destruct Hi as [Hi|Hi]; [discriminate|]); exact Hi.
Qed.

(** X2.  A reply that starts with prose and holds a valid JSON object or array,
    as when the model writes a sentence ending in a colon and then a fenced
    block.  The prose may hold colons followed by a backtick-delimited text
    (the fence after the colon is one, with an empty text), each closed
    before the JSON starts; the repair rewrites them and the extraction still
    returns the object or array, provided the prose has no brace or bracket
    and nothing from the last of those texts on forms another one. *)
Theorem extractJson_after_prose_with_backticks
    (sites : list (jsstring * jsstring * jsstring)) (mid : jsstring)
    (v : jvalue) (post : jsstring) :
  Forall closedSite sites ->
  wfValue v = true -> isContainer v = true ->
  ~ In LBRACE (proseWithSites sites ++ mid) ->
  ~ In LBRACKET (proseWithSites sites ++ mid) ->
  match proseWithSites sites ++ mid with
  | a :: _ => isWhiteSpace a = false /\ a <> BACKTICK
  | [] => True
  end ->
  hasSite (mid ++ render v ++ post) = false ->
  repairBackticks (proseWithSites sites ++ mid ++ render v)
  = Ok (repairedProse sites ++ mid ++ render v) /\
  extractJsonFromResponse ((proseWithSites sites ++ mid) ++ render v ++ post)
  = Ok (render v).
Proof.
  intros Hs Hwf Hc H1 H2 Hfront Hsite.
  destruct (container_head v Hc) as (o & tl & Ho & Hr).
  destruct (container_last v Hc) as (c & hd & Hcl & Hr').
  assert (Hwo : isWhiteSpace o = false /\ o <> BACKTICK).
  { unfold isOpener in Ho. apply orb_true_iff in Ho.
    destruct Ho as [E|E]; apply N.eqb_eq in E; subst o; split;
      try reflexivity; discriminate. }
  split.
  { apply repairBackticks_sites; [exact Hs|].
    replace (mid ++ render v ++ post) with ((mid ++ render v) ++ post) in Hsite
      by now rewrite <- app_assoc.
    now apply hasSite_app_l in Hsite. }
  set (prose := proseWithSites sites ++ mid) in *.
  assert (HP : exists a r, prose ++ render v = a :: r /\
                           isWhiteSpace a = false /\ a <> BACKTICK).
  { destruct prose as [|a p]; cbn [app].
    - exists o, tl. split; [exact Hr | exact Hwo].
    - exists a, (p ++ render v). split; [reflexivity | exact Hfront]. }
  destruct HP as (a & r & HP & Hwa & Hba).
  destruct (@stripFences_keeps_front (prose ++ render v) post a r (prose ++ hd) c
              HP Hwa Hba) as (post' & y & Hq & Hst);
    [rewrite Hr', app_assoc; reflexivity | exact Hcl |].
  unfold extractJsonFromResponse.
  rewrite <- app_assoc in Hst. rewrite Hst.
  unfold prose. rewrite <- !app_assoc.
  rewrite repairBackticks_sites.
  - cbn [bind]. rewrite app_assoc. apply locateJson_around; auto.
    + intros Hi. apply in_app_or in Hi. destruct Hi as [Hi|Hi].
      * revert Hi. apply repairedProse_opener; [reflexivity|].
        intros Hi. apply H1. unfold prose. apply in_or_app. now left.
      * apply H1. unfold prose. apply in_or_app. now right.
    + intros Hi. apply in_app_or in Hi. destruct Hi as [Hi|Hi].
      * revert Hi. apply repairedProse_opener; [reflexivity|].
        intros Hi. apply H2. unfold prose. apply in_or_app. now left.
      * apply H2. unfold prose. apply in_or_app. now right.
  - exact Hs.
  - rewrite Hq in Hsite.
    replace (mid ++ render v ++ post' ++ y) with ((mid ++ render v ++ post') ++ y)
      in Hsite by (rewrite <- !app_assoc; reflexivity).
    now apply hasSite_app_l in Hsite.
Qed.

Lemma extractJson_after_prose_with_backticks_witness :
  proseWithSites ex_sentence_sites ++ ex_sentence_mid
  = lit "Here is the JSON:" ++ [LF] ++ lit "```json" ++ [LF] /\
  extractJsonFromResponse
    ((proseWithSites ex_sentence_sites ++ ex_sentence_mid)
     ++ render ex_pair_tree ++ ex_sentence_after)
  = Ok (render ex_pair_tree).
Proof.
  split; [reflexivity|].
  apply (@extractJson_after_prose_with_backticks ex_sentence_sites ex_sentence_mid
           ex_pair_tree ex_sentence_after).
  - constructor; [|constructor]. split; [vm_compute; reflexivity|].
    split; [reflexivity | intros []].
  - vm_compute. reflexivity.
  - vm_compute. reflexivity.
  - intros H. vm_compute in H. repeat (destruct H as [H|H]; [discriminate|]). exact H.
  - intros H. vm_compute in H. repeat (destruct H as [H|H]; [discriminate|]). exact H.
  - vm_compute. split; [reflexivity | discriminate].
  - vm_compute. reflexivity.
Defined.

(** ** Extracting twice *)

Lemma fromStartToken_head s x r :
  fromStartToken s = x :: r -> isOpener x = true.
Proof.
  induction s as [|c t IH]; cbn [fromStartToken]; [discriminate|].
  destruct (N.eqb c LBRACE || N.eqb c LBRACKET)%bool eqn:E; [|exact IH].
  intros H. injection H as <- _. exact E.
Qed.

Lemma balancedAt_closer before c : balancedAt before c = true -> isCloser c = true.
Proof.
  unfold balancedAt. intros H. repeat (apply andb_true_iff in H; destruct H as [H ?]).
  assumption.
Qed.

Lemma app_eq_length {A} : forall (a c b d : list A),
  a ++ b = c ++ d -> length a = length c -> a = c /\ b = d.
Proof.
  induction a as [|x a IH]; intros [|y c] b d H Hl; try discriminate.
  - auto.
  - cbn [app] in H. injection H as -> H. cbn [length] in Hl.
    destruct (IH c b d H ltac:(lia)) as [-> ->]. auto.
Qed.

(** X3.  What [extractJsonFromResponse] returns it returns again when given it,
    if the result has no colon followed by optional white space and a
    backtick-delimited text. *)
Theorem extractJson_idempotent (raw t : jsstring) :
  extractJsonFromResponse raw = Ok t -> hasSite t = false ->
  extractJsonFromResponse t = Ok t.
Proof.
  intros Hraw Hsite.
  destruct (extractJson_locate raw) as (cleaned & _ & He). rewrite He in Hraw.
  destruct (locateJson_spec cleaned)
    as [[_ E] | [(_ & _ & E) | (pre & before & c & after & Hs & Hf & Hb & Hmin & E)]];
    rewrite E in Hraw; try discriminate.
  injection Hraw as <-.
  pose proof (balancedAt_closer _ _ Hb) as Hcl.
  assert (Hhead : exists o tl, before = o :: tl /\ isOpener o = true).
  { destruct before as [|o tl].
    - exfalso. cbn [app] in Hf. apply fromStartToken_head in Hf.
      unfold isOpener in Hf. unfold isCloser in Hcl.
      apply orb_true_iff in Hf. apply orb_true_iff in Hcl.
      destruct Hf as [F|F]; apply N.eqb_eq in F; subst c;
        destruct Hcl as [F|F]; discriminate.
    - exists o, tl. split; [reflexivity|]. cbn [app] in Hf.
      now apply fromStartToken_head in Hf. }
  destruct Hhead as (o & tl & -> & Ho).
  assert (Hst : stripFences ((o :: tl) ++ [c]) = (o :: tl) ++ [c]).
  { pose proof (@stripFences_bare [] ((o :: tl) ++ [c]) [] o (tl ++ [c]) (o :: tl) c
                  eq_refl eq_refl eq_refl) as H.
    rewrite app_nil_r in H. cbn [app] in H. cbn [app]. apply H; auto.
    - unfold isOpener in Ho. apply orb_true_iff in Ho.
      destruct Ho as [F|F]; apply N.eqb_eq in F; subst o; reflexivity.
    - unfold isOpener in Ho. apply orb_true_iff in Ho.
      destruct Ho as [F|F]; apply N.eqb_eq in F; subst o; discriminate.
    - unfold isCloser in Hcl. apply orb_true_iff in Hcl.
      destruct Hcl as [F|F]; apply N.eqb_eq in F; subst c; reflexivity.
    - unfold isCloser in Hcl. apply orb_true_iff in Hcl.
      destruct Hcl as [F|F]; apply N.eqb_eq in F; subst c; discriminate. }
  unfold extractJsonFromResponse. rewrite Hst, repairBackticks_no_site by exact Hsite.
  cbn [bind].
  assert (Hft : fromStartToken ((o :: tl) ++ [c]) = (o :: tl) ++ [c]).
  { cbn [app fromStartToken]. unfold isOpener in Ho. now rewrite Ho. }
  destruct (locateJson_spec ((o :: tl) ++ [c]))
    as [[Hn _] | [(_ & Hnb & _) |
                  (pre2 & before2 & c2 & after2 & Hs2 & Hf2 & Hb2 & Hmin2 & E2)]].
  - exfalso. destruct Hn as [N1 N2]. unfold isOpener in Ho. apply orb_true_iff in Ho.
    destruct Ho as [F|F]; apply N.eqb_eq in F; subst o;
      [apply N1 | apply N2]; now left.
  - exfalso. rewrite Hft in Hnb. specialize (Hnb (o :: tl) c [] eq_refl). congruence.
  - rewrite E2. f_equal. rewrite Hft in Hf2.
    assert (Hlen : length before2 = length (o :: tl)).
    { destruct (Nat.lt_trichotomy (length before2) (length (o :: tl))) as [L|[L|L]].
      - exfalso. rewrite (Hmin before2 c2 (after2 ++ after)) in Hb2; [discriminate| |exact L].
        replace ((o :: tl) ++ c :: after) with (((o :: tl) ++ [c]) ++ after)
          by (rewrite <- app_assoc; reflexivity).
        rewrite Hf2, <- app_assoc. reflexivity.
      - exact L.
      - exfalso. apply (f_equal (@length N)) in Hf2.
        rewrite !length_app in Hf2. cbn [length] in Hf2, L. lia. }
    assert (Hsplit : before2 = o :: tl /\ c2 :: after2 = [c]).
    { apply app_eq_length in Hf2; [|exact (eq_sym Hlen)]. destruct Hf2. auto. }
    destruct Hsplit as [-> Hc2]. injection Hc2 as -> _. reflexivity.
Qed.

Lemma extractJson_idempotent_witness :
  extractJsonFromResponse (render ex_pair_tree) = Ok (render ex_pair_tree).
Proof.
  apply (@extractJson_idempotent
           (ex_before_fenced ++ render ex_pair_tree ++ ex_after_fenced)
           (render ex_pair_tree)).
  - vm_compute. reflexivity.
  - vm_compute. reflexivity.
Defined.
